(** * ERTK codegen engine: a shallow embedding of [generate.ts]

    The development follows the source file section by section: the
    JavaScript runtime operations the code relies on ([Js]), the internal
    types, AST parsing ([parseEndpointFile]), route derivation and grouping,
    code generation ([generateApiTs], [generateRouteFile]), the incremental
    build helpers and [runGenerate].

    Strings are sequences of UTF-16 code units; the model uses Rocq strings,
    whose units are bytes, as the UTF-8 form of the same text.  Every
    character class the source tests for (quotes, word characters, slashes,
    dots, a-z) is ASCII, so the tests agree on both encodings; the order of
    [sort] is taken on the code units, and the upper-casing of a character
    outside ASCII is left to the runtime. *)

From Stdlib Require Import ZArith Ascii.
From stdpp Require Import base decidable option list sorting lexico strings pretty
  gmap.

Set Warnings "-register-all,-clear-no-such-hyp".

(** ** JavaScript strings, arrays, sets and maps as the code uses them *)

Module Js.

(** [s.startsWith(p)] *)
Definition startsWith (s p : string) : bool := String.prefix p s.

(** [s.endsWith(p)] *)
Fixpoint endsWith (s p : string) : bool :=
  if decide (s = p) then true
  else match s with
       | "" => false
       | String _ s' => endsWith s' p
       end.

(** [s.includes(p)] *)
Fixpoint includes (s p : string) : bool :=
  if String.prefix p s then true
  else match s with
       | "" => false
       | String _ s' => includes s' p
       end.

(** [s.split(sep)] for a separator of one character; the result is never
    empty: the empty string splits into one empty piece. *)
Fixpoint split (sep : ascii) (s : string) : list string :=
  match s with
  | "" => [""]
  | String c s' =>
      if decide (c = sep) then "" :: split sep s'
      else match split sep s' with
           | [] => [String c ""]
           | w :: ws => String c w :: ws
           end
  end.

(** [arr.join(sep)] *)
Definition join (sep : string) (l : list string) : string :=
  String.concat sep l.

(** [arr.pop()]: the last element and the array without it, [None]
    (JavaScript [undefined]) on the empty array. *)
Fixpoint pop {A} (l : list A) : option (A * list A) :=
  match l with
  | [] => None
  | x :: l' =>
      match pop l' with
      | None => Some (x, [])
      | Some (y, r) => Some (y, x :: r)
      end
  end.

(** Replacing the pattern [/\.ts$/] by the empty string: without the [m]
    flag [$] only matches at the end of the input, so at most the final
    [.ts] is removed. *)
Fixpoint replace_ts_ext (s : string) : string :=
  if decide (s = ".ts") then ""
  else match s with
       | "" => ""
       | String c s' => String c (replace_ts_ext s')
       end.

(** Replacing every backslash by a slash (pattern [/\\/g]). *)
Fixpoint replace_backslashes (s : string) : string :=
  match s with
  | "" => ""
  | String c s' =>
      String (if decide (c = "\"%char) then "/"%char else c)
             (replace_backslashes s')
  end.

(** Removing a leading [/api/] (pattern [/^\/api\//]). *)
Definition replace_api_prefix (s : string) : string :=
  if String.prefix "/api/" s
  then String.substring 5 (String.length s - 5) s
  else s.

(** The single quote and the double quote (code 34). *)
Definition is_quote (c : ascii) : bool :=
  bool_decide (c = "'"%char) || bool_decide (c = "034"%char).

(** Removing every single and double quote. *)
Fixpoint remove_quotes (s : string) : string :=
  match s with
  | "" => ""
  | String c s' =>
      if is_quote c then remove_quotes s' else String c (remove_quotes s')
  end.

Definition is_lower (c : ascii) : bool :=
  let n := Ascii.N_of_ascii c in ((97 <=? n) && (n <=? 122))%N.

Definition is_upper (c : ascii) : bool :=
  let n := Ascii.N_of_ascii c in ((65 <=? n) && (n <=? 90))%N.

Definition is_digit (c : ascii) : bool :=
  let n := Ascii.N_of_ascii c in ((48 <=? n) && (n <=? 57))%N.

(** The class [\w] of a regular expression without the [u] and [i]
    flags: [A-Za-z0-9_]. *)
Definition is_word (c : ascii) : bool :=
  is_lower c || is_upper c || is_digit c || bool_decide (c = "_"%char).

(** [c.toUpperCase()] on one code unit: a-z go to A-Z, every other ASCII
    character is left as it is (and so is, in the model, every unit above
    127; the strings the code upper-cases are method names and
    identifiers). *)
Definition upper_char (c : ascii) : ascii :=
  if is_lower c then Ascii.ascii_of_N (Ascii.N_of_ascii c - 32) else c.

(** [s.toUpperCase()] *)
Fixpoint toUpperCase (s : string) : string :=
  match s with
  | "" => ""
  | String c s' => String (upper_char c) (toUpperCase s')
  end.

(** The white space of [\s] and of [trim] among the ASCII characters. *)
Definition is_space (c : ascii) : bool :=
  let n := Ascii.N_of_ascii c in ((9 <=? n) && (n <=? 13) || (n =? 32))%N.

Fixpoint trimStart (s : string) : string :=
  match s with
  | "" => ""
  | String c s' => if is_space c then trimStart s' else s
  end.

(** [s.trim()] *)
Definition trim (s : string) : string :=
  String.rev (trimStart (String.rev (trimStart s))).

(** A [Set<string>] keeps its elements in insertion order. *)
Definition set_has (s : list string) (x : string) : bool :=
  bool_decide (x ∈ s).

Definition set_add (s : list string) (x : string) : list string :=
  if set_has s x then s else s ++ [x].

(** A [Map<string, V>] (and an object used as a record of string keys that
    are not array indices) keeps its entries in the order of first
    insertion; setting an existing key replaces the value in place. *)
Fixpoint map_get {V} (m : list (string * V)) (k : string) : option V :=
  match m with
  | [] => None
  | (k', v) :: m' => if decide (k' = k) then Some v else map_get m' k
  end.

Definition map_has {V} (m : list (string * V)) (k : string) : bool :=
  bool_decide (is_Some (map_get m k)).

Fixpoint map_set {V} (m : list (string * V)) (k : string) (v : V)
  : list (string * V) :=
  match m with
  | [] => [(k, v)]
  | (k', v') :: m' =>
      if decide (k' = k) then (k, v) :: m' else (k', v') :: map_set m' k v
  end.

Definition map_keys {V} (m : list (string * V)) : list string := m.*1.
Definition map_values {V} (m : list (string * V)) : list V := m.*2.

(** The bytes of a string and the UTF-16 code units of the text they hold
    as UTF-8: one unit for a sequence of one, two or three bytes, a pair of
    surrogates for a sequence of four.  (A sequence that is cut short is
    read byte by byte; the strings of a program are whole.) *)
Definition bytes (s : string) : list N :=
  N_of_ascii <$> String.list_ascii_of_string s.

Fixpoint codeUnits (bs : list N) : list N :=
  match bs with
  | [] => []
  | b0 :: rest =>
      if (b0 <? 128)%N then b0 :: codeUnits rest
      else if (b0 <? 224)%N then
        match rest with
        | b1 :: rest' => ((b0 - 192) * 64 + (b1 - 128))%N :: codeUnits rest'
        | [] => [b0]
        end
      else if (b0 <? 240)%N then
        match rest with
        | b1 :: b2 :: rest' =>
            ((b0 - 224) * 4096 + (b1 - 128) * 64 + (b2 - 128))%N
            :: codeUnits rest'
        | _ => b0 :: codeUnits rest
        end
      else
        match rest with
        | b1 :: b2 :: b3 :: rest' =>
            let v := ((b0 - 240) * 262144 + (b1 - 128) * 4096 +
                      (b2 - 128) * 64 + (b3 - 128) - 65536)%N in
            (55296 + v `div` 1024)%N :: (56320 + v `mod` 1024)%N
            :: codeUnits rest'
        | _ => b0 :: codeUnits rest
        end
  end.

(** The order of [a < b] on strings and of the default [sort]: the
    lexicographic order of the code units.  (The bytes come second, so that
    two different strings are never equivalent; on whole UTF-8 texts the
    code units decide alone.) *)
Definition sortKey (s : string) : list N * list N :=
  (codeUnits (bytes s), bytes s).

Definition codeUnitLe (a b : string) : Prop :=
  a = b ∨ lexico (sortKey a) (sortKey b).

Global Instance codeUnitLe_dec a b : Decision (codeUnitLe a b) := _.

Global Instance codeUnitLe_po : PartialOrder codeUnitLe.
Proof.
  split; [split|].
  - intros x. by left.
  - intros x y z [->|Hxy] [->|Hyz]; [by left|by right|by right|].
    right. by trans (sortKey y).
  - intros x y [->|Hxy] [?|Hyx]; [done..|].
    destruct (irreflexivity lexico (sortKey x)). by trans (sortKey y).
Qed.

Global Instance codeUnitLe_total : Total codeUnitLe.
Proof.
  intros x y.
  destruct (trichotomyT lexico (sortKey x) (sortKey y)) as [[?|Heq]|?];
    [left; by right| |right; by right].
  left. left. injection Heq as _ Heq. unfold bytes in Heq.
  rewrite <-(String.string_of_list_ascii_of_string x),
          <-(String.string_of_list_ascii_of_string y).
  f_equal. revert Heq.
  generalize (String.list_ascii_of_string x) (String.list_ascii_of_string y).
  intros l1. induction l1 as [|c1 l1 IH]; intros [|c2 l2] Heq;
    simplify_eq/=; [done|].
  f_equal; [|by apply IH].
  rewrite <-(ascii_N_embedding c1), <-(ascii_N_embedding c2). by f_equal.
Qed.

(** [arr.sort()] on strings: ascending order of code units. *)
Definition sort (l : list string) : list string := merge_sort codeUnitLe l.

(** [arr.sort()] on values that are not strings compares their string
    conversions; [arr.sort(cmp)] compares with [cmp].  Both are stable:
    modelled as insertion from the right with a less-or-equal test. *)
Fixpoint insert_by {A} (le : A → A → bool) (x : A) (l : list A) : list A :=
  match l with
  | [] => [x]
  | y :: l' => if le x y then x :: l else y :: insert_by le x l'
  end.

Definition sort_by {A} (le : A → A → bool) (l : list A) : list A :=
  foldr (insert_by le) [] l.

End Js.

(** ** Internal types *)

Record RoutesConfig := {
  dir : string;
  handlerModule : string;
  ignoredRoutes : list string;
}.

Record ResolvedConfig := {
  root : string;
  endpointsDir : string;
  generatedDir : string;
  manifestPath : string;
  pathAlias : string;
  aliasRoot : string;
  baseUrl : string;
  baseQuery : option string;
  crudFilenames : list string;
  routes : option RoutesConfig;
}.

Definition DEFAULT_CRUD_FILENAMES : list string :=
  ["get"; "list"; "create"; "update"; "delete"; "send"; "remove"; "cancel"].

Inductive EndpointType := query | mutation.

(** A number as a retry count can hold one: [parseInt] gives the double of
    an integer, or an infinity ([NaN] is kept apart, as [None]; the sign of
    a zero is not kept, which no test or print of the code tells apart). *)
Inductive JsNumber :=
| Integer (z : Z)
| Infinity
| MinusInfinity.

(** [v > 0] *)
Definition isPositive (v : JsNumber) : bool :=
  match v with
  | Integer z => bool_decide (0 < z)%Z
  | Infinity => true
  | MinusInfinity => false
  end.

Record ParsedEndpoint := {
  name : string;
  method : string;
  filePath : string;
  importPath : string;
  routePath : string;
  isProtected : bool;
  hasRequest : bool;
  hasHandler : bool;
  responseType : string;
  responseTypeImport : option string;
  argsType : string;
  argsTypeImport : option string;
  queryFnSource : string;
  endpointType : EndpointType;
  providesTagsSource : option string;
  invalidatesTagsSource : option string;
  optimisticSource : option string;
  maxRetries : option JsNumber;
  typeImports : list (string * list string);
}.

Record RouteGroup := {
  rg_routePath : string;
  appRouteDir : string;
  methods : list (string * ParsedEndpoint);
}.

(** ** Route derivation *)

Definition deriveRoutePath (filePath : string) (config : ResolvedConfig)
  : string :=
  let parts := Js.split "/" (Js.replace_ts_ext filePath) in
  match Js.pop parts with
  | Some (fileName, parts) =>
      let segments := parts in
      let segments :=
        if negb (Js.set_has (crudFilenames config) fileName)
        then segments ++ [fileName] else segments in
      "/api/" +:+ Js.join "/" segments
  | None => "/api/"
  end.

(** ** The syntax tree, as far as the extractor looks at it

    Nodes carry their source text ([getText]).  Of the expression kinds only
    the object literal is told apart; of an object literal the members with
    their kinds and names. *)

Inductive Node :=
| ObjectLiteralExpression (text : string) (properties : list ObjectLiteralElement)
| OtherExpression (text : string)
with ObjectLiteralElement :=
| PropertyAssignment (propName : string) (initializer : Node)
| ShorthandPropertyAssignment (propName : string)
| MethodDeclaration (propName : string)
| GetAccessorDeclaration (propName : string)
| SetAccessorDeclaration (propName : string)
| SpreadAssignment (expression : Node).

Definition getText (n : Node) : string :=
  match n with
  | ObjectLiteralExpression t _ => t
  | OtherExpression t => t
  end.

Definition getName (p : ObjectLiteralElement) : option string :=
  match p with
  | PropertyAssignment n _ | ShorthandPropertyAssignment n
  | MethodDeclaration n | GetAccessorDeclaration n
  | SetAccessorDeclaration n => Some n
  | SpreadAssignment _ => None
  end.

(** [obj.getProperty(name)]: the first member that has this name. *)
Fixpoint getProperty (props : list ObjectLiteralElement) (n : string)
  : option ObjectLiteralElement :=
  match props with
  | [] => None
  | p :: props' =>
      if decide (getName p = Some n) then Some p else getProperty props' n
  end.

Inductive Callee :=
| PropertyAccessExpression (objectText : string) (methodName : string)
| OtherCallee.

Record CallExpression := {
  callee : Callee;
  typeArguments : list string;
  arguments : list Node;
}.

Record ImportDeclaration := {
  moduleSpecifierValue : string;
  namedImports : list string;
}.

Record SourceFile := {
  defaultExportSymbol : bool;
  callExpressions : list CallExpression;
  importDeclarations : list ImportDeclaration;
}.

(** ** The world the generator runs in

    The file system holds regular files by absolute path and the directories
    made so far; the trace records what the run did, oldest event first. *)

Inductive Event :=
| Warn (msg : string)
| Log (msg : string)
| ReadFile (path : string)
| Mkdir (path : string)
| WriteFile (path content : string)
| AddSourceFile (path : string).

Record World := {
  w_files : gmap string string;
  w_dirs : gset string;
  w_trace : list Event;
}.

Inductive Res (A : Type) :=
| Ok (a : A) (w : World)
| Throw (err : string) (w : World).
Arguments Ok {A} a w.
Arguments Throw {A} err w.

(** Computations that read and change the world and may throw. *)
Definition M (A : Type) : Type := World → Res A.

Definition ret {A} (a : A) : M A := λ w, Ok a w.

Definition bind {A B} (m : M A) (k : A → M B) : M B :=
  λ w, match m w with
       | Ok a w' => k a w'
       | Throw e w' => Throw e w'
       end.

Definition throw {A} (e : string) : M A := λ w, Throw e w.

(** [try { m } catch { h }] *)
Definition try_catch {A} (m : M A) (h : M A) : M A :=
  λ w, match m w with
       | Ok a w' => Ok a w'
       | Throw _ w' => h w'
       end.

Global Instance M_ret : MRet M := @ret.
Global Instance M_bind : MBind M := λ A B k m, bind m k.

(** The world after some more events that leave the file system alone. *)
Definition extend (w : World) (evs : list Event) : World :=
  {| w_files := w_files w; w_dirs := w_dirs w; w_trace := w_trace w ++ evs |}.

Definition emit (e : Event) : M unit := λ w, Ok tt (extend w [e]).

Definition console_warn (msg : string) : M unit := emit (Warn msg).
Definition console_log (msg : string) : M unit := emit (Log msg).

(** [fs.readFileSync(p)] throws when there is no such file. *)
Definition readFileSync (p : string) : M string :=
  λ w, match w_files w !! p with
       | Some c => Ok c (extend w [ReadFile p])
       | None => Throw "ENOENT" (extend w [ReadFile p])
       end.

(** [fs.writeFileSync(p, c)] and [fs.mkdirSync(p, { recursive: true })];
    failures of the environment (permissions, full disk) are not modelled. *)
Definition writeFileSync (p c : string) : M unit :=
  λ w, Ok tt {| w_files := <[p := c]> (w_files w); w_dirs := w_dirs w;
                w_trace := w_trace w ++ [WriteFile p c] |}.

Definition mkdirSync (p : string) : M unit :=
  λ w, Ok tt {| w_files := w_files w; w_dirs := {[p]} ∪ w_dirs w;
                w_trace := w_trace w ++ [Mkdir p] |}.

(** Events that only observe: reads and console output. *)
Definition passive (e : Event) : bool :=
  match e with
  | Warn _ | Log _ | ReadFile _ => true
  | Mkdir _ | WriteFile _ _ | AddSourceFile _ => false
  end.

(** What [JSON.parse] can return. *)
Inductive JsonValue :=
| JNull
| JBool (b : bool)
| JNumber (text : string)
| JString (s : string)
| JArray (items : list JsonValue)
| JObject (members : list (string * JsonValue)).

(** The library and runtime operations the generator calls: Node's [path],
    the directory part of [fs], [crypto], ts-morph's parser and its reading
    of the project's configuration file, [JSON], the text of a number beyond
    the safe integers ([numberText]), the upper-casing of one character
    outside ASCII ([upperCaseChar]), the regular expressions of the
    optimistic-update and route-file code, and [localeCompare].

    [readdirSync] is total: a listing that fails (the path is no directory,
    a permission is missing) is, like the failures of the writes, not
    modelled. *)
Record Runtime := {
  path_join : string → string → string;
  path_relative : string → string → string;
  path_dirname : string → string;
  path_resolve : string → string → string;
  path_sep : ascii;
  existsSync : gmap string string → gset string → string → bool;
  readdirSync : gmap string string → gset string → string → list string;
  md5_hex : string → string;
  parseSource : string → SourceFile;
  JSON_parse : string → option JsonValue;
  JSON_stringify : list (string * string) → string;
  tsconfig_error : string → option string;
  numberText : Z → string;
  upperCaseChar : string → string;
  match_target : string → option string;
  match_args : string → option string;
  match_args_multi : string → option string;
  match_update : string → option string;
  match_condition : string → option string;
  match_updates : string → option string;
  match_from : string → option string;
  localeCompare : string → string → Z;
}.

(** [parseInt(s, 10)]: skip leading white space, read an optional sign and
    the longest run of decimal digits; [None] stands for [NaN] (no digit).
    The result is the double of the integer read. *)
Definition digit_value (c : ascii) : option Z :=
  if Js.is_digit c then Some (Z.of_N (N_of_ascii c) - 48)%Z else None.

Fixpoint parse_digits (acc : option Z) (s : string) : option Z :=
  match s with
  | "" => acc
  | String c s' =>
      match digit_value c with
      | Some d => parse_digits (Some (10 * default 0 acc + d)%Z) s'
      | None => acc
      end
  end.

(** The double nearest to an integer, ties going to the even significand;
    a magnitude that rounds to 2^1024 or more becomes an infinity. *)
Definition toDouble (z : Z) : JsNumber :=
  let a := Z.abs z in
  if (a <? 2 ^ 53)%Z then Integer z
  else
    let e := (Z.log2 a - 52)%Z in
    let q := Z.shiftr a e in
    let r := Z.land a (Z.ones e) in
    let half := Z.shiftl 1 (e - 1) in
    let q := if (half <? r)%Z || ((r =? half)%Z && Z.odd q)
             then (q + 1)%Z else q in
    let m := Z.shiftl q e in
    if (2 ^ 1024 <=? m)%Z
    then if (z <? 0)%Z then MinusInfinity else Infinity
    else Integer (Z.sgn z * m).

Definition parseInt (s : string) : option JsNumber :=
  match Js.trimStart s with
  | String "-" s' => (λ n, toDouble (- n)) <$> parse_digits None s'
  | String "+" s' => toDouble <$> parse_digits None s'
  | s' => toDouble <$> parse_digits None s'
  end.

(** ** AST parsing *)

(** [prop.asKindOrThrow(SyntaxKind.PropertyAssignment).getInitializerOrThrow()]:
    a member of any other kind makes [asKindOrThrow] throw. *)
Definition initializerOrThrow (p : ObjectLiteralElement) : M Node :=
  match p with
  | PropertyAssignment _ init => mret init
  | _ => throw "Expected node to be of kind PropertyAssignment"
  end.

Definition endpointMethods : list string :=
  ["get"; "post"; "put"; "patch"; "delete"].

(** The loop over the call expressions: the first call whose callee is
    [endpoint.<method>]. *)
Fixpoint findEndpointCall (calls : list CallExpression)
  : option (CallExpression * string) :=
  match calls with
  | [] => None
  | call :: rest =>
      match callee call with
      | PropertyAccessExpression objectText methodName =>
          if bool_decide (objectText = "endpoint")
             && bool_decide (methodName ∈ endpointMethods)
          then Some (call, methodName)
          else findEndpointCall rest
      | OtherCallee => findEndpointCall rest
      end
  end.

(** The retry count is kept when [parseInt] gives a number above zero. *)
Definition retainedRetries (val : option JsNumber) : option JsNumber :=
  match val with
  | Some v => if isPositive v then Some v else None
  | None => None
  end.

Definition addToMapSet (map : list (string * list string)) (key value : string)
  : list (string * list string) :=
  let map := if Js.map_has map key then map else Js.map_set map key [] in
  Js.map_set map key (Js.set_add (default [] (Js.map_get map key)) value).

Section generator.
Context (rt : Runtime).

Definition resolveToAlias (moduleSpecifier fromFile : string)
    (config : ResolvedConfig) : string :=
  if Js.startsWith moduleSpecifier (pathAlias config +:+ "/")
  then moduleSpecifier
  else
    let dir := path_dirname rt fromFile in
    let resolved := path_resolve rt dir moduleSpecifier in
    if Js.startsWith resolved (aliasRoot config)
    then pathAlias config +:+ "/" +:+
         Js.replace_ts_ext (path_relative rt (aliasRoot config) resolved)
    else moduleSpecifier.

(** The state of the loop over the import declarations: the import map and
    the import paths of the response and args types. *)
Definition ImportState : Type :=
  list (string * list string) * option string * option string.

Definition resolveNamedImport (responseType argsType absPath : string)
    (config : ResolvedConfig) (moduleSpecifier : string)
    (st : ImportState) (importName : string) : ImportState :=
  let aliasPath := resolveToAlias moduleSpecifier absPath config in
  let '(typeImports, responseTypeImport, argsTypeImport) := st in
  let '(typeImports, responseTypeImport) :=
    if Js.includes responseType importName
    then (addToMapSet typeImports aliasPath importName, Some aliasPath)
    else (typeImports, responseTypeImport) in
  let '(typeImports, argsTypeImport) :=
    if Js.includes argsType importName
    then (addToMapSet typeImports aliasPath importName, Some aliasPath)
    else (typeImports, argsTypeImport) in
  (typeImports, responseTypeImport, argsTypeImport).

Definition resolveTypeImports (responseType argsType absPath : string)
    (config : ResolvedConfig) (decls : list ImportDeclaration)
  : ImportState :=
  foldl (λ st importDecl,
           foldl (resolveNamedImport responseType argsType absPath config
                    (moduleSpecifierValue importDecl))
                 st (namedImports importDecl))
        ([], None, None) decls.

(** The text of the initializer of an optional property. *)
Definition initializerText (prop : option ObjectLiteralElement)
  : M (option string) :=
  match prop with
  | Some p => init ← initializerOrThrow p; mret (Some (getText init))
  | None => mret None
  end.

(** The block that reads [tags.provides] and [tags.invalidates]: their
    initializer texts when [tags] is itself an object literal. *)
Definition extractTags (configObj : list ObjectLiteralElement)
  : M (option string * option string) :=
  match getProperty configObj "tags" with
  | Some tagsProp =>
      tagsObj ← initializerOrThrow tagsProp;
      match tagsObj with
      | ObjectLiteralExpression _ tagsObjLit =>
          provides ← initializerText (getProperty tagsObjLit "provides");
          invalidates ← initializerText (getProperty tagsObjLit "invalidates");
          mret (provides, invalidates)
      | OtherExpression _ => mret (None, None)
      end
  | None => mret (None, None)
  end.

(** The body of [parseEndpointFile] once the source file is loaded. *)
Definition parseSourceFile (sourceFile : SourceFile)
    (filePath absPath : string) (config : ResolvedConfig)
  : M (option ParsedEndpoint) :=
  if negb (defaultExportSymbol sourceFile) then
    console_warn ("ERTK: No default export in " +:+ filePath +:+ ", skipping");;
    mret None
  else
  match findEndpointCall (callExpressions sourceFile) with
  | None =>
      console_warn ("ERTK: No endpoint.{method}() call found in " +:+
                    filePath +:+ ", skipping");;
      mret None
  | Some (endpointCall, method) =>
  let responseType := default "unknown" (typeArguments endpointCall !! 0%nat) in
  let argsType := default "void" (typeArguments endpointCall !! 1%nat) in
  match arguments endpointCall !! 0%nat with
  | Some (ObjectLiteralExpression _ configObj) =>
      nameText ← initializerText (getProperty configObj "name");
      let name := default "" (Js.remove_quotes <$> nameText) in
      if decide (name = "") then
        console_warn ("ERTK: No name property in " +:+ filePath +:+ ", skipping");;
        mret None
      else
      protectedText ← initializerText (getProperty configObj "protected");
      let isProtected :=
        default true ((λ t, bool_decide (t ≠ "false")) <$> protectedText) in
      let hasRequest := bool_decide (is_Some (getProperty configObj "request")) in
      let hasHandler := bool_decide (is_Some (getProperty configObj "handler")) in
      queryText ← initializerText (getProperty configObj "query");
      let queryFnSource := default "" queryText in
      tags ← extractTags configObj;
      let '(providesTagsSource, invalidatesTagsSource) := tags in
      optimisticSource ← initializerText (getProperty configObj "optimistic");
      retriesText ← initializerText (getProperty configObj "maxRetries");
      let maxRetries := retriesText ≫= (λ t, retainedRetries (parseInt t)) in
      let routePath := deriveRoutePath filePath config in
      let endpointType := if decide (method = "get") then query else mutation in
      let '(typeImports, responseTypeImport, argsTypeImport) :=
        resolveTypeImports responseType argsType absPath config
                           (importDeclarations sourceFile) in
      let endpointsRelative :=
        path_relative rt (aliasRoot config) (endpointsDir config) in
      let importPath :=
        pathAlias config +:+ "/" +:+ endpointsRelative +:+ "/" +:+
        Js.replace_ts_ext filePath in
      mret (Some {|
        name := name;
        method := method;
        filePath := filePath;
        importPath := importPath;
        routePath := routePath;
        isProtected := isProtected;
        hasRequest := hasRequest;
        hasHandler := hasHandler;
        responseType := responseType;
        responseTypeImport := responseTypeImport;
        argsType := argsType;
        argsTypeImport := argsTypeImport;
        queryFnSource := queryFnSource;
        endpointType := endpointType;
        providesTagsSource := providesTagsSource;
        invalidatesTagsSource := invalidatesTagsSource;
        optimisticSource := optimisticSource;
        maxRetries := maxRetries;
        typeImports := typeImports;
      |})
  | _ =>
      console_warn ("ERTK: Config argument not found in " +:+ filePath +:+
                    ", skipping");;
      mret None
  end
  end.

(** [project.addSourceFileAtPath(p)] reads and parses the file and throws
    when it does not exist. *)
Definition addSourceFileAtPath (p : string) : M SourceFile :=
  emit (AddSourceFile p);;
  content ← readFileSync p;
  mret (parseSource rt content).

Definition parseEndpointFile (filePath : string) (config : ResolvedConfig)
  : M (option ParsedEndpoint) :=
  let absPath := path_join rt (endpointsDir config) filePath in
  sourceFile ← addSourceFileAtPath absPath;
  parseSourceFile sourceFile filePath absPath config.

End generator.

(** ** Text pieces of the generated code *)

(** The double quote, the tab and the line feed. *)
Definition dq : string := String "034"%char "".
Definition tab : string := String "009"%char "".
Definition nl : string := String "010"%char "".

Definition quoted (s : string) : string := dq +:+ s +:+ dq.

Fixpoint tabs (n : nat) : string :=
  match n with
  | O => ""
  | S n' => tab +:+ tabs n'
  end.

(** A number in a template string: the decimal digits of a safe integer,
    the text the runtime gives for a larger one (rounded digits, and the
    exponent form from 1e21 on), and the name of an infinity. *)
Definition numberToString (rt : Runtime) (v : JsNumber) : string :=
  match v with
  | Integer z => if (Z.abs z <? 2 ^ 53)%Z then pretty z else numberText rt z
  | Infinity => "Infinity"
  | MinusInfinity => "-Infinity"
  end.

(** A string is truthy when it is not empty, [null] is falsy. *)
Definition truthy (s : option string) : option string :=
  match s with
  | Some t => if decide (t = "") then None else Some t
  | None => None
  end.

(** ** Tag types *)

(** The matches of the pattern of [extractTagTypes] (a quote, one or more
    word characters, a quote; global), as their first groups, from left to
    right.  [st] is [Some acc] after an opening quote followed by the word
    characters [acc].  A match consumes its closing quote; an opening quote
    that is followed directly by a quote fails and the second one is tried as
    the opening quote. *)
Fixpoint quotedTokens (st : option string) (s : string) : list string :=
  match s with
  | "" => []
  | String c s' =>
      match st with
      | None => quotedTokens (if Js.is_quote c then Some "" else None) s'
      | Some acc =>
          if Js.is_word c then quotedTokens (Some (acc +:+ String c "")) s'
          else if Js.is_quote c then
            if decide (acc = "") then quotedTokens (Some "") s'
            else acc :: quotedTokens None s'
          else quotedTokens None s'
      end
  end.

(** [m[1][0] === m[1][0].toUpperCase()] *)
Definition firstIsUpperCased (token : string) : bool :=
  match token with
  | "" => true
  | String c _ => bool_decide (c = Js.upper_char c)
  end.

Definition extractTagTypes (source : option string) (tags : list string)
  : list string :=
  match truthy source with
  | None => tags
  | Some source =>
      foldl (λ tags m, if firstIsUpperCased m then Js.set_add tags m else tags)
            tags (quotedTokens None source)
  end.

(** [s.charAt(0).toUpperCase() + s.slice(1)]: an ASCII character is
    upper-cased in place; a character of two or three bytes is one code unit,
    upper-cased by the runtime; of a character of four bytes the first code
    unit is a surrogate, which upper-casing leaves alone. *)
Definition capitalize (rt : Runtime) (s : string) : string :=
  match s with
  | "" => ""
  | String c s' =>
      let b := N_of_ascii c in
      if (b <? 128)%N then String (Js.upper_char c) s'
      else if (b <? 240)%N then
        let n := if (b <? 224)%N then 2 else 3 in
        upperCaseChar rt (String.substring 0 n s) +:+
        String.substring n (String.length s - n) s
      else s
  end.

(** ** Route grouping *)

Section grouping.
Context (rt : Runtime).

Definition groupStep (routesCfg : RoutesConfig)
    (groups : list (string * RouteGroup)) (ep : ParsedEndpoint)
  : list (string * RouteGroup) :=
  if negb (hasHandler ep) then groups
  else
    let groups :=
      if Js.map_has groups (routePath ep) then groups
      else
        let appRouteDir :=
          path_join rt (dir routesCfg) (Js.replace_api_prefix (routePath ep)) in
        Js.map_set groups (routePath ep)
          {| rg_routePath := routePath ep;
             appRouteDir := appRouteDir;
             methods := [] |} in
    let httpMethod := Js.toUpperCase (method ep) in
    match Js.map_get groups (routePath ep) with
    | Some g =>
        Js.map_set groups (routePath ep)
          {| rg_routePath := rg_routePath g;
             appRouteDir := appRouteDir g;
             methods := Js.map_set (methods g) httpMethod ep |}
    | None => groups
    end.

Definition groupEndpointsByRoute (endpoints : list ParsedEndpoint)
    (config : ResolvedConfig) : list (string * RouteGroup) :=
  match routes config with
  | None => []
  | Some routesCfg => foldl (groupStep routesCfg) [] endpoints
  end.

End grouping.

(** ** Code generation *)

Definition hasRetries (ep : ParsedEndpoint) : bool :=
  match maxRetries ep with
  | Some n => isPositive n
  | None => false
  end.

(** The tokenizer of [extractUpdatesArray]: the brace-depth counter goes up
    on an opening brace, down on a closing one, and an element ends each
    time the depth is back at zero. *)
Fixpoint splitUpdates (depth : Z) (current content : string) : list string :=
  match content with
  | "" => []
  | String char rest =>
      if decide (char = "{"%char) then
        splitUpdates (depth + 1) (current +:+ String char "") rest
      else if decide (char = "}"%char) then
        let depth := (depth - 1)%Z in
        let current := current +:+ String char "" in
        if decide (depth = 0%Z)
        then Js.trim current :: splitUpdates depth "" rest
        else splitUpdates depth current rest
      else if bool_decide (0 < depth)%Z then
        splitUpdates depth (current +:+ String char "") rest
      else splitUpdates depth current rest
  end.

(** The line that carries the retry count of an endpoint. *)
Definition extraOptionsLine (rt : Runtime) (n : JsNumber) : string :=
  tabs 3 +:+ "extraOptions: { maxRetries: " +:+ numberToString rt n +:+ " },".

Section codegen.
Context (rt : Runtime).

Definition extractUpdatesArray (source : string) : option (list string) :=
  match match_updates rt source with
  | None => None
  | Some content =>
      let updates := splitUpdates 0 "" content in
      if decide (updates = []) then None else Some updates
  end.

Definition patchCall (indent : nat) (target argsFn updateFn : string)
  : list string :=
  [ tabs indent +:+ "api.util.updateQueryData(" +:+ quoted target +:+ ", (" +:+
      argsFn +:+ ")(params), (draft) => {";
    tabs (S indent) +:+ "(" +:+ updateFn +:+ ")(draft, params);";
    tabs indent +:+ "}),"
  ].

Definition generateUpdate (update : string) : list string :=
  match match_target rt update, match_args_multi rt update,
        match_update rt update with
  | Some target, Some argsMatch, Some updateMatch =>
      let argsFn := Js.trim argsMatch in
      let updateFn := Js.trim updateMatch in
      match match_condition rt update with
      | Some conditionMatch =>
          let conditionFn := Js.trim conditionMatch in
          [ tabs 4 +:+ "if ((" +:+ conditionFn +:+ ")(params)) {";
            tabs 5 +:+ "patches.push(";
            tabs 6 +:+ "dispatch(" ] ++
          patchCall 7 target argsFn updateFn ++
          [ tabs 6 +:+ "),";
            tabs 5 +:+ ");";
            tabs 4 +:+ "}" ]
      | None =>
          [ tabs 4 +:+ "patches.push(";
            tabs 5 +:+ "dispatch(" ] ++
          patchCall 6 target argsFn updateFn ++
          [ tabs 5 +:+ "),";
            tabs 4 +:+ ");" ]
      end
  | _, _, _ => []
  end.

Definition generateOnQueryStarted (ep : ParsedEndpoint)
  : option (list string) :=
  match truthy (optimisticSource ep) with
  | None => None
  | Some source =>
      let isSingle := Js.includes source "target:" in
      let isMulti := Js.includes source "updates:" in
      let lines :=
        if isSingle && negb isMulti then
          match match_target rt source, match_args rt source,
                match_update rt source with
          | Some target, Some argsMatch, Some updateMatch =>
              let argsFn := Js.trim argsMatch in
              let updateFn := Js.trim updateMatch in
              [ tabs 3 +:+
                  "async onQueryStarted(params, { dispatch, queryFulfilled }) {";
                tabs 4 +:+ "const patchResult = dispatch(" ] ++
              patchCall 5 target argsFn updateFn ++
              [ tabs 4 +:+ ");";
                tabs 4 +:+
                  "try { await queryFulfilled; } catch { patchResult.undo(); }";
                tabs 3 +:+ "}," ]
          | _, _, _ => []
          end
        else if isMulti then
          [ tabs 3 +:+
              "async onQueryStarted(params, { dispatch, queryFulfilled }) {";
            tabs 4 +:+ "const patches: Array<{ undo: () => void }> = [];" ] ++
          match extractUpdatesArray source with
          | Some updatesContent => concat (generateUpdate <$> updatesContent)
          | None => []
          end ++
          [ tabs 4 +:+
              "try { await queryFulfilled; } catch { for (const p of patches) p.undo(); }";
            tabs 3 +:+ "}," ]
        else [] in
      if decide (lines = []) then None else Some lines
  end.

Definition generateEndpointDef (ep : ParsedEndpoint) : list string :=
  let builderType :=
    match endpointType ep with
    | query => "builder.query"
    | mutation => "builder.mutation"
    end in
  [ tabs 2 +:+ name ep +:+ ": " +:+ builderType +:+ "<" +:+ responseType ep +:+
      ", " +:+ argsType ep +:+ ">({" ] ++
  (if decide (queryFnSource ep = "") then []
   else [ tabs 3 +:+ "query: " +:+ queryFnSource ep +:+ "," ]) ++
  match truthy (providesTagsSource ep) with
  | Some src => [ tabs 3 +:+ "providesTags: " +:+ src +:+ "," ]
  | None => []
  end ++
  match truthy (invalidatesTagsSource ep) with
  | Some src => [ tabs 3 +:+ "invalidatesTags: " +:+ src +:+ "," ]
  | None => []
  end ++
  match truthy (optimisticSource ep) with
  | Some _ => default [] (generateOnQueryStarted ep)
  | None => []
  end ++
  match maxRetries ep with
  | Some n => if isPositive n then [ extraOptionsLine rt n ] else []
  | None => []
  end ++
  [ tabs 2 +:+ "})," ].

(** The loop that merges the import maps of all endpoints. *)
Definition collectTypeImports (endpoints : list ParsedEndpoint)
  : list (string * list string) :=
  foldl (λ all ep,
           foldl (λ all '(importPath, types),
                    let all := if Js.map_has all importPath then all
                               else Js.map_set all importPath [] in
                    foldl (λ all t, Js.map_set all importPath
                             (Js.set_add (default [] (Js.map_get all importPath)) t))
                          all types)
                 all (typeImports ep))
        [] endpoints.

Definition collectTagTypes (endpoints : list ParsedEndpoint) : list string :=
  foldl (λ tagTypes ep,
           extractTagTypes (invalidatesTagsSource ep)
             (extractTagTypes (providesTagsSource ep) tagTypes))
        [] endpoints.

(** The default sort of the entries compares their string conversions:
    the import path, a comma and the text a set converts to. *)
Definition entrySortKey (e : string * list string) : string :=
  e.1 +:+ ",[object Set]".

Definition sortEntries (entries : list (string * list string))
  : list (string * list string) :=
  Js.sort_by (λ a b, bool_decide (Js.codeUnitLe (entrySortKey a)
                                                  (entrySortKey b)))
             entries.

Definition rtkImport : string := quoted "@reduxjs/toolkit/query/react".

Definition retryImportLine : string :=
  "import { createApi, fetchBaseQuery, retry } from " +:+ rtkImport +:+ ";".

Definition plainImportLine : string :=
  "import { createApi, fetchBaseQuery } from " +:+ rtkImport +:+ ";".

Definition fetchBaseQueryCall (config : ResolvedConfig) : string :=
  "fetchBaseQuery({ baseUrl: " +:+ quoted (baseUrl config) +:+ " })".

Definition baseQueryLine (hasAnyRetries : bool) (config : ResolvedConfig)
  : string :=
  if hasAnyRetries then
    match truthy (baseQuery config) with
    | Some bq => tab +:+ "baseQuery: retry(" +:+ bq +:+ ", { maxRetries: 0 }),"
    | None => tab +:+ "baseQuery: retry(" +:+ fetchBaseQueryCall config +:+
              ", { maxRetries: 0 }),"
    end
  else
    match truthy (baseQuery config) with
    | Some bq => tab +:+ "baseQuery: " +:+ bq +:+ ","
    | None => tab +:+ "baseQuery: " +:+ fetchBaseQueryCall config +:+ ","
    end.

Definition hookName (ep : ParsedEndpoint) : string :=
  match endpointType ep with
  | query => "use" +:+ capitalize rt (name ep) +:+ "Query"
  | mutation => "use" +:+ capitalize rt (name ep) +:+ "Mutation"
  end.

Definition generateApiLines (endpoints : list ParsedEndpoint)
    (config : ResolvedConfig) : list string :=
  let allTypeImports := collectTypeImports endpoints in
  let tagTypes := collectTagTypes endpoints in
  let hasAnyRetries := existsb hasRetries endpoints in
  [ "// AUTO-GENERATED by ERTK codegen. Do not edit.";
    if hasAnyRetries then retryImportLine else plainImportLine ] ++
  ((λ '(importPath, types),
      "import type { " +:+ Js.join ", " (Js.sort types) +:+ " } from " +:+
      quoted importPath +:+ ";") <$> sortEntries allTypeImports) ++
  [ "";
    "export const api = createApi({";
    tab +:+ "reducerPath: " +:+ quoted "api" +:+ ",";
    baseQueryLine hasAnyRetries config;
    tab +:+ "tagTypes: [" +:+ Js.join ", " (quoted <$> Js.sort tagTypes) +:+ "],";
    tab +:+ "refetchOnFocus: false,";
    tab +:+ "refetchOnReconnect: true,";
    tab +:+ "endpoints: (builder) => ({" ] ++
  concat (generateEndpointDef <$> endpoints) ++
  [ tab +:+ "}),";
    "});";
    "";
    "export const {" ] ++
  ((λ ep, tab +:+ hookName ep +:+ ",") <$> endpoints) ++
  [ "} = api;" ].

Definition generateApiTs (endpoints : list ParsedEndpoint)
    (config : ResolvedConfig) : string :=
  Js.join nl (generateApiLines endpoints config) +:+ nl.

Definition generateStoreTs : string :=
  Js.join nl
    [ "// AUTO-GENERATED by ERTK codegen. Do not edit.";
      "import { configureStore } from " +:+ quoted "@reduxjs/toolkit" +:+ ";";
      "import { api } from " +:+ quoted "./api" +:+ ";";
      "";
      "export const store = configureStore({";
      tab +:+ "reducer: {";
      tabs 2 +:+ "[api.reducerPath]: api.reducer,";
      tab +:+ "},";
      tab +:+ "middleware: (getDefaultMiddleware) =>";
      tabs 2 +:+ "getDefaultMiddleware().concat(api.middleware),";
      "});";
      "";
      "export type RootState = ReturnType<typeof store.getState>;";
      "export type AppDispatch = typeof store.dispatch;";
      "" ].

Definition generateInvalidationTs : string :=
  Js.join nl
    [ "// AUTO-GENERATED by ERTK codegen. Do not edit.";
      "import { api } from " +:+ quoted "./api" +:+ ";";
      "";
      "export function invalidateTags(";
      tab +:+ "...args: Parameters<typeof api.util.invalidateTags>";
      ") {";
      tab +:+ "return api.util.invalidateTags(...args);";
      "}";
      "";
      "export const updateQueryData = api.util.updateQueryData;";
      "" ].

(** The comparator of the import lines of a route file. *)
Definition importLineLe (a b : string) : bool :=
  let pathA := default "" (match_from rt a) in
  let pathB := default "" (match_from rt b) in
  bool_decide (localeCompare rt pathA pathB ≤ 0)%Z.

(** [config.routes!] is read without a test: on a configuration without
    routes the property access throws. *)
Definition generateRouteFile (group : RouteGroup) (config : ResolvedConfig)
  : M string :=
  match routes config with
  | None => throw "TypeError: Cannot read properties of null"
  | Some routesCfg =>
      let importLines :=
        ("import { createRouteHandler } from " +:+
           quoted (handlerModule routesCfg) +:+ ";") ::
        ((λ '(_, ep), "import " +:+ name ep +:+ "Endpoint from " +:+
                      quoted (importPath ep) +:+ ";") <$> methods group) in
      let lines :=
        [ "// AUTO-GENERATED by ERTK codegen. Do not edit." ] ++
        Js.sort_by importLineLe importLines ++
        [ "" ] ++
        ((λ '(method, ep), "export const " +:+ method +:+
                           " = createRouteHandler(" +:+ name ep +:+
                           "Endpoint);") <$> methods group) in
      mret (Js.join nl lines +:+ nl)
  end.

End codegen.

(** ** Incremental build helpers *)

(** [Object.keys] and property reads on a parsed JSON value: the own
    enumerable string-keyed properties.  [None] for [null], on which
    [Object.keys] throws. *)
Definition ownEntries (v : JsonValue) : option (list (string * JsonValue)) :=
  match v with
  | JNull => None
  | JBool _ | JNumber _ => Some []
  | JString s =>
      Some (imap (λ i c, (pretty i, JString (String c "")))
                 (String.list_ascii_of_string s))
  | JArray items => Some (imap (λ i x, (pretty i, x)) items)
  | JObject members => Some members
  end.

(** [x === y] on property values of two separately built objects: primitives
    compare by value, arrays and objects are never the same reference. *)
Definition strictEquals (x y : option JsonValue) : bool :=
  match x, y with
  | None, None => true
  | Some JNull, Some JNull => true
  | Some (JBool a), Some (JBool b) => bool_decide (a = b)
  | Some (JNumber a), Some (JNumber b) => bool_decide (a = b)
  | Some (JString a), Some (JString b) => bool_decide (a = b)
  | _, _ => false
  end.

(** A manifest built in memory, as a value. *)
Definition manifestValue (manifest : list (string * string)) : JsonValue :=
  JObject (prod_map id JString <$> manifest).

Definition objectKeys (v : JsonValue) : M (list (string * JsonValue)) :=
  match ownEntries v with
  | Some entries => mret entries
  | None => throw "TypeError: Cannot convert undefined or null to object"
  end.

(** The loop of [manifestsMatch] over the two sorted key arrays. *)
Fixpoint manifestsMatchLoop (a b : list (string * JsonValue))
    (keysA keysB : list string) : bool :=
  match keysA, keysB with
  | ka :: keysA', kb :: keysB' =>
      if negb (bool_decide (ka = kb)) then false
      else if negb (strictEquals (Js.map_get a ka) (Js.map_get b kb)) then false
      else manifestsMatchLoop a b keysA' keysB'
  | _, _ => true
  end.

Definition manifestsMatch (a b : JsonValue) : M bool :=
  ea ← objectKeys a;
  eb ← objectKeys b;
  let keysA := Js.sort (Js.map_keys ea) in
  let keysB := Js.sort (Js.map_keys eb) in
  if negb (bool_decide (length keysA = length keysB)) then mret false
  else mret (manifestsMatchLoop ea eb keysA keysB).

(** [for (const x of xs) { body }] with the loop state passed along. *)
Fixpoint forEachM {A S} (xs : list A) (body : S → A → M S) (s : S) : M S :=
  match xs with
  | [] => mret s
  | x :: xs' => s' ← body s x; forEachM xs' body s'
  end.

Section build.
Context (rt : Runtime).

(** The pure part of [scanEndpointFiles]: filter, normalise, sort. *)
Definition filterAndSort (allFiles : list string) : list string :=
  Js.sort (Js.replace_backslashes <$>
             filter (λ f, Is_true (Js.endsWith f ".ts")) allFiles).

Definition scanEndpointFiles (config : ResolvedConfig) : M (list string) :=
  λ w,
    if negb (existsSync rt (w_files w) (w_dirs w) (endpointsDir config))
    then Ok [] w
    else Ok (filterAndSort
               (readdirSync rt (w_files w) (w_dirs w) (endpointsDir config))) w.

Definition hashFile (filePath : string) : M string :=
  content ← readFileSync filePath;
  mret (md5_hex rt content).

Definition loadManifest (config : ResolvedConfig) : M JsonValue :=
  try_catch
    (content ← readFileSync (manifestPath config);
     match JSON_parse rt content with
     | Some v => mret v
     | None => throw "SyntaxError"
     end)
    (mret (JObject [])).

Definition saveManifest (manifest : list (string * string))
    (config : ResolvedConfig) : M unit :=
  writeFileSync (manifestPath config) (JSON_stringify rt manifest +:+ nl).

Definition buildManifest (files : list string) (config : ResolvedConfig)
  : M (list (string * string)) :=
  forEachM files
    (λ manifest file,
       hash ← hashFile (path_join rt (endpointsDir config) file);
       mret (Js.map_set manifest file hash))
    [].

Definition writeIfChanged (filePath content : string) : M bool :=
  same ← try_catch
           (existing ← readFileSync filePath;
            mret (bool_decide (existing = content)))
           (mret false);
  if (same : bool) then mret false
  else
    mkdirSync (path_dirname rt filePath);;
    writeFileSync filePath content;;
    mret true.

Definition isIgnoredRoute (routeDir : string) (config : ResolvedConfig)
  : bool :=
  match routes config with
  | None => true
  | Some routesCfg =>
      let relative := path_relative rt (dir routesCfg) routeDir in
      let topLevel := default "" (head (Js.split (path_sep rt) relative)) in
      Js.set_has (ignoredRoutes routesCfg) topLevel
  end.

(** ** The core generate function *)

Definition parseAllEndpoints (config : ResolvedConfig)
  : M (list (string * ParsedEndpoint)) :=
  files ← scanEndpointFiles config;
  forEachM files
    (λ cache file,
       parsed ← parseEndpointFile rt file config;
       match parsed with
       | Some parsed => mret (Js.map_set cache file parsed)
       | None => mret cache
       end)
    [].

Definition generate (endpoints : list ParsedEndpoint)
    (config : ResolvedConfig) : M nat :=
  mkdirSync (generatedDir config);;
  let apiContent := generateApiTs rt endpoints config in
  writeIfChanged (path_join rt (generatedDir config) "api.ts") apiContent;;
  writeIfChanged (path_join rt (generatedDir config) "store.ts")
                 generateStoreTs;;
  writeIfChanged (path_join rt (generatedDir config) "invalidation.ts")
                 generateInvalidationTs;;
  match routes config with
  | None => mret 0
  | Some _ =>
      let routeGroups := groupEndpointsByRoute rt endpoints config in
      forEachM routeGroups
        (λ routeCount '(_, group),
           if isIgnoredRoute (appRouteDir group) config then mret routeCount
           else
             routeContent ← generateRouteFile rt group config;
             writeIfChanged (path_join rt (appRouteDir group) "route.ts")
                            routeContent;;
             mret (S routeCount))
        0
  end.

(** ** Public API *)

(** The rest of [runGenerate] once the manifests differ: the full
    rebuild. *)
Definition rebuildAll (config : ResolvedConfig)
    (newManifest : list (string * string)) : M unit :=
  cache ← parseAllEndpoints config;
  routeCount ← generate (Js.map_values cache) config;
  saveManifest newManifest config;;
  let routeMsg :=
    match routes config with
    | Some _ => ", " +:+ pretty routeCount +:+ " routes"
    | None => ""
    end in
  console_log ("ERTK: Generated " +:+ pretty (length cache) +:+
               " endpoints" +:+ routeMsg +:+ ".").

(** [new Project({ tsConfigFilePath: path.join(config.root, "tsconfig.json"),
    skipAddingFilesFromTsConfig: true })]: the project reads its
    configuration file and throws when the file is not there or cannot be
    read as a configuration; it adds no source file. *)
Definition tsConfigFilePath (config : ResolvedConfig) : string :=
  path_join rt (root config) "tsconfig.json".

Definition newProject (config : ResolvedConfig) : M unit :=
  λ w,
    match w_files w !! tsConfigFilePath config with
    | Some text =>
        match tsconfig_error rt text with
        | None => Ok tt (extend w [ReadFile (tsConfigFilePath config)])
        | Some e => Throw e (extend w [ReadFile (tsConfigFilePath config)])
        end
    | None =>
        Throw "FileNotFoundError"
              (extend w [ReadFile (tsConfigFilePath config)])
    end.

(** The rest of [runGenerate] once the project is constructed. *)
Definition generateIfChanged (config : ResolvedConfig) : M unit :=
  files ← scanEndpointFiles config;
  if decide (files = []) then
    console_log "ERTK: No endpoint files found."
  else
    oldManifest ← loadManifest config;
    newManifest ← buildManifest files config;
    same ← manifestsMatch oldManifest (manifestValue newManifest);
    if (same : bool) then
      console_log "ERTK: Nothing changed."
    else
      rebuildAll config newManifest.

Definition runGenerate (config : ResolvedConfig) : M unit :=
  newProject config;;
  generateIfChanged config.

End build.

(** ** The route path as the specification words it

    Strip the extension, split into path segments, take the last segment as
    the candidate file name, keep the remaining segments, append the
    candidate only when it is not a CRUD file name, prefix with [/api/]. *)

Definition stripExtension (p : string) : string :=
  if Js.endsWith p ".ts"
  then String.substring 0 (String.length p - 3) p
  else p.

Definition specRoutePath (relativePath : string) (crud : list string)
  : string :=
  let segments := Js.split "/" (stripExtension relativePath) in
  let candidate := default "" (last segments) in
  let remaining := take (length segments - 1) segments in
  "/api/" +:+
  Js.join "/" (remaining ++
               if bool_decide (candidate ∈ crud) then [] else [candidate]).

(** A configuration with the defaults of [resolveConfig] for a project at
    [/p]. *)
Definition defaultConfig : ResolvedConfig := {|
  root := "/p";
  endpointsDir := "/p/src/endpoints";
  generatedDir := "/p/src/generated";
  manifestPath := "/p/src/generated/.ertk-manifest.json";
  pathAlias := "@app";
  aliasRoot := "/p/src";
  baseUrl := "/api";
  baseQuery := None;
  crudFilenames := DEFAULT_CRUD_FILENAMES;
  routes := None;
|}.

(** ** What a grouping answers *)

(** The descriptor a grouping serves the method [m] of the route [r] with. *)
Definition lookupMethod (groups : list (string * RouteGroup)) (r m : string)
  : option ParsedEndpoint :=
  g ← Js.map_get groups r; Js.map_get (methods g) m.

(** The descriptors that ask for the method [m] of the route [r]. *)
Definition claimsRoute (r m : string) (ep : ParsedEndpoint) : bool :=
  hasHandler ep && bool_decide (routePath ep = r)
  && bool_decide (Js.toUpperCase (method ep) = m).

(** What holds of every accumulator of the grouping loop: one group per
    route, filed under its own path, one entry per method. *)
Definition groupsWf (groups : list (string * RouteGroup)) : Prop :=
  NoDup (Js.map_keys groups) ∧
  ∀ r g, (r, g) ∈ groups →
         rg_routePath g = r ∧ NoDup (Js.map_keys (methods g)).

(** ** Words about tokens *)

Definition firstChar (t : string) : option ascii :=
  match t with
  | "" => None
  | String c _ => Some c
  end.

(** The first character is an upper-case letter. *)
Definition startsUpperCase (t : string) : bool :=
  match t with
  | "" => false
  | String c _ => Js.is_upper c
  end.

(** Every character is a word character. *)
Fixpoint allWord (t : string) : bool :=
  match t with
  | "" => true
  | String c t' => Js.is_word c && allWord t'
  end.

(** The first character is one that upper-casing leaves alone and that a
    token can start with: upper-case letter, digit or underscore. *)
Definition keptByUpperCasing (c : ascii) : bool :=
  Js.is_upper c || Js.is_digit c || bool_decide (c = "_"%char).

(** ** A small runtime and project, for concrete runs *)

Module Sample.

(** Posix paths that are already normal. *)
Definition join (a b : string) : string :=
  if decide (b = "") then a else a +:+ "/" +:+ b.

Definition relative (from to : string) : string :=
  if String.prefix (from +:+ "/") to
  then String.substring (S (String.length from))
                        (String.length to - S (String.length from)) to
  else if decide (from = to) then "" else to.

Definition dirname (p : string) : string :=
  match Js.pop (Js.split "/" p) with
  | Some (_, d) => Js.join "/" d
  | None => "."
  end.

(** The files below a directory, by their relative names. *)
Definition listing (fs : gmap string string) (ds : gset string) (d : string)
  : list string :=
  omap (λ p, if String.prefix (d +:+ "/") p then Some (relative d p) else None)
       (map_to_list fs).*1.

Definition dirExists (fs : gmap string string) (ds : gset string) (d : string)
  : bool :=
  bool_decide (d ∈ ds) || negb (bool_decide (listing fs ds d = [])).

(** Sample endpoint files hold a method and a name; the tree is the one of
    [export default endpoint.<method>({ name: '<name>', handler })] with
    the handler written out. *)
Definition parse (content : string) : SourceFile :=
  match Js.split " " content with
  | [m; n] =>
      {| defaultExportSymbol := true;
         callExpressions :=
           [ {| callee := PropertyAccessExpression "endpoint" m;
                typeArguments := [];
                arguments :=
                  [ ObjectLiteralExpression content
                      [ PropertyAssignment "name"
                          (OtherExpression ("'" +:+ n +:+ "'"));
                        PropertyAssignment "handler"
                          (OtherExpression "async () => []") ] ] |} ];
         importDeclarations := [] |}
  | _ =>
      {| defaultExportSymbol := false;
         callExpressions := [];
         importDeclarations := [] |}
  end.

(** A flat object of strings without escapes, printed and read back. *)
Definition stringify (m : list (string * string)) : string :=
  "{" +:+ Js.join "," ((λ '(k, v), quoted k +:+ ":" +:+ quoted v) <$> m) +:+ "}".

Fixpoint members (pieces : list string) : list (string * JsonValue) :=
  match pieces with
  | k :: _ :: v :: _ :: rest => (k, JString v) :: members rest
  | _ => []
  end.

Definition parseJson (s : string) : option JsonValue :=
  if Js.startsWith s "{"
  then Some (JObject (members (tail (Js.split "034" s))))
  else None.

(** A configuration file is read when it starts as an object does. *)
Definition configError (text : string) : option string :=
  if Js.startsWith (Js.trimStart text) "{" then None
  else Some "Error: '{' expected.".

(** [Number::toString] on the double [z] of an integer beyond the safe
    ones: the shortest run of digits [s], [k] of them, for which
    [s × 10^(n-k)] reads back as [z], the nearest to [z] when several do;
    printed as digits and zeros below 1e21 and in the exponent form from
    there on. *)
Definition readsBack (z v : Z) : bool :=
  match toDouble v with
  | Integer z' => bool_decide (z' = z)
  | _ => false
  end.

Definition candidate (a k n s : Z) : option (Z * Z * Z) :=
  let v := (s * 10 ^ (n - k))%Z in
  if bool_decide (10 ^ (k - 1) ≤ s < 10 ^ k)%Z && readsBack a v
  then Some (Z.abs (v - a), s, n) else None.

Definition nearer (x y : option (Z * Z * Z)) : option (Z * Z * Z) :=
  match x, y with
  | Some (dx, sx, nx), Some (dy, sy, ny) =>
      if (dx <? dy)%Z || ((dx =? dy)%Z && Z.even sx) then x else y
  | Some _, None => x
  | None, _ => y
  end.

Fixpoint shortestDigits (fuel : nat) (k a len : Z) : option (Z * Z) :=
  match fuel with
  | O => None
  | S fuel' =>
      let at_ n :=
        let s0 := (a / 10 ^ (n - k))%Z in
        nearer (candidate a k n s0) (candidate a k n (s0 + 1)) in
      match nearer (at_ len) (at_ (len + 1)%Z) with
      | Some (_, s, n) => Some (s, n)
      | None => shortestDigits fuel' (k + 1)%Z a len
      end
  end.

Fixpoint zeros (n : nat) : string :=
  match n with
  | O => ""
  | S n' => String "0" (zeros n')
  end.

Definition shortestText (z : Z) : string :=
  let a := Z.abs z in
  let len := String.length (pretty a) in
  match shortestDigits len 1 a (Z.of_nat len) with
  | Some (s, n) =>
      let ds := pretty s in
      let k := String.length ds in
      (if (z <? 0)%Z then "-" else "") +:+
      (if (n <=? 21)%Z then ds +:+ zeros (Z.to_nat n - k)
       else String.substring 0 1 ds +:+
            (if decide (k = 1) then ""
             else "." +:+ String.substring 1 (k - 1) ds) +:+
            "e+" +:+ pretty (n - 1)%Z)
  | None => pretty z
  end.

(** The upper-casing of the sample runtime knows the letters of Latin-1:
    the small letters from U+00E0 to U+00FE but the division sign go 32
    down, the sharp s becomes SS, y with diaeresis and the micro sign leave
    Latin-1; every other character is left as it is. *)
Definition upperCaseLatin1 (ch : string) : string :=
  match ch with
  | String "195" (String c "") =>
      let b := N_of_ascii c in
      if decide (b = 159%N) then "SS"
      else if decide (b = 191%N) then String "197" (String "184" "")
      else if ((160 <=? b) && (b <=? 190) && negb (b =? 183))%N
           then String "195" (String (ascii_of_N (b - 32)) "")
           else ch
  | String "194" (String "181" "") => String "206" (String "156" "")
  | _ => ch
  end.

Definition compareStrings (a b : string) : Z :=
  match String.compare a b with
  | Lt => -1
  | Eq => 0
  | Gt => 1
  end.

Definition runtime : Runtime := {|
  path_join := join;
  path_relative := relative;
  path_dirname := dirname;
  path_resolve := join;
  path_sep := "/";
  existsSync := dirExists;
  readdirSync := listing;
  md5_hex := λ c, "md5:" +:+ c;
  parseSource := parse;
  JSON_parse := parseJson;
  JSON_stringify := stringify;
  tsconfig_error := configError;
  numberText := shortestText;
  upperCaseChar := upperCaseLatin1;
  match_target := λ _, None;
  match_args := λ _, None;
  match_args_multi := λ _, None;
  match_update := λ _, None;
  match_condition := λ _, None;
  match_updates := λ _, None;
  match_from := λ _, None;
  localeCompare := compareStrings;
|}.

Definition config : ResolvedConfig := {|
  root := "/p";
  endpointsDir := "/p/src/endpoints";
  generatedDir := "/p/src/generated";
  manifestPath := "/p/src/generated/.ertk-manifest.json";
  pathAlias := "@app";
  aliasRoot := "/p/src";
  baseUrl := "/api";
  baseQuery := None;
  crudFilenames := DEFAULT_CRUD_FILENAMES;
  routes := Some {| dir := "/p/src/app/api";
                    handlerModule := "ertk/next";
                    ignoredRoutes := [] |};
|}.

(** A project with two endpoint files and nothing generated yet. *)
Definition project : World := {|
  w_files := {[ "/p/tsconfig.json" := "{}";
                "/p/src/endpoints/tasks/list.ts" := "get listTasks";
                "/p/src/endpoints/tasks/create.ts" := "post createTask" ]};
  w_dirs := ∅;
  w_trace := [];
|}.

(** A project without endpoint files but with the output of an earlier
    run. *)
Definition emptiedProject : World := {|
  w_files := {[ "/p/tsconfig.json" := "{}";
                "/p/src/generated/.ertk-manifest.json" := "{}";
                "/p/src/generated/api.ts" := "// old" ]};
  w_dirs := {[ "/p/src/endpoints" ]};
  w_trace := [];
|}.

(** [export default endpoint.get({ name: 'getTasks', maxRetries: 3 })] *)
Definition retryFile : SourceFile := {|
  defaultExportSymbol := true;
  callExpressions :=
    [ {| callee := PropertyAccessExpression "endpoint" "get";
         typeArguments := [];
         arguments :=
           [ ObjectLiteralExpression "{ name: 'getTasks', maxRetries: 3 }"
               [ PropertyAssignment "name" (OtherExpression "'getTasks'");
                 PropertyAssignment "maxRetries" (OtherExpression "3") ] ] |} ];
  importDeclarations := [];
|}.

(** The same with a retry count of 310 digits: a one and 309 zeros. *)
Definition hugeRetryFile : SourceFile := {|
  defaultExportSymbol := true;
  callExpressions :=
    [ {| callee := PropertyAccessExpression "endpoint" "get";
         typeArguments := [];
         arguments :=
           [ ObjectLiteralExpression
               ("{ name: 'getTasks', maxRetries: 1" +:+ zeros 309 +:+ " }")
               [ PropertyAssignment "name" (OtherExpression "'getTasks'");
                 PropertyAssignment "maxRetries"
                   (OtherExpression ("1" +:+ zeros 309)) ] ] |} ];
  importDeclarations := [];
|}.

(** [export default endpoint.get({ name, query() { return '/tasks'; } })]:
    the name in shorthand form. *)
Definition shorthandNameFile : SourceFile := {|
  defaultExportSymbol := true;
  callExpressions :=
    [ {| callee := PropertyAccessExpression "endpoint" "get";
         typeArguments := [];
         arguments :=
           [ ObjectLiteralExpression "{ name, query() { return '/tasks'; } }"
               [ ShorthandPropertyAssignment "name";
                 MethodDeclaration "query" ] ] |} ];
  importDeclarations := [];
|}.

(** [export default endpoint.get({ name: 'getTasks', query() { return '/tasks'; } })]:
    a well-typed endpoint whose query function is written as a method. *)
Definition methodQueryFile : SourceFile := {|
  defaultExportSymbol := true;
  callExpressions :=
    [ {| callee := PropertyAccessExpression "endpoint" "get";
         typeArguments := [];
         arguments :=
           [ ObjectLiteralExpression
               "{ name: 'getTasks', query() { return '/tasks'; } }"
               [ PropertyAssignment "name" (OtherExpression "'getTasks'");
                 MethodDeclaration "query" ] ] |} ];
  importDeclarations := [];
|}.

End Sample.

(** ** Well-formed members

    A member read through [initializerOrThrow] is harmless when it is absent
    or a property assignment. *)
Definition assignmentOrAbsent (props : list ObjectLiteralElement) (n : string)
  : Prop :=
  match getProperty props n with
  | None | Some (PropertyAssignment _ _) => True
  | Some _ => False
  end.

Definition recognisedAssignments (props : list ObjectLiteralElement) : Prop :=
  assignmentOrAbsent props "name" ∧ assignmentOrAbsent props "protected" ∧
  assignmentOrAbsent props "query" ∧ assignmentOrAbsent props "tags" ∧
  assignmentOrAbsent props "optimistic" ∧
  assignmentOrAbsent props "maxRetries" ∧
  ∀ pn t tprops,
    getProperty props "tags"
    = Some (PropertyAssignment pn (ObjectLiteralExpression t tprops)) →
    assignmentOrAbsent tprops "provides" ∧
    assignmentOrAbsent tprops "invalidates".

(** ** Telling the lines of the generated code apart *)

Definition charIs (i : nat) (c : ascii) (l : string) : bool :=
  match String.get i l with
  | Some c' => Ascii.eqb c' c
  | None => false
  end.

Fixpoint lastChar (s : string) : option ascii :=
  match s with
  | "" => None
  | String c s' =>
      match lastChar s' with
      | Some d => Some d
      | None => Some c
      end
  end.

Definition endsWithChar (c : ascii) (l : string) : bool :=
  match lastChar l with
  | Some d => Ascii.eqb d c
  | None => false
  end.

(** A line that starts like [import {]: the import of the toolkit. *)
Definition isImportLine (l : string) : bool :=
  charIs 0 "i" l && charIs 7 "{" l.

(** A line that starts with one tab and a [b]: the [baseQuery] line. *)
Definition isBaseQueryLine (l : string) : bool :=
  charIs 0 "009" l && charIs 1 "b" l.

(** A line with an [e] after three characters and a comma at the end, as
    the [extraOptions] line has. *)
Definition isExtraOptionsLine (l : string) : bool :=
  charIs 3 "e" l && endsWithChar "," l.

(** The transport expression of a configuration. *)
Definition baseTransport (config : ResolvedConfig) : string :=
  match truthy (baseQuery config) with
  | Some bq => bq
  | None => fetchBaseQueryCall config
  end.

(** The descriptor with the retry count taken away. *)
Definition withoutRetries (ep : ParsedEndpoint) : ParsedEndpoint := {|
  name := name ep;
  method := method ep;
  filePath := filePath ep;
  importPath := importPath ep;
  routePath := routePath ep;
  isProtected := isProtected ep;
  hasRequest := hasRequest ep;
  hasHandler := hasHandler ep;
  responseType := responseType ep;
  responseTypeImport := responseTypeImport ep;
  argsType := argsType ep;
  argsTypeImport := argsTypeImport ep;
  queryFnSource := queryFnSource ep;
  endpointType := endpointType ep;
  providesTagsSource := providesTagsSource ep;
  invalidatesTagsSource := invalidatesTagsSource ep;
  optimisticSource := optimisticSource ep;
  maxRetries := None;
  typeImports := typeImports ep;
|}.

(** Some descriptor carries a retry count above zero. *)
Definition anyRetries (endpoints : list ParsedEndpoint) : Prop :=
  ∃ ep n, ep ∈ endpoints ∧ maxRetries ep = Some n ∧ isPositive n = true.

(** What every line of an [onQueryStarted] block satisfies: it is none of
    the three kinds of line above. *)
Definition innerLine (l : string) : bool :=
  negb (charIs 3 "e" l) && negb (charIs 0 "i" l) && negb (charIs 1 "b" l).

(** ** What a run observes *)

(** The list [scanEndpointFiles] returns in a world. *)
Definition scannedFiles (rt : Runtime) (config : ResolvedConfig) (w : World)
  : list string :=
  if negb (existsSync rt (w_files w) (w_dirs w) (endpointsDir config)) then []
  else filterAndSort
         (readdirSync rt (w_files w) (w_dirs w) (endpointsDir config)).

(** The value [loadManifest] returns on a file system. *)
Definition loadedManifest (rt : Runtime) (config : ResolvedConfig)
    (fs : gmap string string) : JsonValue :=
  match fs !! manifestPath config with
  | Some content => default (JObject []) (JSON_parse rt content)
  | None => JObject []
  end.

(** The persisted manifest cannot be read, or does not parse. *)
Definition manifestCorrupt (rt : Runtime) (config : ResolvedConfig) (w : World)
  : Prop :=
  match w_files w !! manifestPath config with
  | Some content => JSON_parse rt content = None
  | None => True
  end.

(** Between two worlds no source file changed: the project's configuration
    file is the same, and the same endpoint files are found, with the same
    contents. *)
Definition sourcesUnchanged (rt : Runtime) (config : ResolvedConfig)
    (w0 w1 : World) : Prop :=
  w_files w1 !! tsConfigFilePath rt config
  = w_files w0 !! tsConfigFilePath rt config ∧
  scannedFiles rt config w1 = scannedFiles rt config w0 ∧
  ∀ f, f ∈ scannedFiles rt config w0 →
       w_files w1 !! path_join rt (endpointsDir config) f
       = w_files w0 !! path_join rt (endpointsDir config) f.

(** The project can be constructed: its configuration file is there and is
    read without an error. *)
Definition projectLoads (rt : Runtime) (config : ResolvedConfig) (w : World)
  : Prop :=
  ∃ text, w_files w !! tsConfigFilePath rt config = Some text ∧
          tsconfig_error rt text = None.

(** The same runtime with another enumeration of directories. *)
Definition withListing (rt : Runtime)
    (listing : gmap string string → gset string → string → list string)
  : Runtime := {|
  path_join := path_join rt;
  path_relative := path_relative rt;
  path_dirname := path_dirname rt;
  path_resolve := path_resolve rt;
  path_sep := path_sep rt;
  existsSync := existsSync rt;
  readdirSync := listing;
  md5_hex := md5_hex rt;
  parseSource := parseSource rt;
  JSON_parse := JSON_parse rt;
  JSON_stringify := JSON_stringify rt;
  tsconfig_error := tsconfig_error rt;
  numberText := numberText rt;
  upperCaseChar := upperCaseChar rt;
  match_target := match_target rt;
  match_args := match_args rt;
  match_args_multi := match_args_multi rt;
  match_update := match_update rt;
  match_condition := match_condition rt;
  match_updates := match_updates rt;
  match_from := match_from rt;
  localeCompare := localeCompare rt;
|}.

(** The initial build of the watch mode and the rebuild of the one-shot
    mode: extract everything, then generate. *)
Definition extractAndGenerate (rt : Runtime) (config : ResolvedConfig) : M nat :=
  cache ← parseAllEndpoints rt config;
  generate rt (Js.map_values cache) config.

(** The body of the loop of [buildManifest] and the reads the loop makes. *)
Definition manifestStep (rt : Runtime) (config : ResolvedConfig)
    (manifest : list (string * string)) (file : string)
  : M (list (string * string)) :=
  hash ← hashFile rt (path_join rt (endpointsDir config) file);
  mret (Js.map_set manifest file hash).

Definition manifestReads (rt : Runtime) (config : ResolvedConfig)
    (files : list string) : list Event :=
  (λ f, ReadFile (path_join rt (endpointsDir config) f)) <$> files.

(** ** More sample worlds *)

(** The sample project with a manifest that is not JSON. *)
Definition corruptProject : World := {|
  w_files := <[ "/p/src/generated/.ertk-manifest.json" := "<<<<<<< HEAD" ]>
               (w_files Sample.project);
  w_dirs := ∅;
  w_trace := [];
|}.

(** The world a first run on the sample project leaves. *)
Definition afterFirstRun : World :=
  match runGenerate Sample.runtime Sample.config Sample.project with
  | Ok _ w => w
  | Throw _ w => w
  end.

(** A path segment: a string without a slash. *)
Fixpoint noSlash (s : string) : bool :=
  match s with
  | "" => true
  | String c s' => negb (bool_decide (c = "/"%char)) && noSlash s'
  end.

(** ** Further notions for the remaining code *)

(** The string has no backslash. *)
Fixpoint noBackslash (s : string) : bool :=
  match s with
  | "" => true
  | String c s' => negb (bool_decide (c = "\"%char)) && noBackslash s'
  end.

(** The sample runtime with a JSON parser that also knows [null]. *)
Definition nullAwareRuntime : Runtime :=
  {| path_join := path_join Sample.runtime;
     path_relative := path_relative Sample.runtime;
     path_dirname := path_dirname Sample.runtime;
     path_resolve := path_resolve Sample.runtime;
     path_sep := path_sep Sample.runtime;
     existsSync := existsSync Sample.runtime;
     readdirSync := readdirSync Sample.runtime;
     md5_hex := md5_hex Sample.runtime;
     parseSource := parseSource Sample.runtime;
     JSON_parse := λ s, if decide (Js.trim s = "null") then Some JNull
                        else Sample.parseJson s;
     JSON_stringify := JSON_stringify Sample.runtime;
     tsconfig_error := tsconfig_error Sample.runtime;
     numberText := numberText Sample.runtime;
     upperCaseChar := upperCaseChar Sample.runtime;
     match_target := match_target Sample.runtime;
     match_args := match_args Sample.runtime;
     match_args_multi := match_args_multi Sample.runtime;
     match_update := match_update Sample.runtime;
     match_condition := match_condition Sample.runtime;
     match_updates := match_updates Sample.runtime;
     match_from := match_from Sample.runtime;
     localeCompare := localeCompare Sample.runtime |}.

(** The sample project with a manifest file that holds [null]. *)
Definition nullManifestProject : World := {|
  w_files := <[ "/p/src/generated/.ertk-manifest.json" := "null" ]>
               (w_files Sample.project);
  w_dirs := ∅;
  w_trace := [];
|}.

(** The sample project after a first run and an edit of one source file. *)
Definition editedProject : World := {|
  w_files := <[ "/p/src/endpoints/tasks/list.ts" := "get listAllTasks" ]>
               (w_files afterFirstRun);
  w_dirs := w_dirs afterFirstRun;
  w_trace := [];
|}.

(** ** The artifacts of a generation *)

Definition emptyWorld : World :=
  {| w_files := ∅; w_dirs := ∅; w_trace := [] |}.

(** The text of a route file (the empty text stands for the throw on a
    configuration without routes). *)
Definition routeFileText (rt : Runtime) (group : RouteGroup)
    (config : ResolvedConfig) : string :=
  match generateRouteFile rt group config emptyWorld with
  | Ok text _ => text
  | Throw _ _ => ""
  end.

(** Path and text of the route file of every group that is not ignored. *)
Definition routeArtifacts (rt : Runtime) (config : ResolvedConfig)
    (groups : list (string * RouteGroup)) : list (string * string) :=
  omap (λ '(_, group),
          if isIgnoredRoute rt (appRouteDir group) config then None
          else Some (path_join rt (appRouteDir group) "route.ts",
                     routeFileText rt group config))
       groups.

(** Path and text of everything [generate] hands to [writeIfChanged], in
    that order. *)
Definition artifacts (rt : Runtime) (endpoints : list ParsedEndpoint)
    (config : ResolvedConfig) : list (string * string) :=
  [ (path_join rt (generatedDir config) "api.ts",
     generateApiTs rt endpoints config);
    (path_join rt (generatedDir config) "store.ts", generateStoreTs);
    (path_join rt (generatedDir config) "invalidation.ts",
     generateInvalidationTs) ] ++
  match routes config with
  | None => []
  | Some _ => routeArtifacts rt config (groupEndpointsByRoute rt endpoints config)
  end.

(** The closing report of a rebuild by [runGenerate]: the size of the cache
    and, with a routes configuration, the number of route files handed to
    [writeIfChanged]. *)
Definition generatedReport (rt : Runtime) (config : ResolvedConfig)
    (cache : list (string * ParsedEndpoint)) : string :=
  "ERTK: Generated " +:+ pretty (length cache) +:+ " endpoints" +:+
  match routes config with
  | Some _ =>
      ", " +:+
      pretty (length (routeArtifacts rt config
                        (groupEndpointsByRoute rt (Js.map_values cache) config)))
      +:+ " routes"
  | None => ""
  end +:+ ".".

(** A file system with some texts stored, one after the other. *)
Definition storeAll (fs : gmap string string) (arts : list (string * string))
  : gmap string string :=
  foldl (λ fs art, <[art.1 := art.2]> fs) fs arts.

(** The world after [writeIfChanged] on one artifact, and on several. *)
Definition afterWrite (rt : Runtime) (w : World) (art : string * string)
  : World :=
  match writeIfChanged rt art.1 art.2 w with
  | Ok _ w' => w'
  | Throw _ w' => w'
  end.

Definition afterWrites (rt : Runtime) (arts : list (string * string))
    (w : World) : World :=
  foldl (afterWrite rt) w arts.

(** Events of a generation that finds everything in place: reads, and the
    making of directories. *)
Definition readOrMkdir (e : Event) : bool :=
  match e with
  | ReadFile _ | Mkdir _ => true
  | _ => false
  end.

(** The descriptors of the sample project and the sample project after one
    generation from them. *)
Definition sampleEndpoints : list ParsedEndpoint :=
  match parseAllEndpoints Sample.runtime Sample.config Sample.project with
  | Ok cache _ => Js.map_values cache
  | Throw _ _ => []
  end.

Definition afterGenerate : World :=
  match generate Sample.runtime sampleEndpoints Sample.config Sample.project with
  | Ok _ w => w
  | Throw _ w => w
  end.

(** ** Descriptors and the events of an extraction *)

(** What every descriptor extracted from [file] satisfies. *)
Definition descriptorOf (config : ResolvedConfig) (file : string)
    (ep : ParsedEndpoint) : Prop :=
  name ep ≠ "" ∧ method ep ∈ endpointMethods ∧
  filePath ep = file ∧ routePath ep = deriveRoutePath file config ∧
  (endpointType ep = query ↔ method ep = "get").

Definition skipWarning (reason file : string) : Event :=
  Warn ("ERTK: " +:+ reason +:+ file +:+ ", skipping").

(** The events of loading one endpoint file. *)
Definition loadEvents (rt : Runtime) (config : ResolvedConfig) (file : string)
  : list Event :=
  [AddSourceFile (path_join rt (endpointsDir config) file);
   ReadFile (path_join rt (endpointsDir config) file)].

Definition extractionEvent (e : Event) : bool :=
  match e with
  | AddSourceFile _ | ReadFile _ | Warn _ => true
  | _ => false
  end.

(** The body of the loop of [parseAllEndpoints]. *)
Definition parseStep (rt : Runtime) (config : ResolvedConfig)
    (cache : list (string * ParsedEndpoint)) (file : string)
  : M (list (string * ParsedEndpoint)) :=
  parsed ← parseEndpointFile rt file config;
  match parsed with
  | Some parsed => mret (Js.map_set cache file parsed)
  | None => mret cache
  end.

(** The world a computation leaves, returning or throwing. *)
Definition worldOf {A} (r : Res A) : World :=
  match r with
  | Ok _ w => w
  | Throw _ w => w
  end.

(** Events that change the file system. *)
Definition mutating (e : Event) : bool :=
  match e with
  | Mkdir _ | WriteFile _ _ => true
  | _ => false
  end.

(** ** Import maps *)

(** The import map [m] asks for the type [t] from the module [p]. *)
Definition importsType (m : list (string * list string)) (p t : string)
  : Prop :=
  ∃ types, Js.map_get m p = Some types ∧ t ∈ types.

(** A map of sets: no key twice, no member twice. *)
Definition mapOfSets (m : list (string * list string)) : Prop :=
  NoDup (Js.map_keys m) ∧ ∀ p types, (p, types) ∈ m → NoDup types.

(** The source texts of the tags of a descriptor that are looked at. *)
Definition tagSources (ep : ParsedEndpoint) : list string :=
  match truthy (providesTagsSource ep) with Some s => [s] | None => [] end ++
  match truthy (invalidatesTagsSource ep) with Some s => [s] | None => [] end.

(** An import declaration names something the type text [ty] contains. *)
Definition importsFor (ty : string) (decl : ImportDeclaration) : bool :=
  existsb (Js.includes ty) (namedImports decl).

(** Every group has its directory at its route and is not empty. *)
Definition groupDirs (rt : Runtime) (routesCfg : RoutesConfig)
    (groups : list (string * RouteGroup)) : Prop :=
  ∀ r g, (r, g) ∈ groups →
         appRouteDir g = path_join rt (dir routesCfg) (Js.replace_api_prefix r) ∧
         methods g ≠ [].

(** The path, relative to the endpoints directory, of the file [f].ts in the
    directory [dirs]. *)
Definition endpointPath (dirs : list string) (f : string) : string :=
  Js.join "/" (dirs ++ [f +:+ ".ts"]).

(** ** Brace blocks *)

(** A text without braces. *)
Fixpoint braceFree (s : string) : bool :=
  match s with
  | "" => true
  | String c s' =>
      negb (bool_decide (c = "{"%char)) && negb (bool_decide (c = "}"%char))
      && braceFree s'
  end.

(** From brace depth [depth], the text closes the block it is in with its
    last character and not before; from depth zero: the text is one block,
    an opening brace up to the closing brace that matches it. *)
Fixpoint closesBlock (depth : Z) (s : string) : bool :=
  match s with
  | "" => false
  | String c s' =>
      if decide (c = "{"%char) then closesBlock (depth + 1) s'
      else if decide (c = "}"%char) then
        if decide (depth - 1 = 0)%Z then bool_decide (s' = "")
        else bool_decide (0 < depth - 1)%Z && closesBlock (depth - 1) s'
      else bool_decide (0 < depth)%Z && closesBlock depth s'
  end.

(** Blocks with a brace-free text before each of them. *)
Fixpoint interleave (seps blocks : list string) : string :=
  match seps, blocks with
  | sep :: seps', block :: blocks' =>
      sep +:+ block +:+ interleave seps' blocks'
  | _, _ => ""
  end.

(** ** Watch mode *)

(** [map.delete(k)] and [delete obj[k]]. *)
Fixpoint mapDelete {V} (m : list (string * V)) (k : string)
  : list (string * V) :=
  match m with
  | [] => []
  | (k', v) :: m' => if decide (k' = k) then m' else (k', v) :: mapDelete m' k
  end.

(** The two objects the watcher keeps and mutates: the manifest and the
    cache of descriptors. *)
Record WatchState := {
  ws_manifest : list (string * string);
  ws_cache : list (string * ParsedEndpoint);
}.

(** The dash of the start-up message, in UTF-8. *)
Definition emDash : string :=
  String "226"%char (String "128"%char (String "148"%char "")).

(** [runWatch] up to the installation of the watcher: the initial full
    build. *)
Definition watchStart (rt : Runtime) (config : ResolvedConfig)
  : M WatchState :=
  newProject rt config;;
  cache ← parseAllEndpoints rt config;
  routeCount ← generate rt (Js.map_values cache) config;
  files ← scanEndpointFiles rt config;
  manifest ← buildManifest rt files config;
  saveManifest rt manifest config;;
  let routeMsg :=
    match routes config with
    | Some _ => ", " +:+ pretty routeCount +:+ " routes ready"
    | None => ""
    end in
  console_log ("ERTK: Watching " +:+ emDash +:+ " " +:+
               pretty (length cache) +:+ " endpoints" +:+ routeMsg +:+ ".");;
  mret {| ws_manifest := manifest; ws_cache := cache |}.

(** The end of the timer callback: regenerate from the cache and save the
    manifest. *)
Definition watchRegenerate (rt : Runtime) (config : ResolvedConfig)
    (st : WatchState) (w : World) : WatchState * Res unit :=
  (st, (generate rt (Js.map_values (ws_cache st)) config;;
        saveManifest rt (ws_manifest st) config) w).

(** The timer callback for the file name [filename].  The manifest and the
    cache are objects changed in place, so the state is returned beside the
    outcome: what was changed before an exception stays changed.
    Forgetting the source file makes the project read the file again. *)
Definition watchFire (rt : Runtime) (config : ResolvedConfig)
    (filename : string) (st : WatchState) (w : World)
  : WatchState * Res unit :=
  let relPath := Js.replace_backslashes filename in
  let fullPath := path_join rt (endpointsDir config) relPath in
  if existsSync rt (w_files w) (w_dirs w) fullPath then
    match hashFile rt fullPath w with
    | Throw e w1 => (st, Throw e w1)
    | Ok hash w1 =>
        if decide (Js.map_get (ws_manifest st) relPath = Some hash)
        then (st, Ok tt w1)
        else
          let manifest := Js.map_set (ws_manifest st) relPath hash in
          match parseEndpointFile rt relPath config w1 with
          | Throw e w2 =>
              ({| ws_manifest := manifest; ws_cache := ws_cache st |},
               Throw e w2)
          | Ok (Some parsed) w2 =>
              watchRegenerate rt config
                {| ws_manifest := manifest;
                   ws_cache := Js.map_set (ws_cache st) relPath parsed |}
                (extend w2 [Log ("ERTK: Updated " +:+ name parsed)])
          | Ok None w2 =>
              watchRegenerate rt config
                {| ws_manifest := manifest; ws_cache := ws_cache st |} w2
          end
    end
  else
    watchRegenerate rt config
      {| ws_manifest := mapDelete (ws_manifest st) relPath;
         ws_cache := mapDelete (ws_cache st) relPath |}
      (extend w [Log ("ERTK: Removed " +:+ relPath)]).

(** The watcher: the pending timer, if any, with the file name it was set
    for, and the state. *)
Record Watcher := {
  wt_timer : option string;
  wt_state : WatchState;
}.

(** What happens to a watcher: the file system reports a change (with a
    file name or without), or the pending timer fires. *)
Inductive WatchStep :=
| FsEvent (filename : option string)
| TimerFires.

(** [!filename?.endsWith(".ts")] is false. *)
Definition watched (filename : option string) : bool :=
  match filename with
  | Some f => Js.endsWith f ".ts"
  | None => false
  end.

(** One step of the watcher.  An event for a watched name replaces the
    pending timer; any other event returns before it touches the timer. *)
Definition watchStep (rt : Runtime) (config : ResolvedConfig)
    (step : WatchStep) (wt : Watcher) (w : World) : Watcher * Res unit :=
  match step with
  | FsEvent filename =>
      if watched filename
      then ({| wt_timer := filename; wt_state := wt_state wt |}, Ok tt w)
      else (wt, Ok tt w)
  | TimerFires =>
      match wt_timer wt with
      | Some filename =>
          let '(st, r) := watchFire rt config filename (wt_state wt) w in
          ({| wt_timer := None; wt_state := st |}, r)
      | None => (wt, Ok tt w)
      end
  end.

(** Steps one after the other, as long as none throws. *)
Fixpoint watchRun (rt : Runtime) (config : ResolvedConfig)
    (steps : list WatchStep) (wt : Watcher) (w : World)
  : Watcher * Res unit :=
  match steps with
  | [] => (wt, Ok tt w)
  | step :: steps' =>
      match watchStep rt config step wt w with
      | (wt', Ok _ w') => watchRun rt config steps' wt' w'
      | (wt', Throw e w') => (wt', Throw e w')
      end
  end.

(** The file system after regenerating from a watch state: the artifacts of
    the cached descriptors and then the manifest stored. *)
Definition regenerated (rt : Runtime) (config : ResolvedConfig)
    (st : WatchState) (fs : gmap string string) : gmap string string :=
  <[manifestPath config := JSON_stringify rt (ws_manifest st) +:+ nl]>
    (storeAll fs (artifacts rt (Js.map_values (ws_cache st)) config)).

(** The sample runtime with an [existsSync] that also knows files. *)
Definition watchRuntime : Runtime :=
  {| path_join := path_join Sample.runtime;
     path_relative := path_relative Sample.runtime;
     path_dirname := path_dirname Sample.runtime;
     path_resolve := path_resolve Sample.runtime;
     path_sep := path_sep Sample.runtime;
     existsSync := λ fs ds p,
       bool_decide (is_Some (fs !! p)) || Sample.dirExists fs ds p;
     readdirSync := readdirSync Sample.runtime;
     md5_hex := md5_hex Sample.runtime;
     parseSource := parseSource Sample.runtime;
     JSON_parse := JSON_parse Sample.runtime;
     JSON_stringify := JSON_stringify Sample.runtime;
     tsconfig_error := tsconfig_error Sample.runtime;
     numberText := numberText Sample.runtime;
     upperCaseChar := upperCaseChar Sample.runtime;
     match_target := match_target Sample.runtime;
     match_args := match_args Sample.runtime;
     match_args_multi := match_args_multi Sample.runtime;
     match_update := match_update Sample.runtime;
     match_condition := match_condition Sample.runtime;
     match_updates := match_updates Sample.runtime;
     match_from := match_from Sample.runtime;
     localeCompare := localeCompare Sample.runtime |}.

(** The watcher of the sample project after its initial build, and the
    project then; the project with one source file edited, and with it
    deleted. *)
Definition watchStarted : WatchState * World :=
  match watchStart watchRuntime Sample.config Sample.project with
  | Ok st w => (st, w)
  | Throw _ w => ({| ws_manifest := []; ws_cache := [] |}, w)
  end.

Definition watchEdited : World := {|
  w_files := <[ "/p/src/endpoints/tasks/list.ts" := "get listAllTasks" ]>
               (w_files watchStarted.2);
  w_dirs := w_dirs watchStarted.2;
  w_trace := [];
|}.

Definition watchDeleted : World := {|
  w_files := delete "/p/src/endpoints/tasks/list.ts" (w_files watchStarted.2);
  w_dirs := w_dirs watchStarted.2;
  w_trace := [];
|}.

(** ** Decimal digits *)

Fixpoint allDigits (s : string) : bool :=
  match s with
  | "" => true
  | String c s' => Js.is_digit c && allDigits s'
  end.

(** A JSON value that is neither an object nor [null]: its own keys, if it
    has any, are indices. *)
Definition indexKeyed (v : JsonValue) : bool :=
  match v with
  | JBool _ | JNumber _ | JString _ | JArray _ => true
  | JNull | JObject _ => false
  end.

(** The sample runtime with a JSON parser that also knows arrays of
    strings without commas or escapes, and the sample project with a
    manifest file that holds such an array. *)
Definition arrayAwareRuntime : Runtime :=
  {| path_join := path_join Sample.runtime;
     path_relative := path_relative Sample.runtime;
     path_dirname := path_dirname Sample.runtime;
     path_resolve := path_resolve Sample.runtime;
     path_sep := path_sep Sample.runtime;
     existsSync := existsSync Sample.runtime;
     readdirSync := readdirSync Sample.runtime;
     md5_hex := md5_hex Sample.runtime;
     parseSource := parseSource Sample.runtime;
     JSON_parse := λ s,
       if decide (s = "[true, false]")
       then Some (JArray [JBool true; JBool false])
       else Sample.parseJson s;
     JSON_stringify := JSON_stringify Sample.runtime;
     tsconfig_error := tsconfig_error Sample.runtime;
     numberText := numberText Sample.runtime;
     upperCaseChar := upperCaseChar Sample.runtime;
     match_target := match_target Sample.runtime;
     match_args := match_args Sample.runtime;
     match_args_multi := match_args_multi Sample.runtime;
     match_update := match_update Sample.runtime;
     match_condition := match_condition Sample.runtime;
     match_updates := match_updates Sample.runtime;
     match_from := match_from Sample.runtime;
     localeCompare := localeCompare Sample.runtime |}.

Definition arrayManifestProject : World := {|
  w_files := <[ "/p/src/generated/.ertk-manifest.json" := "[true, false]" ]>
               (w_files Sample.project);
  w_dirs := ∅;
  w_trace := [];
|}.

(** * Properties *)

(** ** Strings and arrays *)

Lemma split_not_nil sep s : Js.split sep s ≠ [].
Proof.
  destruct s as [|c s]; simpl; [done|].
  case_decide; [done|]. by destruct (Js.split sep s).
Qed.

Lemma pop_snoc {A} (l : list A) x : Js.pop (l ++ [x]) = Some (x, l).
Proof. induction l as [|y l IH]; simpl; [done|]. by rewrite IH. Qed.

Lemma pop_last {A} (l : list A) d :
  l ≠ [] → Js.pop l = Some (default d (last l), take (length l - 1) l).
Proof.
  intros Hl. destruct (decide (l = [])) as [|_]; [done|].
  induction l as [|x l _] using rev_ind; [done|].
  rewrite pop_snoc, last_snoc, length_app. simpl.
  replace (length l + 1 - 1) with (length l) by lia.
  by rewrite take_app_length.
Qed.

Lemma endsWith_length s p : Js.endsWith s p = true → String.length p ≤ String.length s.
Proof.
  induction s as [|c s IH]; simpl.
  - case_decide; [by subst|done].
  - case_decide; [subst; simpl; lia|]. intros He%IH. lia.
Qed.

Lemma replace_ts_ext_strip s : Js.replace_ts_ext s = stripExtension s.
Proof.
  unfold stripExtension. induction s as [|c s IH].
  - done.
  - cbn [Js.replace_ts_ext Js.endsWith].
    case_decide as Hs.
    + rewrite Hs. done.
    + rewrite IH. destruct (Js.endsWith s ".ts") eqn:He; [|done].
      apply endsWith_length in He. simpl in He.
      cbn [String.length].
      replace (S (String.length s) - 3) with (S (String.length s - 3)) by lia.
      done.
Qed.

Lemma string_length_app a b :
  String.length (a +:+ b) = String.length a + String.length b.
Proof. induction a as [|c a IH]; [done|]. unfold String.app in *. simpl. by rewrite IH. Qed.

Lemma string_app_assoc a b c : (a +:+ b) +:+ c = a +:+ (b +:+ c).
Proof.
  induction a as [|x a IH]; [done|]. unfold String.app in *. simpl. by rewrite IH.
Qed.

Lemma string_app_nil_r a : a +:+ "" = a.
Proof. induction a as [|x a IH]; [done|]. unfold String.app in *. simpl. by rewrite IH. Qed.

(** ** Route derivation *)

(** C4: the route path deriver strips the extension, splits into segments,
    pops the last segment, appends it only when it is not a CRUD file name
    and prefixes [/api/]; with the default CRUD set the four literal cases of
    the specification come out as stated. *)
Theorem deriveRoutePath_spec :
  (∀ relativePath config,
     deriveRoutePath relativePath config
     = specRoutePath relativePath (crudFilenames config)) ∧
  deriveRoutePath "tasks/list.ts" defaultConfig = "/api/tasks" ∧
  deriveRoutePath "tasks/create.ts" defaultConfig = "/api/tasks" ∧
  deriveRoutePath "users/profile/update.ts" defaultConfig = "/api/users/profile" ∧
  deriveRoutePath "billing/invoices.ts" defaultConfig = "/api/billing/invoices".
Proof.
  split; [|by vm_compute].
  intros p config. unfold deriveRoutePath, specRoutePath.
  rewrite replace_ts_ext_strip.
  rewrite (pop_last _ "") by apply split_not_nil.
  unfold Js.set_has. case_bool_decide; simpl; by rewrite ?app_nil_r.
Qed.

Lemma split_noSlash s : noSlash s = true → Js.split "/" s = [s].
Proof.
  induction s as [|c s IH]; simpl; [done|].
  intros [Hc Hs]%andb_true_iff. apply negb_true_iff, bool_decide_eq_false in Hc.
  rewrite decide_False by done. by rewrite IH.
Qed.

Lemma split_app_sep x rest :
  noSlash x = true →
  Js.split "/" (x +:+ "/" +:+ rest) = x :: Js.split "/" rest.
Proof.
  induction x as [|c x IH]; unfold String.app in *; simpl.
  - done.
  - intros [Hc Hs]%andb_true_iff.
    apply negb_true_iff, bool_decide_eq_false in Hc.
    rewrite decide_False by done. by rewrite IH.
Qed.

Lemma split_join segs :
  segs ≠ [] → Forall (λ s, noSlash s = true) segs →
  Js.split "/" (Js.join "/" segs) = segs.
Proof.
  intros Hne Hsegs. induction Hsegs as [|x segs Hx Hsegs IH]; [done|].
  destruct segs as [|y segs].
  - simpl. by apply split_noSlash.
  - change (Js.join "/" (x :: y :: segs))
      with (x +:+ "/" +:+ Js.join "/" (y :: segs)).
    rewrite split_app_sep by done. by rewrite IH.
Qed.

Lemma replace_ts_ext_app s : Js.replace_ts_ext (s +:+ ".ts") = s.
Proof.
  induction s as [|c s IH]; [done|].
  unfold String.app in *. cbn [String.append Js.replace_ts_ext].
  rewrite decide_False, IH; [done|].
  intros Heq. apply (f_equal String.length) in Heq.
  change (String.append s ".ts") with (s +:+ ".ts") in Heq.
  simpl in Heq. rewrite string_length_app in Heq. simpl in Heq. lia.
Qed.

Lemma join_snoc_app dirs f ext :
  Js.join "/" (dirs ++ [f +:+ ext]) = Js.join "/" (dirs ++ [f]) +:+ ext.
Proof.
  induction dirs as [|d dirs IH]; [done|].
  destruct dirs as [|d' dirs].
  - simpl. by rewrite !string_app_assoc.
  - change (Js.join "/" ((d :: d' :: dirs) ++ [f +:+ ext]))
      with (d +:+ "/" +:+ Js.join "/" ((d' :: dirs) ++ [f +:+ ext])).
    rewrite IH.
    change (Js.join "/" ((d :: d' :: dirs) ++ [f]))
      with (d +:+ "/" +:+ Js.join "/" ((d' :: dirs) ++ [f])).
    by rewrite !string_app_assoc.
Qed.

(** The route of a file given by its directory segments and its name:
    the directories, then the name unless it is a CRUD file name. *)
Lemma deriveRoutePath_segments dirs f config :
  Forall (λ s, noSlash s = true) dirs → noSlash f = true →
  deriveRoutePath (Js.join "/" (dirs ++ [f +:+ ".ts"])) config
  = "/api/" +:+
    Js.join "/" (dirs ++ if bool_decide (f ∈ crudFilenames config)
                         then [] else [f]).
Proof.
  intros Hdirs Hf. unfold deriveRoutePath.
  rewrite join_snoc_app, replace_ts_ext_app, split_join, pop_snoc.
  - unfold Js.set_has. case_bool_decide; simpl; by rewrite ?app_nil_r.
  - by destruct dirs.
  - apply Forall_app. split; [done|]. by repeat constructor.
Qed.

Section js_map.
Context {V : Type}.
Implicit Types (m : list (string * V)) (k : string) (v : V).

Lemma map_get_set m k v k' :
  Js.map_get (Js.map_set m k v) k'
  = if decide (k = k') then Some v else Js.map_get m k'.
Proof.
  induction m as [|[k0 v0] m IH]; simpl.
  - by repeat case_decide.
  - destruct (decide (k0 = k)) as [->|Hk]; simpl.
    + by repeat case_decide.
    + rewrite IH. repeat case_decide; congruence.
Qed.

Lemma map_get_set_eq m k v : Js.map_get (Js.map_set m k v) k = Some v.
Proof. by rewrite map_get_set, decide_True. Qed.

Lemma map_get_None m k : Js.map_get m k = None ↔ k ∉ Js.map_keys m.
Proof.
  unfold Js.map_keys. induction m as [|[k0 v0] m IH]; simpl.
  - split; [intros _; apply not_elem_of_nil | done].
  - rewrite not_elem_of_cons. case_decide; [naive_solver|].
    rewrite IH. naive_solver.
Qed.

Lemma map_has_false m k : Js.map_has m k = false ↔ Js.map_get m k = None.
Proof.
  unfold Js.map_has. rewrite bool_decide_eq_false, eq_None_not_Some. done.
Qed.

Lemma map_keys_set m k v :
  Js.map_keys (Js.map_set m k v)
  = if Js.map_has m k then Js.map_keys m else Js.map_keys m ++ [k].
Proof.
  unfold Js.map_keys, Js.map_has. induction m as [|[k0 v0] m IH]; csimpl.
  - done.
  - case_decide; subst; csimpl; [done|].
    rewrite IH. by destruct (bool_decide (is_Some (Js.map_get m k))).
Qed.

Lemma map_set_NoDup m k v :
  NoDup (Js.map_keys m) → NoDup (Js.map_keys (Js.map_set m k v)).
Proof.
  intros Hm. rewrite map_keys_set.
  destruct (Js.map_has m k) eqn:Hk; [done|].
  apply map_has_false, map_get_None in Hk.
  apply NoDup_app. split_and!; [done| |apply NoDup_singleton].
  intros x Hx ->%list_elem_of_singleton. done.
Qed.

Lemma elem_of_map_set m k v k' v' :
  (k', v') ∈ Js.map_set m k v → (k', v') = (k, v) ∨ (k', v') ∈ m.
Proof.
  induction m as [|[k0 v0] m IH]; simpl.
  - intros ->%list_elem_of_singleton. by left.
  - case_decide; subst; rewrite !elem_of_cons; naive_solver.
Qed.

Lemma map_get_elem_of m k v :
  NoDup (Js.map_keys m) → (k, v) ∈ m → Js.map_get m k = Some v.
Proof.
  unfold Js.map_keys. induction m as [|[k0 v0] m IH]; simpl.
  - by intros _ ?%elem_of_nil.
  - intros [Hk0 Hm]%NoDup_cons [Heq|Hin]%elem_of_cons.
    + simplify_eq. by rewrite decide_True.
    + rewrite decide_False; [by apply IH|].
      intros ->. apply Hk0. by apply (list_elem_of_fmap_2 fst) in Hin.
Qed.

Lemma map_get_Some_elem_of m k v : Js.map_get m k = Some v → (k, v) ∈ m.
Proof.
  induction m as [|[k0 v0] m IH]; simpl; [done|].
  case_decide; subst.
  - intros [= ->]. by left.
  - intros. right. by apply IH.
Qed.

End js_map.

(** ** Route grouping *)

Section grouping_facts.
Context (rt : Runtime) (routesCfg : RoutesConfig).

Lemma lookupMethod_groupStep groups ep r m :
  lookupMethod (groupStep rt routesCfg groups ep) r m
  = if claimsRoute r m ep then Some ep else lookupMethod groups r m.
Proof.
  unfold groupStep, claimsRoute, lookupMethod.
  destruct (hasHandler ep); cbn [negb andb]; [|done].
  destruct (Js.map_has groups (routePath ep)) eqn:Hhas.
  - apply bool_decide_eq_true in Hhas as [g Hg]. rewrite Hg.
    rewrite map_get_set. case_decide as Hr.
    + subst r. rewrite bool_decide_eq_true_2 by done.
      cbn [mbind option_bind andb methods].
      rewrite map_get_set, Hg. cbn [mbind option_bind].
      case_bool_decide; [by rewrite decide_True|by rewrite decide_False].
    + by rewrite bool_decide_eq_false_2.
  - apply map_has_false in Hhas. rewrite map_get_set_eq, !map_get_set.
    case_decide as Hr.
    + subst r. rewrite bool_decide_eq_true_2 by done.
      cbn [mbind option_bind andb methods].
      rewrite map_get_set, Hhas. cbn [mbind option_bind Js.map_get].
      case_bool_decide; [by rewrite decide_True|by rewrite decide_False].
    + by rewrite bool_decide_eq_false_2.
Qed.

Lemma lookupMethod_foldl endpoints groups r m :
  lookupMethod (foldl (groupStep rt routesCfg) groups endpoints) r m
  = match last (filter (λ ep, Is_true (claimsRoute r m ep)) endpoints) with
    | Some ep => Some ep
    | None => lookupMethod groups r m
    end.
Proof.
  revert groups. induction endpoints as [|ep eps IH]; intros groups; [done|].
  simpl. rewrite IH, lookupMethod_groupStep, filter_cons.
  destruct (claimsRoute r m ep); simpl; [|done].
  rewrite last_cons. by destruct (last _).
Qed.

Lemma groupsWf_step groups ep :
  groupsWf groups → groupsWf (groupStep rt routesCfg groups ep).
Proof.
  intros [Hkeys Hgs]. unfold groupStep.
  destruct (hasHandler ep); simpl; [|done].
  set (groups' := if Js.map_has groups (routePath ep) then groups else _).
  assert (groupsWf groups') as [Hkeys' Hgs'].
  { subst groups'. destruct (Js.map_has groups (routePath ep)); [done|].
    split; [by apply map_set_NoDup|].
    intros r g [[= -> ->]|Hin]%elem_of_map_set; [|by apply Hgs].
    simpl. split; [done|constructor]. }
  destruct (Js.map_get groups' (routePath ep)) as [g|] eqn:Hg; [|done].
  split; [by apply map_set_NoDup|].
  intros r g' [[= -> ->]|Hin]%elem_of_map_set; [|by apply Hgs'].
  simpl. apply map_get_Some_elem_of, Hgs' in Hg as [? ?].
  split; [done|by apply map_set_NoDup].
Qed.

Lemma groupsWf_foldl endpoints groups :
  groupsWf groups → groupsWf (foldl (groupStep rt routesCfg) groups endpoints).
Proof.
  revert groups. induction endpoints as [|ep eps IH]; intros groups ?; [done|].
  simpl. by apply IH, groupsWf_step.
Qed.

End grouping_facts.

(** C5: in the output of the route grouper every filed descriptor has a
    handler and sits under its own route path and upper-cased method; a
    route has one group and a group one descriptor per method; and the
    descriptor found under a route and method is the last one of the input,
    in iteration order, that asks for them (none when route generation is
    off).  The grouper is a total function: a collision raises nothing. *)
Theorem groupEndpointsByRoute_invariant rt endpoints config :
  let groups := groupEndpointsByRoute rt endpoints config in
  (∀ r g m ep,
     (r, g) ∈ groups → (m, ep) ∈ methods g →
     ep ∈ endpoints ∧ hasHandler ep = true ∧ routePath ep = r ∧
     Js.toUpperCase (method ep) = m) ∧
  NoDup (Js.map_keys groups) ∧
  (∀ r g, (r, g) ∈ groups →
          rg_routePath g = r ∧ NoDup (Js.map_keys (methods g))) ∧
  (∀ r m,
     lookupMethod groups r m
     = match routes config with
       | None => None
       | Some _ =>
           last (filter (λ ep, Is_true (claimsRoute r m ep)) endpoints)
       end).
Proof.
  intros groups.
  assert (groupsWf groups) as [Hkeys Hgs].
  { subst groups. unfold groupEndpointsByRoute.
    destruct (routes config); [apply groupsWf_foldl|]; (split; [constructor|]);
      by intros ?? ?%elem_of_nil. }
  assert (∀ r m, lookupMethod groups r m
                 = match routes config with
                   | None => None
                   | Some _ =>
                       last (filter (λ ep, Is_true (claimsRoute r m ep)) endpoints)
                   end) as Hlast.
  { intros r m. subst groups. unfold groupEndpointsByRoute.
    destruct (routes config); [|done].
    rewrite lookupMethod_foldl. by destruct (last _). }
  split_and!; [|done..].
  intros r g m ep Hg Hep.
  destruct (Hgs _ _ Hg) as [_ Hms].
  assert (lookupMethod groups r m = Some ep) as Hl.
  { unfold lookupMethod. rewrite (map_get_elem_of _ _ _ Hkeys Hg). simpl.
    by apply map_get_elem_of. }
  rewrite Hlast in Hl. destruct (routes config); [|done].
  apply last_Some_elem_of, list_elem_of_filter in Hl as [Hc Hin].
  unfold claimsRoute in Hc.
  apply andb_prop_elim in Hc as [[Hh Hr]%andb_prop_elim Hm].
  apply bool_decide_unpack in Hr, Hm. apply Is_true_true in Hh. done.
Qed.

(** ** Tag types *)

Lemma upper_char_fixed c :
  Js.is_word c = true → bool_decide (c = Js.upper_char c) = keptByUpperCasing c.
Proof.
  destruct c as [[] [] [] [] [] [] [] []]; vm_compute; congruence.
Qed.

Lemma allWord_snoc acc c :
  allWord (acc +:+ String c "") = allWord acc && Js.is_word c.
Proof.
  induction acc as [|a acc IH]; simpl.
  - by rewrite andb_true_r.
  - unfold String.app in *. simpl. rewrite IH. by rewrite andb_assoc.
Qed.

Lemma quotedTokens_words st s t :
  (∀ acc, st = Some acc → allWord acc = true) →
  t ∈ quotedTokens st s → t ≠ "" ∧ allWord t = true.
Proof.
  revert st. induction s as [|c s IH]; intros st Hst; simpl.
  - by intros ?%elem_of_nil.
  - destruct st as [acc|].
    + destruct (Js.is_word c) eqn:Hw.
      * apply IH. intros ? [= <-]. rewrite allWord_snoc, Hw.
        by rewrite (Hst acc).
      * destruct (Js.is_quote c).
        -- case_decide as Hacc.
           ++ apply IH. by intros ? [= <-].
           ++ intros [->|Hin]%elem_of_cons; [by auto|].
              revert Hin. by apply IH.
        -- by apply IH.
    + apply IH. destruct (Js.is_quote c); [by intros ? [= <-]|done].
Qed.

Example quotedTokens_examples :
  quotedTokens None ("[" +:+ dq +:+ "Tasks" +:+ dq +:+ ", { type: 'Task', id: 'LIST' }]")
  = ["Tasks"; "Task"; "LIST"] ∧
  quotedTokens None "(result) => [{ type: 'Task', id: result.id }]" = ["Task"] ∧
  quotedTokens None "['', ''a'', 'b c', 'd'e']" = ["a"; "d"] ∧
  extractTagTypes (Some "[{ type: 'Task', id: 'list' }]") ["User"]
  = ["User"; "Task"].
Proof. by vm_compute. Qed.

(** Every token the scanner reports stands in the source between two
    quotes. *)
Lemma quotedTokens_quoted s st t :
  t ∈ quotedTokens st s →
  (∃ pre q1 q2 post,
     s = pre +:+ String q1 (t +:+ String q2 post) ∧
     Js.is_quote q1 = true ∧ Js.is_quote q2 = true) ∨
  (∃ acc rest q2 post,
     st = Some acc ∧ t = acc +:+ rest ∧ s = rest +:+ String q2 post ∧
     Js.is_quote q2 = true).
Proof.
  revert st. induction s as [|c s IH]; intros st; simpl.
  { by intros ?%elem_of_nil. }
  assert (∀ st', t ∈ quotedTokens st' s →
            (∀ acc rest q2 post,
               st' = Some acc → t = acc +:+ rest → s = rest +:+ String q2 post →
               Js.is_quote q2 = true →
               (∃ pre q1 q2 post,
                  String c s = pre +:+ String q1 (t +:+ String q2 post) ∧
                  Js.is_quote q1 = true ∧ Js.is_quote q2 = true) ∨
               (∃ acc rest q2 post,
                  st = Some acc ∧ t = acc +:+ rest ∧
                  String c s = rest +:+ String q2 post ∧
                  Js.is_quote q2 = true)) →
            (∃ pre q1 q2 post,
               String c s = pre +:+ String q1 (t +:+ String q2 post) ∧
               Js.is_quote q1 = true ∧ Js.is_quote q2 = true) ∨
            (∃ acc rest q2 post,
               st = Some acc ∧ t = acc +:+ rest ∧
               String c s = rest +:+ String q2 post ∧
               Js.is_quote q2 = true)) as Hrec.
  { intros st' [(pre & q1 & q2 & post & -> & ? & ?)|
                (acc & rest & q2 & post & ? & ? & ? & ?)]%IH Hb.
    - left. by exists (String c pre), q1, q2, post.
    - eauto. }
  destruct st as [acc|].
  - destruct (Js.is_word c) eqn:Hw.
    + intros Ht. apply (Hrec _ Ht).
      intros ? rest q2 post [= <-] -> -> ?. right.
      exists acc, (String c rest), q2, post.
      by rewrite string_app_assoc.
    + destruct (Js.is_quote c) eqn:Hq.
      * case_decide as Hacc.
        -- intros Ht. apply (Hrec _ Ht).
           intros ? rest q2 post [= <-] -> -> ?. left.
           by exists "", c, q2, post.
        -- intros [->|Ht]%elem_of_cons.
           ++ right. exists acc, "", c, s. by rewrite string_app_nil_r.
           ++ apply (Hrec _ Ht). by intros.
      * intros Ht. apply (Hrec _ Ht). by intros.
  - intros Ht. apply (Hrec _ Ht).
    destruct (Js.is_quote c) eqn:Hq; [|by intros].
    intros ? rest q2 post [= <-] -> -> ?. left. by exists "", c, q2, post.
Qed.

Lemma elem_of_set_add s x t : t ∈ Js.set_add s x ↔ t ∈ s ∨ t = x.
Proof.
  unfold Js.set_add, Js.set_has. case_bool_decide.
  - naive_solver.
  - rewrite elem_of_app, list_elem_of_singleton. done.
Qed.

Lemma elem_of_extract_loop (f : string → bool) toks tags t :
  t ∈ foldl (λ tags m, if f m then Js.set_add tags m else tags) tags toks
  ↔ t ∈ tags ∨ (t ∈ toks ∧ f t = true).
Proof.
  revert tags. induction toks as [|m toks IH]; intros tags; simpl.
  - rewrite elem_of_nil. naive_solver.
  - rewrite IH, elem_of_cons. destruct (f m) eqn:Hf.
    + rewrite elem_of_set_add. split.
      * intros [[?| ->]|[? ?]]; auto.
      * intros [?|[[ ->|?] ?]]; auto.
    + split.
      * intros [?|[? ?]]; auto.
      * intros [?|[[ ->|?] ?]]; [auto|congruence|auto].
Qed.

(** C8, as amended: a quoted token of the captured source is added to the
    tag types exactly when upper-casing leaves its first character alone,
    that is when it starts with an upper-case letter, a digit or an
    underscore; a token that starts with a lower-case letter is not added. *)
Theorem extractTagTypes_spec source tags t :
  t ∈ extractTagTypes source tags ↔
  t ∈ tags ∨
  ∃ s c, truthy source = Some s ∧ t ∈ quotedTokens None s ∧
         firstChar t = Some c ∧ keptByUpperCasing c = true.
Proof.
  unfold extractTagTypes. destruct (truthy source) as [s|]; [|naive_solver].
  rewrite elem_of_extract_loop. split.
  - intros [?|[Hin Hf]]; [by left|right].
    destruct (quotedTokens_words None s t) as [Hne Hw]; [done..|].
    destruct t as [|c t]; [done|]. simpl in Hw, Hf.
    apply andb_true_iff in Hw as [Hc _].
    exists s, c. by rewrite <-upper_char_fixed.
  - intros [?|(s' & c & [= <-] & Hin & Hc & Hk)]; [by left|right].
    split; [done|]. destruct (quotedTokens_words None s t) as [Hne Hw]; [done..|].
    destruct t as [|c' t]; [done|]. simpl in Hc, Hw. simplify_eq.
    apply andb_true_iff in Hw as [Hc' _]. simpl. by rewrite upper_char_fixed.
Qed.

(** C8, as stated, fails: a token that starts with a digit or an underscore
    is added although its first character is not an upper-case letter. *)
Lemma extractTagTypes_not_only_upper_case :
  ¬ (∀ source tags t,
       t ∈ extractTagTypes source tags → t ∈ tags ∨ startsUpperCase t = true).
Proof.
  intros H.
  destruct (H (Some "[{ type: 'Task', id: '9lives' }, '_internal']") []
              "9lives") as [Hin|Hup].
  - vm_compute. apply list_elem_of_In. simpl. auto.
  - by apply elem_of_nil in Hin.
  - vm_compute in Hup. discriminate.
Qed.

(** ** The monad *)

Ltac unfold_M :=
  unfold mbind, M_bind, bind, mret, M_ret, ret, throw, console_warn,
    console_log, emit in *.

Section parse_facts.
Context (rt : Runtime).

Lemma initializerOrThrow_Ok p w x w' :
  initializerOrThrow p w = Ok x w' →
  w' = w ∧ ∃ n, p = PropertyAssignment n x.
Proof.
  destruct p; unfold_M; simpl; intros [= <- <-] || intros [=]; eauto.
Qed.

Lemma initializerText_Ok p w x w' :
  initializerText p w = Ok x w' →
  w' = w ∧
  ((p = None ∧ x = None) ∨
   ∃ n init, p = Some (PropertyAssignment n init) ∧ x = Some (getText init)).
Proof.
  destruct p as [p|]; unfold initializerText; unfold_M.
  - destruct (initializerOrThrow p w) as [init w1|] eqn:Hi; [|done].
    apply initializerOrThrow_Ok in Hi as [-> [n ->]].
    intros [= <- <-]. eauto 6.
  - intros [= <- <-]. auto.
Qed.

Lemma extractTags_Ok props w tags w' :
  extractTags props w = Ok tags w' → w' = w.
Proof.
  unfold extractTags.
  destruct (getProperty props "tags") as [tagsProp|]; [|by intros [= _ <-]].
  unfold mbind, M_bind, bind.
  destruct (initializerOrThrow tagsProp w) as [tagsObj w2|] eqn:H5; [|done].
  apply initializerOrThrow_Ok in H5 as [-> _].
  destruct tagsObj as [t tprops|]; [|by intros [= _ <-]].
  destruct (initializerText (getProperty tprops "provides") w)
    as [? w2|] eqn:H6; [|done].
  apply initializerText_Ok in H6 as [-> _].
  destruct (initializerText (getProperty tprops "invalidates") w)
    as [? w2|] eqn:H7; [|done].
  apply initializerText_Ok in H7 as [-> _]. by intros [= _ <-].
Qed.

Lemma parseSourceFile_maxRetries sourceFile filePath absPath config w ep w' :
  parseSourceFile rt sourceFile filePath absPath config w = Ok (Some ep) w' →
  ∃ call m text props,
    findEndpointCall (callExpressions sourceFile) = Some (call, m) ∧
    arguments call !! 0%nat = Some (ObjectLiteralExpression text props) ∧
    ∃ retriesText,
      initializerText (getProperty props "maxRetries") w = Ok retriesText w ∧
      maxRetries ep = retriesText ≫= (λ t, retainedRetries (parseInt t)).
Proof.
  unfold parseSourceFile. intros H.
  destruct (defaultExportSymbol sourceFile); simpl in H; [|by unfold_M].
  destruct (findEndpointCall _) as [[call m]|] eqn:Hcall; [|by unfold_M].
  destruct (arguments call !! 0%nat) as [[text props|]|] eqn:Harg;
    [|by unfold_M..].
  exists call, m, text, props. split_and!; [done..|].
  unfold mbind, M_bind, bind in H.
  destruct (initializerText (getProperty props "name") w) as [nameText w1|] eqn:H1;
    [|done].
  apply initializerText_Ok in H1 as [-> _].
  case_decide; [by unfold_M|].
  destruct (initializerText (getProperty props "protected") w)
    as [protectedText w1|] eqn:H2; [|done].
  apply initializerText_Ok in H2 as [-> _].
  destruct (initializerText (getProperty props "query") w)
    as [queryText w1|] eqn:H3; [|done].
  apply initializerText_Ok in H3 as [-> _].
  destruct (extractTags props w) as [tags w1|] eqn:H4; [|done].
  apply extractTags_Ok in H4 as ->.
  destruct tags as [provides invalidates].
  destruct (initializerText (getProperty props "optimistic") w)
    as [optimisticText w1|] eqn:H8; [|done].
  apply initializerText_Ok in H8 as [-> _].
  destruct (initializerText (getProperty props "maxRetries") w)
    as [retriesText w1|] eqn:H9; [|done].
  pose proof H9 as H9'. apply initializerText_Ok in H9' as [-> _].
  exists retriesText. split; [done|].
  destruct (resolveTypeImports _ _ _ _ _ _) as [[? ?] ?].
  unfold_M. by inversion H.
Qed.

End parse_facts.

Example parseInt_examples :
  parseInt "3" = Some (Integer 3) ∧ parseInt "  42" = Some (Integer 42) ∧
  parseInt "0" = Some (Integer 0) ∧ parseInt "-2" = Some (Integer (-2)) ∧
  parseInt "+7" = Some (Integer 7) ∧ parseInt "2.5" = Some (Integer 2) ∧
  parseInt "RETRIES" = None ∧ parseInt "" = None ∧ parseInt "-" = None ∧
  parseInt "9007199254740993" = Some (Integer 9007199254740992) ∧
  parseInt "9007199254740995" = Some (Integer 9007199254740996) ∧
  parseInt ("1" +:+ Sample.zeros 308)
  = Some (Integer (Z.shiftl 5010420900022432 971)) ∧
  parseInt ("1" +:+ Sample.zeros 309) = Some Infinity ∧
  parseInt ("-1" +:+ Sample.zeros 309) = Some MinusInfinity.
Proof. by vm_compute. Qed.

Lemma retainedRetries_Some val v :
  retainedRetries val = Some v ↔ val = Some v ∧ isPositive v = true.
Proof.
  unfold retainedRetries. destruct val as [u|]; [|naive_solver].
  destruct (isPositive u) eqn:Hu; [naive_solver|].
  split; [done|]. intros [[= <-] ?]. congruence.
Qed.

Lemma isPositive_cases v :
  isPositive v = true ↔ v = Infinity ∨ ∃ n, v = Integer n ∧ (0 < n)%Z.
Proof.
  destruct v as [z| |]; simpl.
  - rewrite bool_decide_eq_true. naive_solver.
  - naive_solver.
  - naive_solver.
Qed.

(** C7: when extraction succeeds, the retry count of the descriptor is the
    number [v] exactly when the config object has a [maxRetries] property
    assignment whose initializer text [parseInt] reads as [v] and [v] is
    above zero; a retained count is a positive integer or, for an integer
    too large for a double, the infinity.  In every other case (no such
    property, text without a leading number, zero, a negative number) the
    count is null. *)
Theorem maxRetries_valid_positive rt sourceFile filePath absPath config w ep w' :
  parseSourceFile rt sourceFile filePath absPath config w = Ok (Some ep) w' →
  ∃ call m text props,
    findEndpointCall (callExpressions sourceFile) = Some (call, m) ∧
    arguments call !! 0%nat = Some (ObjectLiteralExpression text props) ∧
    (∀ v, maxRetries ep = Some v ↔
          isPositive v = true ∧
          ∃ pn init,
            getProperty props "maxRetries" = Some (PropertyAssignment pn init) ∧
            parseInt (getText init) = Some v) ∧
    (∀ v, maxRetries ep = Some v →
          v = Infinity ∨ ∃ n, v = Integer n ∧ (0 < n)%Z).
Proof.
  intros (call & m & text & props & Hcall & Harg & retriesText & Ht & Hr)
    %parseSourceFile_maxRetries.
  exists call, m, text, props. split_and!; [done..| |].
  - intros v. rewrite Hr.
    apply initializerText_Ok in Ht as [_ [[Hp ->]|(pn & init & Hp & ->)]];
      rewrite Hp; simpl.
    + naive_solver.
    + rewrite retainedRetries_Some. naive_solver.
  - intros v. rewrite Hr. destruct retriesText as [t|]; [|done]. simpl.
    intros [_ Hv]%retainedRetries_Some. by apply isPositive_cases.
Qed.

Lemma maxRetries_valid_positive_witness :
  ∃ call m text props,
    findEndpointCall (callExpressions Sample.retryFile) = Some (call, m) ∧
    arguments call !! 0%nat = Some (ObjectLiteralExpression text props) ∧
    (∀ v, Some (Integer 3) = Some v ↔
          isPositive v = true ∧
          ∃ pn init,
            getProperty props "maxRetries" = Some (PropertyAssignment pn init) ∧
            parseInt (getText init) = Some v) ∧
    (∀ v, Some (Integer 3) = Some v →
          v = Infinity ∨ ∃ n, v = Integer n ∧ (0 < n)%Z).
Proof.
  refine (maxRetries_valid_positive Sample.runtime Sample.retryFile
            "tasks/list.ts" "/p/src/endpoints/tasks/list.ts" Sample.config
            Sample.project
            {| name := "getTasks"; method := "get"; filePath := "tasks/list.ts";
               importPath := "@app/endpoints/tasks/list";
               routePath := "/api/tasks"; isProtected := true;
               hasRequest := false; hasHandler := false;
               responseType := "unknown"; responseTypeImport := None;
               argsType := "void"; argsTypeImport := None;
               queryFnSource := ""; endpointType := query;
               providesTagsSource := None; invalidatesTagsSource := None;
               optimisticSource := None; maxRetries := Some (Integer 3);
               typeImports := [] |}
            Sample.project _).
  vm_compute. reflexivity.
Defined.

(** C7, as stated, fails: a retry count of 310 digits is read as the
    infinity, which is above zero and is retained, and is no integer. *)
Lemma maxRetries_infinity_retained :
  ¬ (∀ rt sourceFile filePath absPath config w ep w' v,
       parseSourceFile rt sourceFile filePath absPath config w
       = Ok (Some ep) w' →
       maxRetries ep = Some v → ∃ n, v = Integer n ∧ (0 < n)%Z).
Proof.
  intros H.
  destruct (H Sample.runtime Sample.hugeRetryFile
              "tasks/list.ts" "/p/src/endpoints/tasks/list.ts" Sample.config
              Sample.project
              {| name := "getTasks"; method := "get";
                 filePath := "tasks/list.ts";
                 importPath := "@app/endpoints/tasks/list";
                 routePath := "/api/tasks"; isProtected := true;
                 hasRequest := false; hasHandler := false;
                 responseType := "unknown"; responseTypeImport := None;
                 argsType := "void"; argsTypeImport := None;
                 queryFnSource := ""; endpointType := query;
                 providesTagsSource := None; invalidatesTagsSource := None;
                 optimisticSource := None; maxRetries := Some Infinity;
                 typeImports := [] |}
              Sample.project Infinity) as (n & Hn & _).
  - vm_compute. reflexivity.
  - reflexivity.
  - discriminate.
Qed.

Section extractor_outcomes.
Context (rt : Runtime).

(** C3: the extractor does throw on a malformed recognised property.  On the
    tree of [export default endpoint.get({ name, ... })], whose [name] member
    is a shorthand assignment, and on a tree whose [query] member is written
    as a method, [asKindOrThrow] throws: no descriptor, no null, no warning. *)
Theorem parseSourceFile_throws_on_other_member_kinds filePath absPath config w :
  parseSourceFile rt Sample.shorthandNameFile filePath absPath config w
  = Throw "Expected node to be of kind PropertyAssignment" w ∧
  parseSourceFile rt Sample.methodQueryFile filePath absPath config w
  = Throw "Expected node to be of kind PropertyAssignment" w.
Proof. split; reflexivity. Qed.

Lemma initializerText_total props n w :
  assignmentOrAbsent props n →
  ∃ x, initializerText (getProperty props n) w = Ok x w.
Proof.
  unfold assignmentOrAbsent, initializerText.
  destruct (getProperty props n) as [[]|]; try done; intros _; unfold_M;
    simpl; eauto.
Qed.

(** Outside that case the extractor keeps its contract: a descriptor and an
    untouched world, or null after exactly one warning. *)
Lemma parseSourceFile_returns sourceFile filePath absPath config w :
  (∀ call m t props,
     findEndpointCall (callExpressions sourceFile) = Some (call, m) →
     arguments call !! 0%nat = Some (ObjectLiteralExpression t props) →
     recognisedAssignments props) →
  (∃ ep, parseSourceFile rt sourceFile filePath absPath config w
         = Ok (Some ep) w) ∨
  (∃ msg, parseSourceFile rt sourceFile filePath absPath config w
          = Ok None (extend w [Warn msg])).
Proof.
  intros Hwf. unfold parseSourceFile.
  destruct (defaultExportSymbol sourceFile); simpl;
    [|right; eexists; by unfold_M].
  destruct (findEndpointCall _) as [[call m]|] eqn:Hcall;
    [|right; eexists; by unfold_M].
  destruct (arguments call !! 0%nat) as [[text props|]|] eqn:Harg;
    [|right; eexists; by unfold_M..].
  destruct (Hwf _ _ _ _ eq_refl Harg) as (Hn & Hp & Hq & Ht & Ho & Hr & Htags).
  unfold mbind, M_bind, bind.
  destruct (initializerText_total _ _ w Hn) as [nameText ->].
  case_decide; [right; eexists; by unfold_M|].
  destruct (initializerText_total _ _ w Hp) as [? ->].
  destruct (initializerText_total _ _ w Hq) as [? ->].
  assert (∃ tags, extractTags props w = Ok tags w) as [[provides invalidates] ->].
  { unfold extractTags, assignmentOrAbsent in *.
    destruct (getProperty props "tags") as [[pn init| | | | |]|] eqn:Hg;
      try done; [|by eexists].
    simpl. unfold mbind, M_bind, bind. simpl.
    destruct init as [t tprops|]; [|by eexists].
    destruct (Htags _ _ _ eq_refl) as [H1 H2].
    destruct (initializerText_total _ _ w H1) as [? ->].
    destruct (initializerText_total _ _ w H2) as [? ->]. by eexists. }
  destruct (initializerText_total _ _ w Ho) as [? ->].
  destruct (initializerText_total _ _ w Hr) as [? ->].
  destruct (resolveTypeImports _ _ _ _ _ _) as [[? ?] ?].
  left. eexists. by unfold_M.
Qed.

End extractor_outcomes.

(** ** Lines of the generated code *)

Lemma lastChar_app a b :
  lastChar (a +:+ b)
  = match lastChar b with Some c => Some c | None => lastChar a end.
Proof.
  induction a as [|c a IH]; unfold String.app in *; simpl.
  - by destruct (lastChar b).
  - rewrite IH. by destruct (lastChar b), (lastChar a).
Qed.

Lemma filter_none {A} (P : A → Prop) `{∀ x, Decision (P x)} (l : list A) :
  Forall (λ x, ¬ P x) l → filter P l = [].
Proof.
  induction 1 as [|x l Hx _ IH]; [done|].
  by rewrite filter_cons, decide_False.
Qed.

Lemma Forall_false_filter (f : string → bool) (l : list string) :
  Forall (λ x, f x = false) l → filter (λ x, Is_true (f x)) l = [].
Proof.
  intros Hl. apply filter_none. eapply Forall_impl; [done|].
  intros x ->. by intros [].
Qed.

Ltac lines_false :=
  repeat first
    [ apply Forall_nil_2
    | apply Forall_cons_2; [reflexivity|]
    | apply Forall_app; split ].

Section codegen_facts.
Context (rt : Runtime).

Lemma patchCall_deep indent target argsFn updateFn :
  4 ≤ indent →
  Forall (λ l, innerLine l = true) (patchCall indent target argsFn updateFn).
Proof.
  intros Hi. do 4 (destruct indent as [|indent]; [lia|]).
  unfold patchCall. lines_false.
Qed.

Lemma generateUpdate_deep update :
  Forall (λ l, innerLine l = true) (generateUpdate rt update).
Proof.
  unfold generateUpdate.
  destruct (match_target rt update), (match_args_multi rt update),
    (match_update rt update); try apply Forall_nil_2.
  destruct (match_condition rt update); lines_false;
    try (apply patchCall_deep; lia).
Qed.

Lemma generateOnQueryStarted_deep ep lines :
  generateOnQueryStarted rt ep = Some lines →
  Forall (λ l, innerLine l = true) lines.
Proof.
  unfold generateOnQueryStarted. destruct (truthy (optimisticSource ep)) as [source|]; [|done].
  set (ls := if _ : bool then _ else _).
  assert (Forall (λ l, innerLine l = true) ls) as Hls.
  { subst ls. destruct (_ && _).
    - destruct (match_target rt source), (match_args rt source),
        (match_update rt source); try apply Forall_nil_2.
      lines_false; try (apply patchCall_deep; lia).
    - destruct (Js.includes source "updates:"); [|apply Forall_nil_2].
      lines_false.
      destruct (extractUpdatesArray rt source) as [us|]; [|apply Forall_nil_2].
      apply Forall_concat, Forall_fmap, Forall_true. intros u.
      apply generateUpdate_deep. }
  case_decide; [done|]. by intros [= <-].
Qed.

Lemma innerLine_spec l :
  innerLine l = true →
  isExtraOptionsLine l = false ∧ isImportLine l = false ∧
  isBaseQueryLine l = false.
Proof.
  unfold innerLine, isExtraOptionsLine, isImportLine, isBaseQueryLine.
  destruct (charIs 3 "e" l), (charIs 0 "i" l), (charIs 1 "b" l),
    (charIs 0 "009" l); simpl; intros; try discriminate; auto.
Qed.

Lemma optimisticLines_inner ep :
  Forall (λ l, innerLine l = true)
    match truthy (optimisticSource ep) with
    | Some _ => default [] (generateOnQueryStarted rt ep)
    | None => []
    end.
Proof.
  destruct (truthy (optimisticSource ep)); [|apply Forall_nil_2].
  destruct (generateOnQueryStarted rt ep) eqn:Hg; [|apply Forall_nil_2].
  by apply generateOnQueryStarted_deep in Hg.
Qed.

Lemma firstLine_ends a b : endsWithChar "," (a +:+ ">({") = false ∧
                           endsWithChar "," (b +:+ " },") = true.
Proof. unfold endsWithChar. by rewrite !lastChar_app. Qed.

Lemma extraOptionsLine_is n :
  isExtraOptionsLine (extraOptionsLine rt n) = true.
Proof.
  unfold isExtraOptionsLine, extraOptionsLine. apply andb_true_iff. split.
  - reflexivity.
  - unfold endsWithChar. by rewrite !lastChar_app.
Qed.

Lemma extraOptionsLine_kind n :
  isImportLine (extraOptionsLine rt n) = false ∧
  isBaseQueryLine (extraOptionsLine rt n) = false.
Proof. split; reflexivity. Qed.

(** The lines of an endpoint definition that look like the [extraOptions]
    line: that line alone, and only for a positive retry count. *)
Lemma generateEndpointDef_extraOptions ep :
  filter (λ l, Is_true (isExtraOptionsLine l)) (generateEndpointDef rt ep)
  = match maxRetries ep with
    | Some n => if isPositive n then [extraOptionsLine rt n] else []
    | None => []
    end.
Proof.
  unfold generateEndpointDef. rewrite !filter_app.
  rewrite (Forall_false_filter _ [_ +:+ _]).
  2:{ apply Forall_cons_2; [|apply Forall_nil_2].
      unfold isExtraOptionsLine, endsWithChar. rewrite !lastChar_app. simpl.
      apply andb_false_r. }
  rewrite (Forall_false_filter _ (if decide (queryFnSource ep = "") then _ else _)).
  2:{ case_decide; lines_false. }
  rewrite (Forall_false_filter _ (match truthy (providesTagsSource ep) with
                                  | Some _ => _ | None => _ end)).
  2:{ destruct (truthy (providesTagsSource ep)); lines_false. }
  rewrite (Forall_false_filter _ (match truthy (invalidatesTagsSource ep) with
                                  | Some _ => _ | None => _ end)).
  2:{ destruct (truthy (invalidatesTagsSource ep)); lines_false. }
  rewrite (Forall_false_filter _ (match truthy (optimisticSource ep) with
                                  | Some _ => _ | None => _ end)).
  2:{ eapply Forall_impl; [apply optimisticLines_inner|].
      by intros l [? _]%innerLine_spec. }
  rewrite (Forall_false_filter _ [tabs 2 +:+ "}),"]) by lines_false.
  rewrite app_nil_r. simpl.
  destruct (maxRetries ep) as [n|]; [|done].
  destruct (isPositive n); [|done].
  rewrite filter_cons, decide_True; [done|].
  apply Is_true_true, extraOptionsLine_is.
Qed.

(** No line of an endpoint definition looks like the toolkit import or the
    [baseQuery] line. *)
Lemma generateEndpointDef_kind ep :
  Forall (λ l, isImportLine l = false ∧ isBaseQueryLine l = false)
         (generateEndpointDef rt ep).
Proof.
  unfold generateEndpointDef.
  repeat (apply Forall_app; split).
  - apply Forall_cons_2; [split; reflexivity|apply Forall_nil_2].
  - case_decide; [apply Forall_nil_2|].
    apply Forall_cons_2; [split; reflexivity|apply Forall_nil_2].
  - destruct (truthy (providesTagsSource ep)); [|apply Forall_nil_2].
    apply Forall_cons_2; [split; reflexivity|apply Forall_nil_2].
  - destruct (truthy (invalidatesTagsSource ep)); [|apply Forall_nil_2].
    apply Forall_cons_2; [split; reflexivity|apply Forall_nil_2].
  - eapply Forall_impl; [apply optimisticLines_inner|].
    intros l (_ & ? & ?)%innerLine_spec. done.
  - destruct (maxRetries ep) as [n|]; [|apply Forall_nil_2].
    destruct (isPositive n); [|apply Forall_nil_2].
    apply Forall_cons_2; [apply extraOptionsLine_kind|apply Forall_nil_2].
  - apply Forall_cons_2; [split; reflexivity|apply Forall_nil_2].
Qed.

Lemma baseQueryLine_kind b config :
  isBaseQueryLine (baseQueryLine b config) = true ∧
  isImportLine (baseQueryLine b config) = false.
Proof.
  unfold baseQueryLine. destruct b, (truthy (baseQuery config)); split; reflexivity.
Qed.

Lemma importLine_kind (b : bool) :
  isImportLine (if b then retryImportLine else plainImportLine) = true ∧
  isBaseQueryLine (if b then retryImportLine else plainImportLine) = false.
Proof. destruct b; split; reflexivity. Qed.

Lemma filter_cons_true (f : string → bool) x l :
  f x = true →
  filter (λ x, Is_true (f x)) (x :: l) = x :: filter (λ x, Is_true (f x)) l.
Proof. intros Hx. rewrite filter_cons, decide_True; [done|]. by rewrite Hx. Qed.

Lemma filter_cons_false (f : string → bool) x l :
  f x = false →
  filter (λ x, Is_true (f x)) (x :: l) = filter (λ x, Is_true (f x)) l.
Proof.
  intros Hx. rewrite filter_cons, decide_False; [done|].
  rewrite Hx. by intros [].
Qed.

Lemma endpointDefs_kind endpoints :
  Forall (λ l, isImportLine l = false ∧ isBaseQueryLine l = false)
         (concat (generateEndpointDef rt <$> endpoints)).
Proof.
  apply Forall_concat, Forall_fmap, Forall_true. intros ep.
  apply generateEndpointDef_kind.
Qed.

Lemma hookLines_kind endpoints :
  Forall (λ l, isImportLine l = false ∧ isBaseQueryLine l = false)
         ((λ ep, tab +:+ hookName rt ep +:+ ",") <$> endpoints).
Proof.
  apply Forall_fmap, Forall_true. intros ep. unfold hookName, compose.
  destruct (endpointType ep); split; reflexivity.
Qed.

Lemma typeImportLines_kind (entries : list (string * list string)) :
  Forall (λ l, isImportLine l = false ∧ isBaseQueryLine l = false)
         ((λ '(importPath, types),
             "import type { " +:+ Js.join ", " (Js.sort types) +:+ " } from " +:+
             quoted importPath +:+ ";") <$> entries).
Proof.
  apply Forall_fmap, Forall_true. intros [importPath types]. split; reflexivity.
Qed.

Lemma generateApiLines_importLine endpoints config :
  filter (λ l, Is_true (isImportLine l)) (generateApiLines rt endpoints config)
  = [if existsb hasRetries endpoints then retryImportLine else plainImportLine].
Proof.
  unfold generateApiLines. rewrite !filter_app.
  rewrite (Forall_false_filter _ (_ <$> sortEntries _)).
  2:{ eapply Forall_impl; [apply typeImportLines_kind|]. by intros ? [? ?]. }
  rewrite (Forall_false_filter _ (concat _)).
  2:{ eapply Forall_impl; [apply endpointDefs_kind|]. by intros ? [? ?]. }
  rewrite (Forall_false_filter _ (_ <$> endpoints)).
  2:{ eapply Forall_impl; [apply hookLines_kind|]. by intros ? [? ?]. }
  rewrite (Forall_false_filter _ [_; _; _; _]) by lines_false.
  rewrite (Forall_false_filter _ [ "} = api;" ]) by lines_false.
  rewrite (Forall_false_filter _ [_; _; _; _; _; _; _; _]).
  2:{ repeat (apply Forall_cons_2;
                [first [reflexivity | apply baseQueryLine_kind]|]).
      apply Forall_nil_2. }
  rewrite !app_nil_r.
  rewrite filter_cons_false by reflexivity.
  rewrite filter_cons_true by apply importLine_kind. done.
Qed.

Lemma generateApiLines_baseQueryLine endpoints config :
  filter (λ l, Is_true (isBaseQueryLine l)) (generateApiLines rt endpoints config)
  = [baseQueryLine (existsb hasRetries endpoints) config].
Proof.
  unfold generateApiLines. rewrite !filter_app.
  rewrite (Forall_false_filter _ (_ <$> sortEntries _)).
  2:{ eapply Forall_impl; [apply typeImportLines_kind|]. by intros ? [? ?]. }
  rewrite (Forall_false_filter _ (concat _)).
  2:{ eapply Forall_impl; [apply endpointDefs_kind|]. by intros ? [? ?]. }
  rewrite (Forall_false_filter _ (_ <$> endpoints)).
  2:{ eapply Forall_impl; [apply hookLines_kind|]. by intros ? [? ?]. }
  rewrite (Forall_false_filter _ [_; _; _; _]) by lines_false.
  rewrite (Forall_false_filter _ [ "} = api;" ]) by lines_false.
  rewrite (Forall_false_filter _ [_; _]).
  2:{ repeat (apply Forall_cons_2;
                [first [reflexivity | apply importLine_kind]|]).
      apply Forall_nil_2. }
  rewrite !app_nil_r. simpl app.
  rewrite !filter_cons_false by reflexivity.
  rewrite filter_cons_true by apply baseQueryLine_kind.
  by rewrite !filter_cons_false by reflexivity.
Qed.

End codegen_facts.

Lemma existsb_hasRetries endpoints :
  existsb hasRetries endpoints = true ↔ anyRetries endpoints.
Proof.
  unfold anyRetries. rewrite existsb_exists. split.
  - intros (ep & Hin%list_elem_of_In & Hr). unfold hasRetries in Hr.
    destruct (maxRetries ep) as [n|] eqn:Hn; [|done]. eauto.
  - intros (ep & n & Hin%list_elem_of_In & Hn & Hpos). exists ep.
    split; [done|]. unfold hasRetries. by rewrite Hn.
Qed.

Lemma baseQueryLine_forms config :
  baseQueryLine true config
  = tab +:+ "baseQuery: retry(" +:+ baseTransport config +:+ ", { maxRetries: 0 })," ∧
  baseQueryLine false config
  = tab +:+ "baseQuery: " +:+ baseTransport config +:+ ",".
Proof.
  unfold baseQueryLine, baseTransport. by destruct (truthy (baseQuery config)).
Qed.

Lemma baseQueryLine_differ config :
  baseQueryLine true config ≠ baseQueryLine false config.
Proof.
  destruct (baseQueryLine_forms config) as [-> ->]. intros Heq.
  apply (f_equal String.length) in Heq.
  rewrite !string_length_app in Heq. simpl in Heq. lia.
Qed.

Lemma elem_of_filter_singleton (f : string → bool) (l : list string) x y :
  filter (λ l, Is_true (f l)) l = [y] → f x = true → x ∈ l ↔ x = y.
Proof.
  intros Hf Hx. split.
  - intros Hin.
    assert (x ∈ filter (λ l, Is_true (f l)) l) as Hin'.
    { apply list_elem_of_filter. split; [by rewrite Hx|done]. }
    rewrite Hf in Hin'. by apply list_elem_of_singleton in Hin'.
  - intros ->.
    assert (y ∈ filter (λ l, Is_true (f l)) l) as Hin
      by (rewrite Hf; by left).
    by apply list_elem_of_filter in Hin as [_ ?].
Qed.

(** The toolkit import and the [baseQuery] line among the lines of the API
    file. *)
Lemma importLine_iff rt endpoints config (b : bool) :
  (if b then retryImportLine else plainImportLine)
  ∈ generateApiLines rt endpoints config
  ↔ existsb hasRetries endpoints = b.
Proof.
  rewrite (elem_of_filter_singleton isImportLine _ _ _
             (generateApiLines_importLine rt endpoints config)).
  2:{ by destruct b. }
  destruct b, (existsb hasRetries endpoints); split; try done;
    intros Heq; apply (f_equal String.length) in Heq; discriminate Heq.
Qed.

Lemma baseQueryLine_iff rt endpoints config (b : bool) :
  baseQueryLine b config ∈ generateApiLines rt endpoints config
  ↔ existsb hasRetries endpoints = b.
Proof.
  rewrite (elem_of_filter_singleton isBaseQueryLine _ _ _
             (generateApiLines_baseQueryLine rt endpoints config)).
  2:{ apply baseQueryLine_kind. }
  pose proof (baseQueryLine_differ config) as Hd.
  destruct b, (existsb hasRetries endpoints); split; try done; congruence.
Qed.

Lemma generateOnQueryStarted_withoutRetries rt ep :
  generateOnQueryStarted rt (withoutRetries ep) = generateOnQueryStarted rt ep.
Proof. reflexivity. Qed.

(** An endpoint definition with and without the retry count. *)
Lemma generateEndpointDef_withoutRetries rt ep :
  ∃ body,
    generateEndpointDef rt (withoutRetries ep) = body ++ [tabs 2 +:+ "}),"] ∧
    generateEndpointDef rt ep
    = body ++
      match maxRetries ep with
      | Some v => if isPositive v then [extraOptionsLine rt v] else []
      | None => []
      end ++ [tabs 2 +:+ "}),"].
Proof.
  unfold generateEndpointDef.
  rewrite generateOnQueryStarted_withoutRetries. cbn [withoutRetries
    name endpointType responseType argsType queryFnSource providesTagsSource
    invalidatesTagsSource optimisticSource maxRetries].
  match goal with
  | |- ∃ body, ?a1 ++ ?a2 ++ ?a3 ++ ?a4 ++ ?a5 ++ _ = _ ∧ _ =>
      exists (a1 ++ a2 ++ a3 ++ a4 ++ a5)
  end.
  split; by rewrite <-!app_assoc.
Qed.

(** C6: the lines of the data-access-surface artifact.  The import of the
    toolkit with [retry] and the [baseQuery] line that wraps the transport
    in [retry(..., { maxRetries: 0 })] are among them exactly when some
    descriptor carries a retry count above zero; the import without [retry]
    and the bare [baseQuery] line exactly when none does.  The definition of
    every descriptor is among the lines.  With a retry count above zero the
    definition is that of the same descriptor without a retry count, with
    the [extraOptions] line of this count put before its closing line; with
    no retry count, or one that is not above zero, it is that definition
    itself and has no line from [extraOptions] to a comma.  A count among
    the safe integers is printed with its decimal digits. *)
Theorem retry_transport_iff rt endpoints config :
  let lines := generateApiLines rt endpoints config in
  let transport :=
    match truthy (baseQuery config) with
    | Some source => source
    | None => "fetchBaseQuery({ baseUrl: " +:+ quoted (baseUrl config) +:+ " })"
    end in
  generateApiTs rt endpoints config = Js.join nl lines +:+ nl ∧
  (("import { createApi, fetchBaseQuery, retry } from " +:+
    quoted "@reduxjs/toolkit/query/react" +:+ ";") ∈ lines
   ↔ anyRetries endpoints) ∧
  ((tab +:+ "baseQuery: retry(" +:+ transport +:+ ", { maxRetries: 0 }),")
   ∈ lines
   ↔ anyRetries endpoints) ∧
  (("import { createApi, fetchBaseQuery } from " +:+
    quoted "@reduxjs/toolkit/query/react" +:+ ";") ∈ lines
   ↔ ¬ anyRetries endpoints) ∧
  ((tab +:+ "baseQuery: " +:+ transport +:+ ",") ∈ lines
   ↔ ¬ anyRetries endpoints) ∧
  (∀ ep, ep ∈ endpoints → generateEndpointDef rt ep ⊆ lines) ∧
  (∀ ep v,
     maxRetries ep = Some v → isPositive v = true →
     ∃ body,
       generateEndpointDef rt (withoutRetries ep)
       = body ++ [tabs 2 +:+ "}),"] ∧
       generateEndpointDef rt ep
       = body ++ [tabs 3 +:+ "extraOptions: { maxRetries: " +:+
                  numberToString rt v +:+ " },";
                  tabs 2 +:+ "}),"]) ∧
  (∀ ep,
     (∀ v, maxRetries ep = Some v → isPositive v = false) →
     generateEndpointDef rt ep = generateEndpointDef rt (withoutRetries ep) ∧
     ∀ rest, (tabs 3 +:+ "extraOptions" +:+ rest +:+ ",")
             ∉ generateEndpointDef rt ep) ∧
  (∀ n, (0 < n < 2 ^ 53)%Z → numberToString rt (Integer n) = pretty n).
Proof.
  intros lines transport. subst lines.
  assert (transport = baseTransport config) as -> by done.
  destruct (baseQueryLine_forms config) as [Ht Hf].
  pose proof (importLine_iff rt endpoints config true) as Hri.
  pose proof (importLine_iff rt endpoints config false) as Hpi.
  pose proof (baseQueryLine_iff rt endpoints config true) as Hrb.
  pose proof (baseQueryLine_iff rt endpoints config false) as Hpb.
  rewrite Ht in Hrb. rewrite Hf in Hpb.
  cbn iota in Hri, Hpi.
  rewrite <-existsb_hasRetries.
  split_and!.
  - done.
  - exact Hri.
  - exact Hrb.
  - rewrite not_true_iff_false. exact Hpi.
  - rewrite not_true_iff_false. exact Hpb.
  - intros ep Hep l Hl. unfold generateApiLines.
    rewrite !elem_of_app. right. right. right. left.
    apply list_elem_of_In, in_concat. exists (generateEndpointDef rt ep).
    split; apply list_elem_of_In; [|done]. by apply list_elem_of_fmap_2.
  - intros ep v Hv Hpos.
    destruct (generateEndpointDef_withoutRetries rt ep) as (body & Hb & He).
    exists body. split; [done|]. by rewrite He, Hv, Hpos.
  - intros ep Hnone.
    destruct (generateEndpointDef_withoutRetries rt ep) as (body & Hb & He).
    pose proof (generateEndpointDef_extraOptions rt ep) as Hx.
    assert (match maxRetries ep with
            | Some v => if isPositive v then [extraOptionsLine rt v] else []
            | None => []
            end = []) as Hnil.
    { destruct (maxRetries ep) as [v|]; [|done]. by rewrite (Hnone v). }
    rewrite Hnil in He, Hx. split; [by rewrite He, Hb|].
    intros rest Hin.
    assert (tabs 3 +:+ "extraOptions" +:+ rest +:+ ","
            ∈ filter (λ l, Is_true (isExtraOptionsLine l))
                     (generateEndpointDef rt ep)) as Hin'.
    { apply list_elem_of_filter. split; [|done].
      apply Is_true_true. unfold isExtraOptionsLine.
      apply andb_true_iff. split; [reflexivity|].
      unfold endsWithChar. by rewrite !lastChar_app. }
    rewrite Hx in Hin'. by apply elem_of_nil in Hin'.
  - intros n Hn. unfold numberToString.
    by rewrite (proj2 (Z.ltb_lt _ _)) by lia.
Qed.

(** ** Worlds *)

Lemma extend_nil w : extend w [] = w.
Proof. destruct w. unfold extend. simpl. by rewrite app_nil_r. Qed.

Lemma extend_extend w a b : extend (extend w a) b = extend w (a ++ b).
Proof. unfold extend. simpl. by rewrite app_assoc. Qed.

Section build_facts.
Context (rt : Runtime) (config : ResolvedConfig).

Lemma scanEndpointFiles_eq w :
  scanEndpointFiles rt config w = Ok (scannedFiles rt config w) w.
Proof.
  unfold scanEndpointFiles, scannedFiles. by destruct (negb _).
Qed.

Lemma scannedFiles_extend w evs :
  scannedFiles rt config (extend w evs) = scannedFiles rt config w.
Proof. done. Qed.

Lemma loadManifest_eq w :
  loadManifest rt config w
  = Ok (loadedManifest rt config (w_files w))
       (extend w [ReadFile (manifestPath config)]).
Proof.
  unfold loadManifest, loadedManifest, try_catch, readFileSync.
  unfold mbind, M_bind, bind.
  destruct (w_files w !! manifestPath config) as [content|]; [|done].
  by destruct (JSON_parse rt content).
Qed.

(** The construction of the project. *)
Lemma newProject_cases w :
  (projectLoads rt config w ∧
   newProject rt config w
   = Ok tt (extend w [ReadFile (tsConfigFilePath rt config)])) ∨
  (¬ projectLoads rt config w ∧
   ∃ e, newProject rt config w
        = Throw e (extend w [ReadFile (tsConfigFilePath rt config)])).
Proof.
  unfold newProject, projectLoads.
  destruct (w_files w !! tsConfigFilePath rt config) as [text|] eqn:Hc.
  - destruct (tsconfig_error rt text) eqn:He.
    + right. split; [|by eauto]. intros (t & [= <-] & ?). congruence.
    + left. eauto.
  - right. split; [|by eauto]. by intros (t & [=] & ?).
Qed.

Lemma runGenerate_loads w :
  projectLoads rt config w →
  runGenerate rt config w
  = generateIfChanged rt config
      (extend w [ReadFile (tsConfigFilePath rt config)]).
Proof.
  intros Hl. unfold runGenerate, mbind, M_bind, bind.
  by destruct (newProject_cases w) as [[_ ->]|[? _]].
Qed.

Lemma runGenerate_Ok w w1 :
  runGenerate rt config w = Ok tt w1 →
  projectLoads rt config w ∧
  generateIfChanged rt config
    (extend w [ReadFile (tsConfigFilePath rt config)]) = Ok tt w1.
Proof.
  unfold runGenerate, mbind, M_bind, bind.
  by destruct (newProject_cases w) as [[? ->]|[_ [e ->]]].
Qed.

(** The run that finds no endpoint file. *)
Lemma generateIfChanged_empty_scan w :
  scanEndpointFiles rt config w = Ok [] w →
  generateIfChanged rt config w
  = Ok tt (extend w [Log "ERTK: No endpoint files found."]).
Proof.
  intros Hscan. unfold generateIfChanged, mbind, M_bind, bind. by rewrite Hscan.
Qed.

(** C10: when the project is constructed and the scan finds no endpoint
    source file, [runGenerate] logs that and returns: after the read of the
    project's configuration file the manifest is neither read, compared nor
    saved, nothing is extracted or written, and every file (a manifest and
    artifacts of an earlier run among them) and directory is as it was
    before the run. *)
Theorem runGenerate_no_files w :
  projectLoads rt config w →
  scanEndpointFiles rt config w = Ok [] w →
  ∃ w',
    runGenerate rt config w = Ok tt w' ∧
    w_files w' = w_files w ∧ w_dirs w' = w_dirs w ∧
    w_trace w' = w_trace w ++ [ReadFile (tsConfigFilePath rt config);
                               Log "ERTK: No endpoint files found."].
Proof.
  intros Hl Hscan. eexists. rewrite runGenerate_loads by done.
  split; [apply generateIfChanged_empty_scan|].
  - rewrite scanEndpointFiles_eq in *. injection Hscan as Hs.
    by rewrite scannedFiles_extend, Hs.
  - simpl. by rewrite <-app_assoc.
Qed.

Lemma manifestStep_Ok acc f w m w' :
  manifestStep rt config acc f w = Ok m w' →
  ∃ c, w_files w !! path_join rt (endpointsDir config) f = Some c ∧
       m = Js.map_set acc f (md5_hex rt c) ∧
       w' = extend w [ReadFile (path_join rt (endpointsDir config) f)].
Proof.
  unfold manifestStep, hashFile, readFileSync, mbind, M_bind, bind, mret, M_ret, ret.
  destruct (w_files w !! _) as [c|]; [|done]. intros [= <- <-]. eauto.
Qed.

Lemma manifestStep_agree acc f w2 c :
  w_files w2 !! path_join rt (endpointsDir config) f = Some c →
  manifestStep rt config acc f w2
  = Ok (Js.map_set acc f (md5_hex rt c))
       (extend w2 [ReadFile (path_join rt (endpointsDir config) f)]).
Proof.
  intros Hc.
  unfold manifestStep, hashFile, readFileSync, mbind, M_bind, bind, mret, M_ret, ret.
  by rewrite Hc.
Qed.

Lemma buildManifest_loop_frame files acc w m w' :
  forEachM files (manifestStep rt config) acc w = Ok m w' →
  w' = extend w (manifestReads rt config files) ∧
  (acc ≠ [] ∨ files ≠ [] → m ≠ []) ∧
  ∀ w2,
    (∀ f, f ∈ files →
          w_files w2 !! path_join rt (endpointsDir config) f
          = w_files w !! path_join rt (endpointsDir config) f) →
    forEachM files (manifestStep rt config) acc w2 = Ok m (extend w2 (manifestReads rt config files)).
Proof.
  revert acc w. induction files as [|f files IH]; intros acc w; simpl.
  - intros [= <- <-]. rewrite extend_nil. split_and!; [done|naive_solver|].
    intros w2 _. by rewrite extend_nil.
  - unfold mbind, M_bind, bind.
    destruct (manifestStep rt config acc f w) as [acc' w1|] eqn:Hstep; [|done].
    apply manifestStep_Ok in Hstep as (c & Hc & -> & ->).
    intros (-> & Hne & Hagree)%IH. rewrite extend_extend. split_and!; [done| |].
    + intros _. apply Hne. left. by destruct acc as [|[??]?]; simpl; [|case_decide].
    + intros w2 Hw2. rewrite (manifestStep_agree _ _ w2 c).
      2:{ rewrite Hw2; [done|by left]. }
      rewrite Hagree, extend_extend; [done|].
      intros f' Hf'. simpl. apply Hw2. by right.
Qed.

Lemma buildManifest_frame files w m w' :
  buildManifest rt files config w = Ok m w' →
  w' = extend w (manifestReads rt config files) ∧
  (files ≠ [] → m ≠ []) ∧
  ∀ w2,
    (∀ f, f ∈ files →
          w_files w2 !! path_join rt (endpointsDir config) f
          = w_files w !! path_join rt (endpointsDir config) f) →
    buildManifest rt files config w2 = Ok m (extend w2 (manifestReads rt config files)).
Proof.
  intros (? & Hne & ?)%buildManifest_loop_frame. split_and!; [done| |done].
  intros ?. apply Hne. by right.
Qed.

Lemma manifestsMatch_pure a b w r w' :
  manifestsMatch a b w = Ok r w' →
  w' = w ∧ ∀ w2, manifestsMatch a b w2 = Ok r w2.
Proof.
  unfold manifestsMatch, objectKeys, mbind, M_bind, bind, mret, M_ret, ret, throw.
  destruct (ownEntries a) as [ea|]; [|done].
  destruct (ownEntries b) as [eb|]; [|done].
  destruct (negb _); intros [= <- <-]; done.
Qed.

Lemma manifestsMatch_empty m w :
  m ≠ [] → manifestsMatch (JObject []) (manifestValue m) w = Ok false w.
Proof.
  intros Hm.
  unfold manifestsMatch, objectKeys, mbind, M_bind, bind, mret, M_ret, ret.
  simpl. unfold Js.sort at 1. simpl.
  rewrite bool_decide_eq_false_2; [done|].
  intros Hlen. symmetry in Hlen. apply length_zero_iff_nil in Hlen.
  unfold Js.sort in Hlen.
  pose proof (merge_sort_Permutation Js.codeUnitLe
                (Js.map_keys (prod_map id JString <$> m))) as Hp.
  rewrite Hlen in Hp. apply Permutation_nil in Hp.
  destruct m; [done|]. discriminate Hp.
Qed.

(** A persisted manifest that cannot be read or does not parse loads as the
    empty map. *)
Lemma loadManifest_corrupt w :
  manifestCorrupt rt config w →
  loadManifest rt config w
  = Ok (JObject []) (extend w [ReadFile (manifestPath config)]).
Proof.
  intros Hc. rewrite loadManifest_eq. f_equal.
  unfold manifestCorrupt in Hc. unfold loadedManifest.
  destruct (w_files w !! manifestPath config); [by rewrite Hc|done].
Qed.

Lemma strictEquals_manifestValue m k :
  strictEquals (Js.map_get (prod_map id JString <$> m) k)
               (Js.map_get (prod_map id JString <$> m) k) = true.
Proof.
  induction m as [|[k0 v0] m IH]; csimpl; [done|].
  case_decide; [|done]. simpl. by apply bool_decide_eq_true.
Qed.

Lemma manifestsMatchLoop_refl m keys :
  manifestsMatchLoop (prod_map id JString <$> m) (prod_map id JString <$> m)
                     keys keys = true.
Proof.
  induction keys as [|k keys IH]; simpl; [done|].
  rewrite bool_decide_eq_true_2 by done. simpl.
  by rewrite strictEquals_manifestValue.
Qed.

Lemma manifestsMatch_refl m w :
  manifestsMatch (manifestValue m) (manifestValue m) w = Ok true w.
Proof.
  unfold manifestsMatch, objectKeys, mbind, M_bind, bind, mret, M_ret, ret.
  simpl. rewrite bool_decide_eq_true_2 by done. simpl.
  by rewrite manifestsMatchLoop_refl.
Qed.

(** The run that finds the manifest matching. *)
Lemma generateIfChanged_nothing_changed w m w' :
  scannedFiles rt config w ≠ [] →
  buildManifest rt (scannedFiles rt config w) config
                (extend w [ReadFile (manifestPath config)]) = Ok m w' →
  manifestsMatch (loadedManifest rt config (w_files w)) (manifestValue m) w'
  = Ok true w' →
  generateIfChanged rt config w
  = Ok tt (extend w ([ReadFile (manifestPath config)] ++
                     manifestReads rt config (scannedFiles rt config w) ++
                     [Log "ERTK: Nothing changed."])).
Proof.
  intros Hfiles Hb Hm.
  unfold generateIfChanged, mbind, M_bind, bind.
  rewrite scanEndpointFiles_eq, decide_False by done.
  rewrite loadManifest_eq, Hb, Hm.
  apply buildManifest_frame in Hb as (-> & _).
  unfold console_log, emit. by rewrite !extend_extend.
Qed.

Lemma passive_reads files :
  Forall (λ e, passive e = true) (manifestReads rt config files).
Proof. unfold manifestReads. apply Forall_fmap, Forall_true. done. Qed.

(** What a completed rebuild leaves in the manifest file. *)
Lemma rebuildAll_saves m w w1 :
  rebuildAll rt config m w = Ok tt w1 →
  w_files w1 !! manifestPath config = Some (JSON_stringify rt m +:+ nl).
Proof.
  unfold rebuildAll, mbind, M_bind, bind.
  destruct (parseAllEndpoints rt config w) as [cache wc|]; [|done].
  destruct (generate rt _ config wc) as [routeCount wd|]; [|done].
  unfold saveManifest, writeFileSync, console_log, emit. simpl.
  intros [= <-]. simpl. apply lookup_insert_eq.
Qed.

(** C2: after a completed one-shot generation, and with the endpoint source
    files as they were (and a manifest that reads back as it was written),
    a second run only reads and logs: it extracts nothing, writes nothing,
    leaves every file, the manifest among them, as it is, and, when there is
    an endpoint file at all, ends with the report that nothing changed. *)
Theorem runGenerate_idempotent w0 w1 :
  runGenerate rt config w0 = Ok tt w1 →
  sourcesUnchanged rt config w0 w1 →
  (∀ m wb,
     buildManifest rt (scannedFiles rt config w0) config w0 = Ok m wb →
     JSON_parse rt (JSON_stringify rt m +:+ nl) = Some (manifestValue m)) →
  ∃ evs,
    runGenerate rt config w1 = Ok tt (extend w1 evs) ∧
    Forall (λ e, passive e = true) evs ∧
    (scannedFiles rt config w0 ≠ [] →
     last evs = Some (Log "ERTK: Nothing changed.")).
Proof.
  intros Hrun (Hts & Hscan & Hsame) Hjson.
  apply runGenerate_Ok in Hrun as [(text & Htext & Herr) Hrun].
  assert (projectLoads rt config w1) as Hl1.
  { exists text. by rewrite Hts. }
  rewrite runGenerate_loads by done.
  set (files := scannedFiles rt config w0) in *.
  set (ts := tsConfigFilePath rt config) in *.
  unfold generateIfChanged, mbind, M_bind, bind in Hrun.
  rewrite scanEndpointFiles_eq in Hrun.
  change (scannedFiles rt config (extend w0 [ReadFile ts])) with files in Hrun.
  destruct (decide (files = [])) as [Hnil|Hne].
  { (* no endpoint file, before and after *)
    exists [ReadFile ts; Log "ERTK: No endpoint files found."].
    split_and!; [|by repeat constructor|done].
    rewrite generateIfChanged_empty_scan; [by rewrite extend_extend|].
    rewrite scanEndpointFiles_eq.
    change (scannedFiles rt config (extend w1 [ReadFile ts]))
      with (scannedFiles rt config w1).
    by rewrite Hscan, Hnil. }
  rewrite loadManifest_eq in Hrun.
  destruct (buildManifest rt files config
              (extend (extend w0 [ReadFile ts]) [ReadFile (manifestPath config)]))
    as [m wb|] eqn:Hb; [|done].
  pose proof Hb as (Hwb & _ & Hframe)%buildManifest_frame.
  destruct (manifestsMatch _ _ wb) as [same wb'|] eqn:Hm; [|done].
  pose proof Hm as [-> Hpure]%manifestsMatch_pure.
  exists ([ReadFile ts] ++ [ReadFile (manifestPath config)] ++
          manifestReads rt config files ++ [Log "ERTK: Nothing changed."]).
  split_and!.
  - rewrite <-extend_extend. subst files.
    set (w1' := extend w1 [ReadFile ts]).
    assert (scannedFiles rt config w1' = scannedFiles rt config w0) as Hscan'
      by done.
    rewrite <-Hscan'.
    apply (generateIfChanged_nothing_changed w1' m
             (extend (extend w1' [ReadFile (manifestPath config)])
                     (manifestReads rt config (scannedFiles rt config w1')))).
    + by rewrite Hscan'.
    + rewrite Hscan'. apply Hframe. intros f Hf. simpl. by apply Hsame.
    + change (w_files w1') with (w_files w1). destruct same.
      * (* the first run found nothing changed: the files are the same *)
        unfold console_log, emit in Hrun.
        assert (w_files w1 = w_files w0) as -> by (injection Hrun as <-; by subst wb).
        apply Hpure.
      * (* the first run rebuilt and saved the manifest *)
        apply rebuildAll_saves in Hrun as Hsaved.
        unfold loadedManifest. rewrite Hsaved.
        rewrite (Hjson m (extend w0 (manifestReads rt config
                                       (scannedFiles rt config w0)))).
        -- apply manifestsMatch_refl.
        -- apply Hframe. by intros.
  - apply Forall_cons_2; [done|].
    apply Forall_app. split; [by repeat constructor|].
    apply Forall_app. split; [apply passive_reads|by repeat constructor].
  - intros _. by rewrite !app_assoc, last_snoc.
Qed.

End build_facts.

Lemma runGenerate_no_files_witness :
  ∃ w',
    runGenerate Sample.runtime Sample.config Sample.emptiedProject = Ok tt w' ∧
    w_files w' = w_files Sample.emptiedProject ∧
    w_dirs w' = w_dirs Sample.emptiedProject ∧
    w_trace w'
    = w_trace Sample.emptiedProject ++
      [ReadFile (tsConfigFilePath Sample.runtime Sample.config);
       Log "ERTK: No endpoint files found."].
Proof.
  apply (runGenerate_no_files Sample.runtime Sample.config Sample.emptiedProject).
  - exists "{}". split; vm_compute; reflexivity.
  - vm_compute. reflexivity.
Defined.

Lemma runGenerate_idempotent_witness :
  ∃ evs,
    runGenerate Sample.runtime Sample.config afterFirstRun
    = Ok tt (extend afterFirstRun evs) ∧
    Forall (λ e, passive e = true) evs ∧
    (scannedFiles Sample.runtime Sample.config Sample.project ≠ [] →
     last evs = Some (Log "ERTK: Nothing changed.")).
Proof.
  apply (runGenerate_idempotent Sample.runtime Sample.config Sample.project
           afterFirstRun).
  - vm_compute. reflexivity.
  - split_and!.
    + vm_compute. reflexivity.
    + vm_compute. reflexivity.
    + intros f Hf. vm_compute in Hf.
      apply list_elem_of_In in Hf. simpl in Hf.
      destruct Hf as [<-|[<-|[]]]; vm_compute; reflexivity.
  - intros m wb Hb. vm_compute in Hb. injection Hb as <- _.
    vm_compute. reflexivity.
Defined.

(** ** Discovery order *)

Lemma sort_Permutation l1 l2 : l1 ≡ₚ l2 → Js.sort l1 = Js.sort l2.
Proof.
  intros Hp. unfold Js.sort.
  apply (Sorted_unique Js.codeUnitLe); [apply Sorted_merge_sort, _..|].
  by rewrite !merge_sort_Permutation.
Qed.

Lemma filterAndSort_Permutation l1 l2 :
  l1 ≡ₚ l2 → filterAndSort l1 = filterAndSort l2.
Proof. intros Hp. unfold filterAndSort. apply sort_Permutation. by rewrite Hp. Qed.

Section discovery.
Context (rt : Runtime)
        (listing : gmap string string → gset string → string → list string)
        (config : ResolvedConfig).
Hypothesis listing_perm : ∀ fs ds d, listing fs ds d ≡ₚ readdirSync rt fs ds d.

Lemma scanEndpointFiles_listing w :
  scanEndpointFiles (withListing rt listing) config w
  = scanEndpointFiles rt config w.
Proof.
  unfold scanEndpointFiles. simpl. destruct (negb _); [done|].
  by rewrite (filterAndSort_Permutation _ _ (listing_perm _ _ _)).
Qed.

Lemma parseAllEndpoints_listing w :
  parseAllEndpoints (withListing rt listing) config w
  = parseAllEndpoints rt config w.
Proof.
  unfold parseAllEndpoints, mbind, M_bind, bind.
  by rewrite scanEndpointFiles_listing.
Qed.

Lemma rebuildAll_listing m w :
  rebuildAll (withListing rt listing) config m w = rebuildAll rt config m w.
Proof.
  unfold rebuildAll, mbind, M_bind, bind.
  by rewrite parseAllEndpoints_listing.
Qed.

Lemma runGenerate_listing w :
  runGenerate (withListing rt listing) config w = runGenerate rt config w.
Proof.
  unfold runGenerate, mbind, M_bind, bind.
  change (newProject (withListing rt listing) config w)
    with (newProject rt config w).
  destruct (newProject rt config w) as [[] w0|]; [|done].
  unfold generateIfChanged, mbind, M_bind, bind.
  rewrite scanEndpointFiles_listing.
  destruct (scanEndpointFiles rt config w0) as [files w1|]; [|done].
  case_decide; [done|].
  change (loadManifest (withListing rt listing) config w1)
    with (loadManifest rt config w1).
  destruct (loadManifest rt config w1) as [old w2|]; [|done].
  change (buildManifest (withListing rt listing) files config w2)
    with (buildManifest rt files config w2).
  destruct (buildManifest rt files config w2) as [m w3|]; [|done].
  destruct (manifestsMatch _ _ w3) as [[] w4|]; [done| |done].
  apply rebuildAll_listing.
Qed.

End discovery.

(** C1: with the same files, contents and configuration, an enumeration of
    the endpoint directory that is a permutation of another yields the same
    scan, the same extraction and the same generation: every artifact that
    is written, the manifest and the report are identical, byte for byte. *)
Theorem discovery_order_irrelevant rt listing config w :
  (∀ fs ds d, listing fs ds d ≡ₚ readdirSync rt fs ds d) →
  scanEndpointFiles (withListing rt listing) config w
  = scanEndpointFiles rt config w ∧
  extractAndGenerate (withListing rt listing) config w
  = extractAndGenerate rt config w ∧
  runGenerate (withListing rt listing) config w = runGenerate rt config w.
Proof.
  intros Hperm. split_and!.
  - by apply scanEndpointFiles_listing.
  - unfold extractAndGenerate, mbind, M_bind, bind.
    by rewrite parseAllEndpoints_listing.
  - by apply runGenerate_listing.
Qed.

Lemma discovery_order_irrelevant_witness :
  let listing := λ fs ds d, reverse (readdirSync Sample.runtime fs ds d) in
  scanEndpointFiles (withListing Sample.runtime listing) Sample.config
                    Sample.project
  = scanEndpointFiles Sample.runtime Sample.config Sample.project ∧
  extractAndGenerate (withListing Sample.runtime listing) Sample.config
                     Sample.project
  = extractAndGenerate Sample.runtime Sample.config Sample.project ∧
  runGenerate (withListing Sample.runtime listing) Sample.config Sample.project
  = runGenerate Sample.runtime Sample.config Sample.project.
Proof.
  intros listing.
  apply (discovery_order_irrelevant Sample.runtime listing Sample.config
           Sample.project).
  intros fs ds d. apply reverse_Permutation.
Defined.

(** * More of the code *)

(** ** Scanning *)

Lemma endsWith_replace_backslashes s :
  Js.endsWith s ".ts" = true → Js.endsWith (Js.replace_backslashes s) ".ts" = true.
Proof.
  induction s as [|c s IH]; [done|].
  destruct (decide (String c s = ".ts")) as [Hs|Hs].
  - by rewrite Hs.
  - cbn [Js.endsWith Js.replace_backslashes].
    rewrite decide_False by done. intros He.
    case_decide; [done|]. by apply IH.
Qed.

Lemma noBackslash_replace s : noBackslash (Js.replace_backslashes s) = true.
Proof.
  induction s as [|c s IH]; [done|]. simpl. rewrite IH.
  case_decide; [done|]. by rewrite bool_decide_eq_false_2.
Qed.

Example codeUnitLe_examples :
  Js.codeUnitLe "tasks/create.ts" "tasks/list.ts" ∧
  Js.codeUnitLe "Z" "a" ∧ ¬ Js.codeUnitLe "a" "Z" ∧
  Js.codeUnitLe "a" "ab" ∧
  (* U+1F600, a pair of surrogates, comes before U+FF5E *)
  Js.codeUnitLe (String "240" (String "159" (String "152" (String "128" ""))))
                (String "239" (String "189" (String "158" ""))) ∧
  ¬ Js.codeUnitLe (String "239" (String "189" (String "158" "")))
                  (String "240" (String "159" (String "152" (String "128" "")))).
Proof. split_and!; compute_done. Qed.

(** X1: what the scan returns, it returns without touching the world: a
    list that ascends in the order of the code units and holds exactly the
    entries of the directory listing that end in [.ts], with backslashes
    turned into slashes and as often as they are listed; every returned
    name ends in [.ts] and has no backslash; a missing directory gives the
    empty list. *)
Theorem scanEndpointFiles_sound rt config w files w' :
  scanEndpointFiles rt config w = Ok files w' →
  w' = w ∧
  Sorted Js.codeUnitLe files ∧
  Forall (λ f, Js.endsWith f ".ts" = true ∧ noBackslash f = true) files ∧
  (existsSync rt (w_files w) (w_dirs w) (endpointsDir config) = false →
   files = []) ∧
  (existsSync rt (w_files w) (w_dirs w) (endpointsDir config) = true →
   files ≡ₚ Js.replace_backslashes <$>
              filter (λ f, Is_true (Js.endsWith f ".ts"))
                (readdirSync rt (w_files w) (w_dirs w) (endpointsDir config))).
Proof.
  rewrite scanEndpointFiles_eq. intros [= <- <-].
  unfold scannedFiles, filterAndSort, Js.sort.
  destruct (existsSync rt _ _ _); simpl.
  - split_and!; [done| | |done|].
    + apply Sorted_merge_sort, _.
    + rewrite merge_sort_Permutation. apply Forall_fmap, Forall_forall.
      intros f [Hf _]%list_elem_of_filter. simpl.
      split; [|apply noBackslash_replace].
      apply endsWith_replace_backslashes. by apply Is_true_true.
    + intros _. apply merge_sort_Permutation.
  - split_and!; [done|constructor|constructor|done|done].
Qed.

Lemma scanEndpointFiles_sound_witness :
  Sample.project = Sample.project ∧
  Sorted Js.codeUnitLe ["tasks/create.ts"; "tasks/list.ts"] ∧
  Forall (λ f, Js.endsWith f ".ts" = true ∧ noBackslash f = true)
         ["tasks/create.ts"; "tasks/list.ts"] ∧
  (existsSync Sample.runtime (w_files Sample.project) (w_dirs Sample.project)
              (endpointsDir Sample.config) = false →
   ["tasks/create.ts"; "tasks/list.ts"] = []) ∧
  (existsSync Sample.runtime (w_files Sample.project) (w_dirs Sample.project)
              (endpointsDir Sample.config) = true →
   ["tasks/create.ts"; "tasks/list.ts"]
   ≡ₚ Js.replace_backslashes <$>
        filter (λ f, Is_true (Js.endsWith f ".ts"))
          (readdirSync Sample.runtime (w_files Sample.project)
                       (w_dirs Sample.project) (endpointsDir Sample.config))).
Proof.
  apply (scanEndpointFiles_sound Sample.runtime Sample.config Sample.project
           ["tasks/create.ts"; "tasks/list.ts"] Sample.project).
  vm_compute. reflexivity.
Defined.

(** ** Writing and the manifest *)

Lemma writeIfChanged_cases rt p c w :
  (w_files w !! p = Some c ∧
   writeIfChanged rt p c w = Ok false (extend w [ReadFile p])) ∨
  (w_files w !! p ≠ Some c ∧
   writeIfChanged rt p c w
   = Ok true {| w_files := <[p := c]> (w_files w);
                w_dirs := {[path_dirname rt p]} ∪ w_dirs w;
                w_trace := w_trace w ++ [ReadFile p; Mkdir (path_dirname rt p);
                                         WriteFile p c] |}).
Proof.
  unfold writeIfChanged, try_catch, readFileSync, mkdirSync, writeFileSync.
  unfold mbind, M_bind, bind, mret, M_ret, ret.
  destruct (w_files w !! p) as [existing|] eqn:Hp; simpl.
  - case_bool_decide as He; [subst; by left|right].
    split; [congruence|]. simpl. by rewrite <-!app_assoc.
  - right. split; [done|]. simpl. by rewrite <-!app_assoc.
Qed.

(** X2: [writeIfChanged] never throws and leaves the file with the given
    content and every other file as it was; it answers false exactly when
    the file already had that content, and then it has only read; when it
    answers true it has made the directory and written once. *)
Theorem writeIfChanged_idempotent_write rt p c w :
  ∃ b w',
    writeIfChanged rt p c w = Ok b w' ∧
    w_files w' = <[p := c]> (w_files w) ∧
    (b = false ↔ w_files w !! p = Some c) ∧
    (b = false → w' = extend w [ReadFile p]) ∧
    (b = true →
     w_trace w' = w_trace w ++ [ReadFile p; Mkdir (path_dirname rt p);
                                WriteFile p c]) ∧
    writeIfChanged rt p c w' = Ok false (extend w' [ReadFile p]).
Proof.
  destruct (writeIfChanged_cases rt p c w) as [[Hp ->]|[Hp ->]];
    eexists _, _; (split; [done|]); simpl.
  - split_and!; [by rewrite insert_id|done|done|done|].
    destruct (writeIfChanged_cases rt p c (extend w [ReadFile p]))
      as [[_ ->]|[[] _]]; done.
  - split_and!; [done|naive_solver|done|done|].
    match goal with |- writeIfChanged rt p c ?w1 = _ =>
      destruct (writeIfChanged_cases rt p c w1) as [[_ ->]|[[] _]]; [done|]
    end.
    simpl. apply lookup_insert_eq.
Qed.

Section manifest_facts.
Context (rt : Runtime) (config : ResolvedConfig).

Lemma buildManifest_loop_entries files acc w m w' :
  forEachM files (manifestStep rt config) acc w = Ok m w' →
  ∀ k, Js.map_get m k
       = match last (filter (λ f, f = k) files) with
         | Some _ =>
             md5_hex rt <$> w_files w !! path_join rt (endpointsDir config) k
         | None => Js.map_get acc k
         end.
Proof.
  revert acc w. induction files as [|f files IH]; intros acc w; simpl.
  - by intros [= <- <-].
  - unfold mbind, M_bind, bind.
    destruct (manifestStep rt config acc f w) as [acc' w1|] eqn:Hstep; [|done].
    apply manifestStep_Ok in Hstep as (c & Hc & -> & ->).
    intros Hrest k. rewrite (IH _ _ Hrest k). simpl.
    rewrite filter_cons. case_decide as Hk.
    + subst k. rewrite last_cons. destruct (last _); [done|].
      by rewrite map_get_set_eq, Hc.
    + destruct (last _); [done|]. by rewrite map_get_set, decide_False.
Qed.

Lemma buildManifest_loop_NoDup files acc w m w' :
  forEachM files (manifestStep rt config) acc w = Ok m w' →
  NoDup (Js.map_keys acc) → NoDup (Js.map_keys m).
Proof.
  revert acc w. induction files as [|f files IH]; intros acc w; simpl.
  - by intros [= <- <-].
  - unfold mbind, M_bind, bind.
    destruct (manifestStep rt config acc f w) as [acc' w1|] eqn:Hstep; [|done].
    apply manifestStep_Ok in Hstep as (c & Hc & -> & ->).
    intros Hrest Hacc. apply (IH _ _ Hrest). by apply map_set_NoDup.
Qed.

Lemma buildManifest_loop_throws files acc w :
  (∃ e w', forEachM files (manifestStep rt config) acc w = Throw e w') ↔
  ∃ f, f ∈ files ∧ w_files w !! path_join rt (endpointsDir config) f = None.
Proof.
  revert acc w. induction files as [|f files IH]; intros acc w; simpl.
  - split; [by intros (? & ? & ?)|by intros (? & ?%elem_of_nil & _)].
  - unfold mbind, M_bind, bind.
    destruct (w_files w !! path_join rt (endpointsDir config) f) as [c|] eqn:Hc.
    + rewrite (manifestStep_agree rt config acc f w c Hc).
      rewrite IH. simpl. split.
      * intros (g & ? & ?). exists g. split; [by right|done].
      * intros (g & [->|?]%elem_of_cons & Hg); [congruence|eauto].
    + split; [intros _; exists f; split; [by left|done]|intros _].
      unfold manifestStep, hashFile, readFileSync, mbind, M_bind, bind.
      rewrite Hc. eauto.
Qed.

(** X3: [buildManifest] gives a manifest whose keys are exactly the given
    files, each once, and whose value at a file is the digest of the content
    read from the endpoint directory; it only reads; and it throws exactly
    when one of the files cannot be read. *)
Theorem buildManifest_entries files w :
  (∀ m w',
     buildManifest rt files config w = Ok m w' →
     w' = extend w (manifestReads rt config files) ∧
     NoDup (Js.map_keys m) ∧
     (∀ f, f ∈ Js.map_keys m ↔ f ∈ files) ∧
     ∀ f, f ∈ files →
          ∃ c, w_files w !! path_join rt (endpointsDir config) f = Some c ∧
               Js.map_get m f = Some (md5_hex rt c)) ∧
  ((∃ e w', buildManifest rt files config w = Throw e w') ↔
   ∃ f, f ∈ files ∧ w_files w !! path_join rt (endpointsDir config) f = None).
Proof.
  split; [|apply buildManifest_loop_throws].
  intros m w' Hb.
  pose proof (buildManifest_loop_entries _ _ _ _ _ Hb) as Hget.
  assert (∀ f, f ∈ files →
               ∃ c, w_files w !! path_join rt (endpointsDir config) f = Some c)
    as Hread.
  { intros f Hf.
    destruct (w_files w !! path_join rt (endpointsDir config) f) eqn:Hc; [eauto|].
    assert (∃ e w', buildManifest rt files config w = Throw e w') as (? & ? & Ht).
    { apply buildManifest_loop_throws. eauto. }
    congruence. }
  assert (∀ f, f ∈ files → is_Some (last (filter (λ g, g = f) files))) as Hlast.
  { intros f Hf. destruct (last _) eqn:Hl; [eauto|].
    apply last_None in Hl.
    assert (f ∈ filter (λ g, g = f) files) as Hin by by apply list_elem_of_filter.
    rewrite Hl in Hin. by apply elem_of_nil in Hin. }
  split_and!.
  - by apply buildManifest_frame in Hb as [? _].
  - apply (buildManifest_loop_NoDup _ _ _ _ _ Hb). constructor.
  - intros f. split.
    + intros Hf. destruct (decide (f ∈ files)) as [|Hnot]; [done|].
      exfalso. assert (Js.map_get m f = None) as Hn%map_get_None; [|done].
      rewrite Hget. destruct (last _) as [g|] eqn:Hl; [|done].
      apply last_Some_elem_of, list_elem_of_filter in Hl as [-> ?]. done.
    + intros Hf. destruct (decide (f ∈ Js.map_keys m)) as [|Hnot]; [done|].
      exfalso. apply map_get_None in Hnot. rewrite Hget in Hnot.
      destruct (Hlast f Hf) as [g Hg]. rewrite Hg in Hnot.
      destruct (Hread f Hf) as [c Hc]. by rewrite Hc in Hnot.
  - intros f Hf. destruct (Hread f Hf) as [c Hc]. exists c. split; [done|].
    rewrite Hget. destruct (Hlast f Hf) as [g ->]. by rewrite Hc.
Qed.

End manifest_facts.

(** ** Comparing manifests *)

Lemma manifestValue_get m k :
  Js.map_get (prod_map id JString <$> m) k = JString <$> Js.map_get m k.
Proof.
  induction m as [|[k0 v0] m IH]; csimpl; [done|]. by case_decide.
Qed.

Lemma manifestValue_keys (m : list (string * string)) :
  Js.map_keys (prod_map id JString <$> m) = Js.map_keys m.
Proof.
  unfold Js.map_keys. induction m as [|[k0 v0] m IH]; csimpl; [done|].
  by rewrite IH.
Qed.

Lemma elem_of_map_keys {V} (m : list (string * V)) k :
  k ∈ Js.map_keys m ↔ is_Some (Js.map_get m k).
Proof.
  destruct (Js.map_get m k) eqn:Hg.
  - split; [eauto|intros _].
    destruct (decide (k ∈ Js.map_keys m)) as [|Hn%map_get_None]; [done|congruence].
  - apply map_get_None in Hg. split; [done|by intros [??]].
Qed.

Lemma manifestsMatchLoop_true a b keysA keysB :
  length keysA = length keysB →
  manifestsMatchLoop (prod_map id JString <$> a) (prod_map id JString <$> b)
                     keysA keysB = true
  ↔ keysA = keysB ∧ ∀ k, k ∈ keysA → Js.map_get a k = Js.map_get b k.
Proof.
  revert keysB. induction keysA as [|ka keysA IH]; intros [|kb keysB] Hlen;
    simplify_eq/=.
  - split; [intros _; split; [done|by intros ? ?%elem_of_nil]|done].
  - case_bool_decide as Hk; simpl.
    + subst kb. rewrite !manifestValue_get.
      destruct (Js.map_get a ka) as [x|] eqn:Ha,
               (Js.map_get b ka) as [y|] eqn:Hb; simpl.
      * case_bool_decide as Hxy; simpl.
        -- subst y. rewrite IH by done. split.
           ++ intros [-> Hall]. split; [done|].
              intros k [->|?]%elem_of_cons; [congruence|auto].
           ++ intros [[= ->] Hall]. split; [done|].
              intros k ?. apply Hall. by right.
        -- split; [done|]. intros [_ Hall].
           specialize (Hall ka (list_elem_of_here _ _)). congruence.
      * split; [done|]. intros [_ Hall].
        specialize (Hall ka (list_elem_of_here _ _)). congruence.
      * split; [done|]. intros [_ Hall].
        specialize (Hall ka (list_elem_of_here _ _)). congruence.
      * rewrite IH by done. split.
        -- intros [-> Hall]. split; [done|].
           intros k [->|?]%elem_of_cons; [congruence|auto].
        -- intros [[= ->] Hall]. split; [done|].
           intros k ?. apply Hall. by right.
    + split; [done|]. intros [[= ? ?] _]. done.
Qed.

Lemma sort_eq_Permutation l1 l2 : Js.sort l1 = Js.sort l2 ↔ l1 ≡ₚ l2.
Proof.
  split; [|apply sort_Permutation].
  unfold Js.sort. intros Heq.
  by rewrite <-(merge_sort_Permutation Js.codeUnitLe l1), Heq,
     merge_sort_Permutation.
Qed.

Lemma elem_of_sort l k : k ∈ Js.sort l ↔ k ∈ l.
Proof. unfold Js.sort. by rewrite merge_sort_Permutation. Qed.

(** The answer of [manifestsMatch] on two manifests without repeated keys:
    true exactly when they hold the same hash, or none, for every path. *)
Lemma manifestsMatch_decides a b w :
  NoDup (Js.map_keys a) → NoDup (Js.map_keys b) →
  manifestsMatch (manifestValue a) (manifestValue b) w
  = Ok (bool_decide (Forall (λ k, Js.map_get a k = Js.map_get b k)
                            (Js.map_keys a ++ Js.map_keys b))) w.
Proof.
  intros Ha Hb.
  unfold manifestsMatch, objectKeys, mbind, M_bind, bind, mret, M_ret, ret.
  simpl. rewrite !manifestValue_keys.
  assert (Forall (λ k, Js.map_get a k = Js.map_get b k)
                 (Js.map_keys a ++ Js.map_keys b)
          ↔ Js.map_keys a ≡ₚ Js.map_keys b ∧
            ∀ k, k ∈ Js.map_keys a → Js.map_get a k = Js.map_get b k) as Hiff.
  { rewrite Forall_forall. split.
    - intros Hall. split; [|intros k ?; apply Hall, elem_of_app; by left].
      apply NoDup_Permutation; [done..|]. intros k.
      destruct (decide (k ∈ Js.map_keys a ++ Js.map_keys b)) as [Hk|Hk].
      + specialize (Hall k Hk). by rewrite !elem_of_map_keys, Hall.
      + rewrite elem_of_app in Hk. naive_solver.
    - intros [Hp Hall] k [?|Hk]%elem_of_app; [auto|].
      apply Hall. by rewrite Hp. }
  case_bool_decide as Hlen; simpl.
  - f_equal.
    pose proof (manifestsMatchLoop_true a b _ _ Hlen) as Hloop.
    rewrite sort_eq_Permutation in Hloop.
    setoid_rewrite elem_of_sort in Hloop. rewrite <-Hiff in Hloop.
    destruct (manifestsMatchLoop _ _ _ _); symmetry.
    + apply bool_decide_eq_true. by apply Hloop.
    + apply bool_decide_eq_false. intros ?%Hloop. done.
  - f_equal. symmetry. apply bool_decide_eq_false. rewrite Hiff.
    intros [Hp _]. apply Hlen. unfold Js.sort.
    by rewrite !merge_sort_Permutation, Hp.
Qed.

(** X4: on two manifests without repeated keys [manifestsMatch] returns,
    without throwing, true exactly when both hold the same hash, or none,
    for every path: the order of the entries plays no part, and an added, a
    removed or a changed entry gives false. *)
Theorem manifestsMatch_iff a b w :
  NoDup (Js.map_keys a) → NoDup (Js.map_keys b) →
  ∃ r,
    manifestsMatch (manifestValue a) (manifestValue b) w = Ok r w ∧
    (r = true ↔ ∀ k, Js.map_get a k = Js.map_get b k).
Proof.
  intros Ha Hb. eexists. split; [by apply manifestsMatch_decides|].
  rewrite bool_decide_eq_true, Forall_forall. split; [|by auto].
  intros Hall k. destruct (decide (k ∈ Js.map_keys a ++ Js.map_keys b)) as [|Hk];
    [by auto|].
  rewrite elem_of_app in Hk.
  assert (Js.map_get a k = None) as -> by (apply map_get_None; naive_solver).
  symmetry. apply map_get_None. naive_solver.
Qed.

Lemma manifestsMatch_iff_witness :
  ∃ r,
    manifestsMatch (manifestValue [("a.ts", "1"); ("b.ts", "2")])
                   (manifestValue [("b.ts", "2"); ("a.ts", "1")])
                   Sample.project = Ok r Sample.project ∧
    (r = true ↔
     ∀ k, Js.map_get [("a.ts", "1"); ("b.ts", "2")] k
          = Js.map_get [("b.ts", "2"); ("a.ts", "1")] k).
Proof.
  apply (manifestsMatch_iff [("a.ts", "1"); ("b.ts", "2")]
           [("b.ts", "2"); ("a.ts", "1")] Sample.project).
  - vm_compute. repeat constructor; rewrite ?elem_of_cons, ?elem_of_nil;
      intros H; repeat destruct H as [H|H]; discriminate || done.
  - vm_compute. repeat constructor; rewrite ?elem_of_cons, ?elem_of_nil;
      intros H; repeat destruct H as [H|H]; discriminate || done.
Defined.

Section change_detection.
Context (rt : Runtime) (config : ResolvedConfig).

(** X6: a persisted manifest that parses, but to [null], is not treated as
    absent: once the project is constructed, with at least one endpoint
    file, all of them readable, the key enumeration of [manifestsMatch]
    throws and so does the run, before any extraction or write. *)
Theorem runGenerate_null_manifest_throws w content :
  projectLoads rt config w →
  w_files w !! manifestPath config = Some content →
  JSON_parse rt content = Some JNull →
  scannedFiles rt config w ≠ [] →
  (∀ f, f ∈ scannedFiles rt config w →
        is_Some (w_files w !! path_join rt (endpointsDir config) f)) →
  runGenerate rt config w
  = Throw "TypeError: Cannot convert undefined or null to object"
          (extend w (ReadFile (tsConfigFilePath rt config) ::
                     ReadFile (manifestPath config) ::
                     manifestReads rt config (scannedFiles rt config w))).
Proof.
  intros Hl Hc Hnull Hfiles Hread.
  rewrite runGenerate_loads by done.
  unfold generateIfChanged, mbind, M_bind, bind.
  rewrite scanEndpointFiles_eq, decide_False by done.
  rewrite loadManifest_eq. unfold loadedManifest.
  change (w_files (extend w [ReadFile (tsConfigFilePath rt config)]))
    with (w_files w).
  rewrite Hc, Hnull. simpl.
  destruct (buildManifest rt _ config _) as [m w1|e w1] eqn:Hb.
  - apply buildManifest_frame in Hb as (-> & _). by rewrite !extend_extend.
  - assert (∃ f, f ∈ scannedFiles rt config w ∧
                 w_files (extend (extend w [ReadFile (tsConfigFilePath rt config)])
                                 [ReadFile (manifestPath config)])
                 !! path_join rt (endpointsDir config) f = None)
      as (f & Hf & Hn).
    { apply (buildManifest_loop_throws rt config _ []). eauto. }
    destruct (Hread f Hf) as [? Hs]. simpl in Hn. congruence.
Qed.

End change_detection.

Lemma runGenerate_null_manifest_throws_witness :
  runGenerate nullAwareRuntime Sample.config nullManifestProject
  = Throw "TypeError: Cannot convert undefined or null to object"
          (extend nullManifestProject
             (ReadFile (tsConfigFilePath nullAwareRuntime Sample.config) ::
              ReadFile (manifestPath Sample.config) ::
              manifestReads nullAwareRuntime Sample.config
                (scannedFiles nullAwareRuntime Sample.config
                   nullManifestProject))).
Proof.
  apply (runGenerate_null_manifest_throws nullAwareRuntime Sample.config
           nullManifestProject "null").
  - exists "{}". split; vm_compute; reflexivity.
  - vm_compute. reflexivity.
  - vm_compute. reflexivity.
  - vm_compute. discriminate.
  - intros f Hf. vm_compute in Hf. apply list_elem_of_In in Hf. simpl in Hf.
    destruct Hf as [<-|[<-|[]]]; vm_compute; eauto.
Defined.

(** ** Generation *)

Section generate_facts.
Context (rt : Runtime) (config : ResolvedConfig).

Lemma writeIfChanged_afterWrite p c w :
  ∃ b, writeIfChanged rt p c w = Ok b (afterWrite rt w (p, c)).
Proof.
  unfold afterWrite. simpl.
  destruct (writeIfChanged_cases rt p c w) as [[_ ->]|[_ ->]]; eauto.
Qed.

Lemma afterWrite_files w art :
  w_files (afterWrite rt w art) = <[art.1 := art.2]> (w_files w).
Proof.
  unfold afterWrite.
  destruct (writeIfChanged_cases rt art.1 art.2 w) as [[Hp ->]|[_ ->]]; simpl;
    [by rewrite insert_id|done].
Qed.

Lemma afterWrites_files arts w :
  w_files (afterWrites rt arts w) = storeAll (w_files w) arts.
Proof.
  unfold afterWrites, storeAll. revert w.
  induction arts as [|art arts IH]; intros w; simpl; [done|].
  by rewrite IH, afterWrite_files.
Qed.

Lemma afterWrite_in_place w p c :
  w_files w !! p = Some c → afterWrite rt w (p, c) = extend w [ReadFile p].
Proof.
  intros Hp. unfold afterWrite. simpl.
  destruct (writeIfChanged_cases rt p c w) as [[_ ->]|[[] _]]; done.
Qed.

Lemma afterWrites_in_place arts w :
  (∀ p c, (p, c) ∈ arts → w_files w !! p = Some c) →
  afterWrites rt arts w = extend w (ReadFile <$> arts.*1).
Proof.
  unfold afterWrites. revert w.
  induction arts as [|[p c] arts IH]; intros w Hall; simpl.
  - by rewrite extend_nil.
  - rewrite afterWrite_in_place by (apply Hall; by left).
    rewrite IH, extend_extend; [done|].
    intros p' c' Hin. simpl. apply Hall. by right.
Qed.

Lemma storeAll_lookup_notin fs arts p :
  p ∉ arts.*1 → storeAll fs arts !! p = fs !! p.
Proof.
  unfold storeAll. revert fs.
  induction arts as [|[q c] arts IH]; intros fs; csimpl; [done|].
  intros [Hq Hn]%not_elem_of_cons. rewrite IH by done.
  by rewrite lookup_insert_ne.
Qed.

Lemma storeAll_lookup_in fs arts p c :
  NoDup arts.*1 → (p, c) ∈ arts → storeAll fs arts !! p = Some c.
Proof.
  unfold storeAll. revert fs.
  induction arts as [|[q d] arts IH]; intros fs; csimpl.
  - by intros _ ?%elem_of_nil.
  - intros [Hq Hnd]%NoDup_cons [[= -> ->]|Hin]%elem_of_cons.
    + fold (storeAll (<[q:=d]> fs) arts).
      rewrite storeAll_lookup_notin by done. apply lookup_insert_eq.
    + by apply IH.
Qed.

Lemma storeAll_keeps fs arts p :
  is_Some (fs !! p) → is_Some (storeAll fs arts !! p).
Proof.
  unfold storeAll. revert fs.
  induction arts as [|[q d] arts IH]; intros fs; csimpl; [done|].
  intros Hp. apply IH. rewrite lookup_insert. case_decide; eauto.
Qed.

Lemma generateRouteFile_text group routesCfg w :
  routes config = Some routesCfg →
  generateRouteFile rt group config w = Ok (routeFileText rt group config) w.
Proof.
  intros Hr. unfold routeFileText, generateRouteFile. by rewrite Hr.
Qed.

Lemma routeLoop_afterWrites routesCfg groups n w :
  routes config = Some routesCfg →
  forEachM groups
    (λ routeCount '(_, group),
       if isIgnoredRoute rt (appRouteDir group) config then mret routeCount
       else
         routeContent ← generateRouteFile rt group config;
         writeIfChanged rt (path_join rt (appRouteDir group) "route.ts")
                        routeContent;;
         mret (S routeCount))
    n w
  = Ok (n + length (routeArtifacts rt config groups))
       (afterWrites rt (routeArtifacts rt config groups) w).
Proof.
  intros Hr. revert n w.
  induction groups as [|[r group] groups IH]; intros n w; simpl.
  - by rewrite Nat.add_0_r.
  - unfold mbind, M_bind, bind. unfold routeArtifacts. simpl.
    destruct (isIgnoredRoute rt (appRouteDir group) config).
    + apply IH.
    + rewrite (generateRouteFile_text _ _ _ Hr).
      destruct (writeIfChanged_afterWrite
                  (path_join rt (appRouteDir group) "route.ts")
                  (routeFileText rt group config) w) as [b ->].
      cbn [mret M_ret ret]. rewrite IH. simpl.
      by rewrite Nat.add_succ_r.
Qed.

(** What [generate] returns and the world it leaves. *)
Lemma generate_afterWrites endpoints w :
  generate rt endpoints config w
  = Ok (length (artifacts rt endpoints config) - 3)
       (afterWrites rt (artifacts rt endpoints config)
          {| w_files := w_files w;
             w_dirs := {[generatedDir config]} ∪ w_dirs w;
             w_trace := w_trace w ++ [Mkdir (generatedDir config)] |}).
Proof.
  unfold generate, artifacts, mkdirSync, mbind, M_bind, bind.
  set (w0 := {| w_files := w_files w |}).
  set (a1 := (path_join rt (generatedDir config) "api.ts",
              generateApiTs rt endpoints config)).
  set (a2 := (path_join rt (generatedDir config) "store.ts", generateStoreTs)).
  set (a3 := (path_join rt (generatedDir config) "invalidation.ts",
              generateInvalidationTs)).
  destruct (writeIfChanged_afterWrite a1.1 a1.2 w0) as [b1 H1].
  destruct (writeIfChanged_afterWrite a2.1 a2.2 (afterWrite rt w0 a1))
    as [b2 H2].
  destruct (writeIfChanged_afterWrite a3.1 a3.2
              (afterWrite rt (afterWrite rt w0 a1) a2)) as [b3 H3].
  subst a1 a2 a3. simpl in H1, H2, H3. rewrite H1. cbn [mret M_ret ret]. rewrite H2. rewrite H3.
  destruct (routes config) as [routesCfg|] eqn:Hr.
  - rewrite (routeLoop_afterWrites routesCfg) by done. simpl.
    by rewrite Nat.sub_0_r.
  - done.
Qed.

(** X7: [generate] never throws.  It returns the number of route groups that
    are not ignored and leaves the file system as the old one with every
    artifact stored under its path, in the order api, store, invalidation,
    route files: a path that is not an artifact path keeps its content,
    no file disappears, and with pairwise different artifact paths each
    artifact path holds its text. *)
Theorem generate_stores_artifacts endpoints w :
  ∃ w',
    generate rt endpoints config w
    = Ok (length (artifacts rt endpoints config) - 3) w' ∧
    w_files w' = storeAll (w_files w) (artifacts rt endpoints config) ∧
    (∀ p, p ∉ (artifacts rt endpoints config).*1 →
          w_files w' !! p = w_files w !! p) ∧
    (∀ p, is_Some (w_files w !! p) → is_Some (w_files w' !! p)) ∧
    (NoDup (artifacts rt endpoints config).*1 →
     ∀ p c, (p, c) ∈ artifacts rt endpoints config →
            w_files w' !! p = Some c).
Proof.
  eexists. split; [apply generate_afterWrites|].
  rewrite afterWrites_files. cbn [w_files]. split_and!; [done| | |].
  - intros p Hp. by apply storeAll_lookup_notin.
  - intros p Hp. by apply storeAll_keeps.
  - intros Hnd p c Hin. by apply storeAll_lookup_in.
Qed.

(** X8: generating twice.  When the artifact paths are pairwise different, a
    second [generate] on the world the first one left returns the same
    count and only makes the output directory and reads the artifact files:
    it writes no file and the file system stays as it is. *)
Theorem generate_twice_writes_nothing endpoints w n w1 :
  NoDup (artifacts rt endpoints config).*1 →
  generate rt endpoints config w = Ok n w1 →
  ∃ evs,
    generate rt endpoints config w1
    = Ok n {| w_files := w_files w1;
              w_dirs := {[generatedDir config]} ∪ w_dirs w1;
              w_trace := w_trace w1 ++ evs |} ∧
    Forall (λ e, readOrMkdir e = true) evs.
Proof.
  intros Hnd Hgen. rewrite generate_afterWrites in Hgen.
  assert (n = length (artifacts rt endpoints config) - 3) as -> by congruence.
  assert (w1 = afterWrites rt (artifacts rt endpoints config)
            {| w_files := w_files w;
               w_dirs := {[generatedDir config]} ∪ w_dirs w;
               w_trace := w_trace w ++ [Mkdir (generatedDir config)] |})
    as Hw1 by congruence.
  clear Hgen.
  exists (Mkdir (generatedDir config) ::
          (ReadFile <$> (artifacts rt endpoints config).*1)).
  split.
  - rewrite generate_afterWrites. f_equal.
    rewrite afterWrites_in_place.
    + unfold extend. simpl. by rewrite <-app_assoc.
    + intros p c Hin. change (w_files w1 !! p = Some c).
      rewrite Hw1, afterWrites_files. by apply storeAll_lookup_in.
  - constructor; [done|]. apply Forall_fmap, Forall_true. done.
Qed.

End generate_facts.

Lemma generate_twice_writes_nothing_witness :
  ∃ evs,
    generate Sample.runtime sampleEndpoints Sample.config afterGenerate
    = Ok 1 {| w_files := w_files afterGenerate;
              w_dirs := {[generatedDir Sample.config]} ∪ w_dirs afterGenerate;
              w_trace := w_trace afterGenerate ++ evs |} ∧
    Forall (λ e, readOrMkdir e = true) evs.
Proof.
  apply (generate_twice_writes_nothing Sample.runtime Sample.config
           sampleEndpoints Sample.project 1 afterGenerate).
  - vm_compute. repeat constructor; rewrite ?elem_of_cons, ?elem_of_nil;
      intros H; repeat destruct H as [H|H]; discriminate || done.
  - vm_compute. reflexivity.
Defined.

(** ** Outcomes of the extraction *)

Section extraction_outcomes.
Context (rt : Runtime).

Lemma initializerText_cases p w :
  (∃ x, initializerText p w = Ok x w) ∨
  (∃ e, initializerText p w = Throw e w).
Proof.
  destruct p as [[]|]; unfold initializerText; unfold_M; simpl; eauto.
Qed.

Lemma extractTags_cases props w :
  (∃ tags, extractTags props w = Ok tags w) ∨
  (∃ e, extractTags props w = Throw e w).
Proof.
  unfold extractTags.
  destruct (getProperty props "tags") as [[pn init| | | | |]|];
    unfold_M; simpl; eauto.
  destruct init as [t tprops|]; [|by eauto].
  destruct (initializerText_cases (getProperty tprops "provides") w)
    as [[? ->]|[? ->]]; [|by eauto].
  destruct (initializerText_cases (getProperty tprops "invalidates") w)
    as [[? ->]|[? ->]]; eauto.
Qed.

Lemma findEndpointCall_Some calls call m :
  findEndpointCall calls = Some (call, m) →
  call ∈ calls ∧ m ∈ endpointMethods ∧
  callee call = PropertyAccessExpression "endpoint" m.
Proof.
  induction calls as [|c calls IH]; simpl; [done|].
  destruct (callee c) as [objectText methodName|] eqn:Hc.
  - destruct (bool_decide (objectText = "endpoint")) eqn:Ho; simpl.
    + destruct (bool_decide (methodName ∈ endpointMethods)) eqn:Hm.
      * intros [= <- <-]. apply bool_decide_eq_true in Ho as ->.
        apply bool_decide_eq_true in Hm. split_and!; [by left|done|done].
      * intros (? & ? & ?)%IH. split_and!; [by right|done|done].
    + intros (? & ? & ?)%IH. split_and!; [by right|done|done].
  - intros (? & ? & ?)%IH. split_and!; [by right|done|done].
Qed.

(** The three outcomes of the extraction from a loaded source file. *)
Lemma parseSourceFile_cases sourceFile file absPath config w :
  (∃ ep,
     parseSourceFile rt sourceFile file absPath config w = Ok (Some ep) w ∧
     defaultExportSymbol sourceFile = true ∧ descriptorOf config file ep) ∨
  (∃ reason,
     parseSourceFile rt sourceFile file absPath config w
     = Ok None (extend w [skipWarning reason file])) ∨
  (∃ e, parseSourceFile rt sourceFile file absPath config w = Throw e w).
Proof.
  unfold parseSourceFile, skipWarning.
  destruct (defaultExportSymbol sourceFile); simpl;
    [|right; left; by exists "No default export in "].
  destruct (findEndpointCall _) as [[call m]|] eqn:Hcall;
    [|right; left; by exists "No endpoint.{method}() call found in "].
  apply findEndpointCall_Some in Hcall as (_ & Hm & _).
  destruct (arguments call !! 0%nat) as [[text props|]|] eqn:Harg;
    [|right; left; by exists "Config argument not found in "..].
  unfold mbind, M_bind, bind.
  destruct (initializerText_cases (getProperty props "name") w)
    as [[nameText ->]|[? ->]]; [|by eauto].
  case_decide as Hname;
    [right; left; by exists "No name property in "|].
  destruct (initializerText_cases (getProperty props "protected") w)
    as [[? ->]|[? ->]]; [|by eauto].
  destruct (initializerText_cases (getProperty props "query") w)
    as [[? ->]|[? ->]]; [|by eauto].
  destruct (extractTags_cases props w) as [[[provides invalidates] ->]|[? ->]];
    [|by eauto].
  destruct (initializerText_cases (getProperty props "optimistic") w)
    as [[? ->]|[? ->]]; [|by eauto].
  destruct (initializerText_cases (getProperty props "maxRetries") w)
    as [[? ->]|[? ->]]; [|by eauto].
  destruct (resolveTypeImports _ _ _ _ _ _) as [[? ?] ?].
  left. eexists. split; [by unfold_M|]. unfold descriptorOf. simpl.
  split_and!; try done.
  case_decide; split; done.
Qed.

Lemma parseEndpointFile_unfold file config w :
  parseEndpointFile rt file config w
  = match w_files w !! path_join rt (endpointsDir config) file with
    | Some content =>
        parseSourceFile rt (parseSource rt content) file
          (path_join rt (endpointsDir config) file) config
          (extend w (loadEvents rt config file))
    | None => Throw "ENOENT" (extend w (loadEvents rt config file))
    end.
Proof.
  unfold parseEndpointFile, addSourceFileAtPath, readFileSync, loadEvents.
  unfold_M. simpl.
  destruct (w_files w !! _); by rewrite ?extend_extend.
Qed.

(** X9: the outcomes of [parseEndpointFile], whatever the file holds.  A
    file that is not there makes it throw.  Otherwise it returns a
    descriptor (the file has a default export, the name is not empty, the
    method is one of the five, the descriptor carries the given path and
    the route derived from it, and is a query exactly when the method is
    get), or it returns null after exactly one warning that names the file,
    or it throws.  In every case the world only gains the events of loading
    the file and that warning: nothing is written. *)
Theorem parseEndpointFile_outcomes file config w :
  (w_files w !! path_join rt (endpointsDir config) file = None ∧
   parseEndpointFile rt file config w
   = Throw "ENOENT" (extend w (loadEvents rt config file))) ∨
  (∃ content,
     w_files w !! path_join rt (endpointsDir config) file = Some content ∧
     ((∃ ep,
         parseEndpointFile rt file config w
         = Ok (Some ep) (extend w (loadEvents rt config file)) ∧
         defaultExportSymbol (parseSource rt content) = true ∧
         descriptorOf config file ep) ∨
      (∃ reason,
         parseEndpointFile rt file config w
         = Ok None (extend w (loadEvents rt config file ++
                              [skipWarning reason file]))) ∨
      (∃ e, parseEndpointFile rt file config w
            = Throw e (extend w (loadEvents rt config file))))).
Proof.
  rewrite parseEndpointFile_unfold.
  destruct (w_files w !! _) as [content|]; [right|left; done].
  exists content. split; [done|].
  destruct (parseSourceFile_cases (parseSource rt content) file
              (path_join rt (endpointsDir config) file) config
              (extend w (loadEvents rt config file)))
    as [(ep & -> & ? & ?)|[[reason ->]|[e ->]]]; [by eauto| |by eauto].
  right; left. exists reason. by rewrite extend_extend.
Qed.

Lemma parseLoop_cases config files acc w :
  ∃ evs,
    Forall (λ e, extractionEvent e = true) evs ∧
    ((∃ e, forEachM files (parseStep rt config) acc w = Throw e (extend w evs)) ∨
     (∃ cache,
        forEachM files (parseStep rt config) acc w = Ok cache (extend w evs) ∧
        (NoDup (Js.map_keys acc) → NoDup (Js.map_keys cache)) ∧
        (∀ k ep, (k, ep) ∈ cache →
                 (k, ep) ∈ acc ∨ (k ∈ files ∧ descriptorOf config k ep)) ∧
        (∀ k, k ∈ Js.map_keys acc → k ∈ Js.map_keys cache) ∧
        (∀ f, f ∈ files →
              is_Some (w_files w !! path_join rt (endpointsDir config) f) ∧
              (f ∈ Js.map_keys cache ∨
               ∃ reason, skipWarning reason f ∈ evs)))).
Proof.
  revert acc w. induction files as [|f files IH]; intros acc w.
  - exists []. split; [constructor|]. right. exists acc. simpl.
    rewrite extend_nil. split_and!; [done|done|by left|done|].
    by intros f ?%elem_of_nil.
  - cbn [forEachM]. unfold mbind, M_bind, bind. unfold parseStep at 1 3.
    unfold mbind, M_bind, bind.
    rewrite parseEndpointFile_unfold.
    destruct (w_files w !! path_join rt (endpointsDir config) f)
      as [content|] eqn:Hc.
    2:{ exists (loadEvents rt config f). split; [by repeat constructor|].
        left. by eexists. }
    destruct (parseSourceFile_cases (parseSource rt content) f
                (path_join rt (endpointsDir config) f) config
                (extend w (loadEvents rt config f)))
      as [(ep & -> & _ & Hep)|[[reason ->]|[e ->]]].
    + cbn [mret M_ret ret].
      destruct (IH (Js.map_set acc f ep) (extend w (loadEvents rt config f)))
        as (evs & Hevs & [[e He]|(cache & Hl & Hnd & Hin & Hkeys & Hfiles)]).
      * exists (loadEvents rt config f ++ evs).
        split; [apply Forall_app; split; [by repeat constructor|done]|].
        left. exists e. by rewrite He, extend_extend.
      * exists (loadEvents rt config f ++ evs).
        split; [apply Forall_app; split; [by repeat constructor|done]|].
        right. exists cache. rewrite Hl, extend_extend.
        split_and!; [done| | | |].
        -- intros ?. by apply Hnd, map_set_NoDup.
        -- intros k ep' [Hacc|[? ?]]%Hin.
           ++ apply elem_of_map_set in Hacc as [[= -> ->]|?]; [|by left].
              right. split; [by left|done].
           ++ right. split; [by right|done].
        -- intros k Hk. apply Hkeys. rewrite map_keys_set.
           destruct (Js.map_has acc f); [done|]. apply elem_of_app. by left.
        -- intros f' [->|Hf']%elem_of_cons.
           ++ split; [by eauto|]. left. apply Hkeys.
              apply elem_of_map_keys. rewrite map_get_set_eq. by eauto.
           ++ destruct (Hfiles f' Hf') as [? [?|[r ?]]]; split; [done|by left|done|].
              right. exists r. apply elem_of_app. by right.
    + cbn [mret M_ret ret].
      destruct (IH acc (extend (extend w (loadEvents rt config f))
                               [skipWarning reason f]))
        as (evs & Hevs & [[e He]|(cache & Hl & Hnd & Hin & Hkeys & Hfiles)]).
      * exists (loadEvents rt config f ++ [skipWarning reason f] ++ evs).
        split; [apply Forall_app; split; [by repeat constructor|];
                apply Forall_app; split; [by repeat constructor|done]|].
        left. exists e. rewrite He, !extend_extend. by rewrite <-?app_assoc.
      * exists (loadEvents rt config f ++ [skipWarning reason f] ++ evs).
        split; [apply Forall_app; split; [by repeat constructor|];
                apply Forall_app; split; [by repeat constructor|done]|].
        right. exists cache. rewrite Hl, !extend_extend, <-?app_assoc.
        split_and!; [done|done| |done|].
        -- intros k ep' [Hacc|[? ?]]%Hin; [by left|].
           right. split; [by right|done].
        -- intros f' [->|Hf']%elem_of_cons.
           ++ split; [by eauto|]. right. exists reason.
              apply elem_of_app. right. by left.
           ++ destruct (Hfiles f' Hf') as [? [?|[r ?]]]; split; [done|by left|done|].
              right. exists r. apply elem_of_app. right. by right.
    + exists (loadEvents rt config f). split; [by repeat constructor|].
      left. by eexists.
Qed.

Lemma parseAllEndpoints_world config w :
  ∃ evs,
    Forall (λ e, extractionEvent e = true) evs ∧
    ((∃ e, parseAllEndpoints rt config w = Throw e (extend w evs)) ∨
     (∃ cache, parseAllEndpoints rt config w = Ok cache (extend w evs))).
Proof.
  unfold parseAllEndpoints, mbind, M_bind, bind.
  rewrite scanEndpointFiles_eq.
  destruct (parseLoop_cases config (scannedFiles rt config w) [] w)
    as (evs & Hevs & [[e He]|(cache & Hl & _)]);
    exists evs; (split; [done|]); [left; by exists e|right; by exists cache].
Qed.

(** X10: [parseAllEndpoints] only loads files and warns.  When it returns,
    the cache has no repeated key, every entry sits under a scanned file and
    is a well-formed descriptor of that file, every scanned file exists, and
    each one is in the cache or was warned about. *)
Theorem parseAllEndpoints_cache config w :
  ∃ evs,
    Forall (λ e, extractionEvent e = true) evs ∧
    ((∃ e, parseAllEndpoints rt config w = Throw e (extend w evs)) ∨
     (∃ cache,
        parseAllEndpoints rt config w = Ok cache (extend w evs) ∧
        NoDup (Js.map_keys cache) ∧
        (∀ k ep, (k, ep) ∈ cache →
                 k ∈ scannedFiles rt config w ∧ descriptorOf config k ep) ∧
        (∀ f, f ∈ scannedFiles rt config w →
              is_Some (w_files w !! path_join rt (endpointsDir config) f) ∧
              (f ∈ Js.map_keys cache ∨
               ∃ reason, skipWarning reason f ∈ evs)))).
Proof.
  unfold parseAllEndpoints, mbind, M_bind, bind.
  rewrite scanEndpointFiles_eq.
  destruct (parseLoop_cases config (scannedFiles rt config w) [] w)
    as (evs & Hevs & [[e He]|(cache & Hl & Hnd & Hin & _ & Hfiles)]);
    exists evs; (split; [done|]); [left; by exists e|].
  right. exists cache. split_and!; [done| | |done].
  - apply Hnd. constructor.
  - by intros k ep [?%elem_of_nil|?]%Hin.
Qed.

End extraction_outcomes.

(** ** The extraction looks at files only *)

Section extraction_frame.
Context (rt : Runtime).

Lemma initializerText_uniform p :
  (∃ x, ∀ w, initializerText p w = Ok x w) ∨
  (∃ e, ∀ w, initializerText p w = Throw e w).
Proof.
  destruct p as [[]|]; unfold initializerText; unfold_M; simpl; eauto.
Qed.

Lemma extractTags_uniform props :
  (∃ tags, ∀ w, extractTags props w = Ok tags w) ∨
  (∃ e, ∀ w, extractTags props w = Throw e w).
Proof.
  unfold extractTags.
  destruct (getProperty props "tags") as [[pn init| | | | |]|];
    unfold_M; simpl; eauto.
  destruct init as [t tprops|]; [|by eauto].
  destruct (initializerText_uniform (getProperty tprops "provides"))
    as [[? H1]|[? H1]]; [|left + right; eexists; intros w; by rewrite H1].
  destruct (initializerText_uniform (getProperty tprops "invalidates"))
    as [[? H2]|[? H2]]; [left|right]; eexists; intros w; by rewrite H1, H2.
Qed.

(** The outcome of the extraction from a loaded source file does not depend
    on the world. *)
Lemma parseSourceFile_uniform sourceFile file absPath config :
  (∃ ep, ∀ w,
     parseSourceFile rt sourceFile file absPath config w = Ok (Some ep) w) ∨
  (∃ reason, ∀ w,
     parseSourceFile rt sourceFile file absPath config w
     = Ok None (extend w [skipWarning reason file])) ∨
  (∃ e, ∀ w, parseSourceFile rt sourceFile file absPath config w = Throw e w).
Proof.
  unfold parseSourceFile, skipWarning.
  destruct (defaultExportSymbol sourceFile); simpl;
    [|right; left; by exists "No default export in "].
  destruct (findEndpointCall _) as [[call m]|] eqn:Hcall;
    [|right; left; by exists "No endpoint.{method}() call found in "].
  destruct (arguments call !! 0%nat) as [[text props|]|] eqn:Harg;
    [|right; left; by exists "Config argument not found in "..].
  unfold mbind, M_bind, bind.
  destruct (initializerText_uniform (getProperty props "name"))
    as [[nameText Hn]|[? Hn]];
    [|right; right; eexists; intros w; by rewrite Hn].
  destruct (decide (default "" (Js.remove_quotes <$> nameText) = "")) as [He|He].
  { right; left. exists "No name property in ". intros w.
    rewrite Hn, decide_True by done. by unfold_M. }
  destruct (initializerText_uniform (getProperty props "protected"))
    as [[? Hp]|[? Hp]];
    [|right; right; eexists; intros w;
      by rewrite Hn, decide_False, Hp by done].
  destruct (initializerText_uniform (getProperty props "query"))
    as [[? Hq]|[? Hq]];
    [|right; right; eexists; intros w;
      by rewrite Hn, decide_False, Hp, Hq by done].
  destruct (extractTags_uniform props) as [[[provides invalidates] Ht]|[? Ht]];
    [|right; right; eexists; intros w;
      by rewrite Hn, decide_False, Hp, Hq, Ht by done].
  destruct (initializerText_uniform (getProperty props "optimistic"))
    as [[? Ho]|[? Ho]];
    [|right; right; eexists; intros w;
      by rewrite Hn, decide_False, Hp, Hq, Ht, Ho by done].
  destruct (initializerText_uniform (getProperty props "maxRetries"))
    as [[? Hr]|[? Hr]];
    [|right; right; eexists; intros w;
      by rewrite Hn, decide_False, Hp, Hq, Ht, Ho, Hr by done].
  destruct (resolveTypeImports _ _ _ _ _ _) as [[? ?] ?] eqn:Hi.
  left. eexists. intros w.
  rewrite Hn, decide_False, Hp, Hq, Ht, Ho, Hr by done.
  by unfold_M.
Qed.

(** Two worlds with the same files: [parseEndpointFile] has the same
    outcome in both. *)
Lemma parseEndpointFile_frame file config w w2 :
  w_files w2 = w_files w →
  ∃ evs,
    (∃ r,
       parseEndpointFile rt file config w = Ok r (extend w evs) ∧
       parseEndpointFile rt file config w2 = Ok r (extend w2 evs)) ∨
    (∃ e,
       parseEndpointFile rt file config w = Throw e (extend w evs) ∧
       parseEndpointFile rt file config w2 = Throw e (extend w2 evs)).
Proof.
  intros Hfs. rewrite !parseEndpointFile_unfold, Hfs.
  destruct (w_files w !! path_join rt (endpointsDir config) file)
    as [content|].
  2:{ exists (loadEvents rt config file). right. by eexists. }
  destruct (parseSourceFile_uniform (parseSource rt content) file
              (path_join rt (endpointsDir config) file) config)
    as [[ep Hp]|[[reason Hp]|[e Hp]]]; rewrite !Hp.
  - exists (loadEvents rt config file). left. by eexists.
  - exists (loadEvents rt config file ++ [skipWarning reason file]).
    rewrite !extend_extend. left. by eexists.
  - exists (loadEvents rt config file). right. by eexists.
Qed.

(** Two worlds with the same files: [parseAllEndpoints] has the same outcome
    and makes the same events in both. *)
Lemma parseLoop_frame config files acc w w2 :
  w_files w2 = w_files w →
  ∃ evs,
    Forall (λ e, extractionEvent e = true) evs ∧
    ((∃ cache,
        forEachM files (parseStep rt config) acc w = Ok cache (extend w evs) ∧
        forEachM files (parseStep rt config) acc w2 = Ok cache (extend w2 evs)) ∨
     (∃ e,
        forEachM files (parseStep rt config) acc w = Throw e (extend w evs) ∧
        forEachM files (parseStep rt config) acc w2 = Throw e (extend w2 evs))).
Proof.
  revert acc w w2. induction files as [|f files IH]; intros acc w w2 Hfs.
  - exists []. split; [constructor|]. left. exists acc. simpl.
    by rewrite !extend_nil.
  - cbn [forEachM]. unfold mbind, M_bind, bind. unfold parseStep at 1 3 5 7.
    unfold mbind, M_bind, bind.
    rewrite !parseEndpointFile_unfold, Hfs.
    destruct (w_files w !! path_join rt (endpointsDir config) f) as [content|].
    2:{ exists (loadEvents rt config f). split; [by repeat constructor|].
        right. by eexists. }
    destruct (parseSourceFile_uniform (parseSource rt content) f
                (path_join rt (endpointsDir config) f) config)
      as [[ep Hp]|[[reason Hp]|[e Hp]]]; rewrite !Hp.
    + cbn [mret M_ret ret].
      destruct (IH (Js.map_set acc f ep) (extend w (loadEvents rt config f))
                  (extend w2 (loadEvents rt config f)) Hfs)
        as (evs & Hevs & [(cache & -> & ->)|(e & -> & ->)]);
        exists (loadEvents rt config f ++ evs);
        (split; [apply Forall_app; split; [by repeat constructor|done]|]);
        rewrite !extend_extend; [left|right]; by eexists.
    + cbn [mret M_ret ret].
      destruct (IH acc
                  (extend (extend w (loadEvents rt config f))
                          [skipWarning reason f])
                  (extend (extend w2 (loadEvents rt config f))
                          [skipWarning reason f]) Hfs)
        as (evs & Hevs & [(cache & -> & ->)|(e & -> & ->)]);
        exists (loadEvents rt config f ++ [skipWarning reason f] ++ evs);
        (split; [apply Forall_app; split; [by repeat constructor|];
                 by constructor|]);
        rewrite !extend_extend, <-?app_assoc; [left|right]; by eexists.
    + exists (loadEvents rt config f). split; [by repeat constructor|].
      right. by eexists.
Qed.

Lemma parseAllEndpoints_frame config w w2 :
  w_files w2 = w_files w → w_dirs w2 = w_dirs w →
  ∃ evs,
    Forall (λ e, extractionEvent e = true) evs ∧
    ((∃ cache,
        parseAllEndpoints rt config w = Ok cache (extend w evs) ∧
        parseAllEndpoints rt config w2 = Ok cache (extend w2 evs)) ∨
     (∃ e,
        parseAllEndpoints rt config w = Throw e (extend w evs) ∧
        parseAllEndpoints rt config w2 = Throw e (extend w2 evs))).
Proof.
  intros Hfs Hds.
  unfold parseAllEndpoints, mbind, M_bind, bind.
  rewrite !scanEndpointFiles_eq.
  assert (scannedFiles rt config w2 = scannedFiles rt config w) as ->.
  { unfold scannedFiles. by rewrite Hfs, Hds. }
  apply (parseLoop_frame config (scannedFiles rt config w) [] w w2 Hfs).
Qed.

(** The same for the loop of [buildManifest]. *)
Lemma manifestLoop_frame config files acc w w2 :
  w_files w2 = w_files w →
  ∃ evs,
    Forall (λ e, mutating e = false) evs ∧
    ((∃ m,
        forEachM files (manifestStep rt config) acc w = Ok m (extend w evs) ∧
        forEachM files (manifestStep rt config) acc w2 = Ok m (extend w2 evs)) ∨
     (∃ e,
        forEachM files (manifestStep rt config) acc w = Throw e (extend w evs) ∧
        forEachM files (manifestStep rt config) acc w2
        = Throw e (extend w2 evs))).
Proof.
  revert acc w w2. induction files as [|f files IH]; intros acc w w2 Hfs.
  - exists []. split; [constructor|]. left. exists acc. simpl.
    by rewrite !extend_nil.
  - cbn [forEachM]. unfold mbind, M_bind, bind.
    destruct (w_files w !! path_join rt (endpointsDir config) f) as [c|] eqn:Hc.
    + rewrite (manifestStep_agree rt config acc f w c Hc).
      rewrite (manifestStep_agree rt config acc f w2 c) by (by rewrite Hfs).
      destruct (IH (Js.map_set acc f (md5_hex rt c))
                  (extend w [ReadFile (path_join rt (endpointsDir config) f)])
                  (extend w2 [ReadFile (path_join rt (endpointsDir config) f)])
                  Hfs)
        as (evs & Hevs & [(m & -> & ->)|(e & -> & ->)]);
        exists ([ReadFile (path_join rt (endpointsDir config) f)] ++ evs);
        (split; [by constructor|]);
        rewrite !extend_extend; [left|right]; by eexists.
    + unfold manifestStep, hashFile, readFileSync, mbind, M_bind, bind.
      rewrite Hfs, Hc. simpl.
      exists [ReadFile (path_join rt (endpointsDir config) f)].
      split; [by repeat constructor|]. right. by eexists.
Qed.

End extraction_frame.

(** ** The file system across a run *)

Section run_frame.
Context (rt : Runtime) (config : ResolvedConfig).

Lemma buildManifest_loop_world files acc w :
  ∃ evs,
    Forall (λ e, mutating e = false) evs ∧
    worldOf (forEachM files (manifestStep rt config) acc w) = extend w evs.
Proof.
  revert acc w. induction files as [|f files IH]; intros acc w; simpl.
  - exists []. by rewrite extend_nil.
  - unfold mbind, M_bind, bind.
    destruct (w_files w !! path_join rt (endpointsDir config) f) as [c|] eqn:Hc.
    + rewrite (manifestStep_agree rt config acc f w c Hc).
      destruct (IH (Js.map_set acc f (md5_hex rt c))
                  (extend w [ReadFile (path_join rt (endpointsDir config) f)]))
        as (evs & Hevs & ->).
      eexists. rewrite extend_extend. split; [|done]. by constructor.
    + unfold manifestStep, hashFile, readFileSync, mbind, M_bind, bind.
      rewrite Hc. simpl. eexists. split; [|done]. by repeat constructor.
Qed.

Lemma manifestsMatch_world a b w :
  worldOf (manifestsMatch a b w) = w.
Proof.
  unfold manifestsMatch, objectKeys, mbind, M_bind, bind, mret, M_ret, ret, throw.
  destruct (ownEntries a) as [ea|]; [|done].
  destruct (ownEntries b) as [eb|]; [|done].
  by destruct (negb _).
Qed.

Lemma extraction_quiet evs :
  Forall (λ e, extractionEvent e = true) evs →
  Forall (λ e, mutating e = false) evs.
Proof. intros H. eapply Forall_impl; [exact H|]. by intros []. Qed.

(** X11: the file system across [runGenerate] (failures of the writes
    themselves are not modelled).  A run that throws, and a run that
    returns without a rebuild, leave files and directories as they were and
    make no directory and write no file.  A run that rebuilds leaves the
    old file system with the artifacts of the extracted descriptors and
    then the manifest stored.  In no case does a file disappear. *)
Theorem runGenerate_file_system w :
  (∃ e evs,
     runGenerate rt config w = Throw e (extend w evs) ∧
     Forall (λ e, mutating e = false) evs) ∨
  (∃ evs,
     runGenerate rt config w = Ok tt (extend w evs) ∧
     Forall (λ e, mutating e = false) evs) ∨
  (∃ pre new cache wc w',
     buildManifest rt (scannedFiles rt config w) config
       (extend w [ReadFile (manifestPath config)]) = Ok new (extend w pre) ∧
     parseAllEndpoints rt config (extend w pre) = Ok cache wc ∧
     runGenerate rt config w = Ok tt w' ∧
     w_files w'
     = <[manifestPath config := JSON_stringify rt new +:+ nl]>
         (storeAll (w_files w) (artifacts rt (Js.map_values cache) config)) ∧
     ∀ p, is_Some (w_files w !! p) → is_Some (w_files w' !! p)).
Proof.
  destruct (newProject_cases rt config w) as [[Hl _]|[_ [e He]]].
  2:{ left. unfold runGenerate, mbind, M_bind, bind. rewrite He.
      eexists _, _. split; [reflexivity|]. by repeat constructor. }
  rewrite (runGenerate_loads rt config w Hl).
  set (ts := ReadFile (tsConfigFilePath rt config)).
  unfold generateIfChanged, mbind, M_bind, bind.
  rewrite scanEndpointFiles_eq, scannedFiles_extend.
  case_decide as Hfiles.
  { right; left. unfold console_log, emit. rewrite extend_extend.
    eexists. split; [reflexivity|]. by repeat constructor. }
  rewrite loadManifest_eq, extend_extend.
  destruct (manifestLoop_frame rt config (scannedFiles rt config w) []
              (extend w [ReadFile (manifestPath config)])
              (extend w ([ts] ++ [ReadFile (manifestPath config)])))
    as (evs0 & Hevs0 & [(new & Hb & Hb2)|(e & _ & Hb2)]); [done| |].
  all: change (buildManifest rt ?fs config ?w0)
         with (forEachM fs (manifestStep rt config) [] w0).
  2:{ left. rewrite Hb2, extend_extend.
      eexists _, _. split; [reflexivity|]. repeat constructor. done. }
  rewrite Hb2, !extend_extend.
  change (w_files (extend w [ts])) with (w_files w).
  set (pre := [ts] ++ [ReadFile (manifestPath config)] ++ evs0).
  assert (Forall (λ e, mutating e = false) pre) as Hpre.
  { by repeat constructor. }
  pose proof (manifestsMatch_world (loadedManifest rt config (w_files w))
                (manifestValue new) (extend w pre)) as Hmw.
  destruct (manifestsMatch _ _ _) as [same wm|e wm]; simpl in Hmw; subst wm.
  2:{ left. by eexists _, _. }
  destruct same.
  { right; left. exists (pre ++ [Log "ERTK: Nothing changed."]).
    unfold console_log, emit. rewrite extend_extend. split; [done|].
    apply Forall_app. split; [done|by repeat constructor]. }
  unfold rebuildAll, mbind, M_bind, bind.
  destruct (parseAllEndpoints_frame rt config
              (extend w ([ReadFile (manifestPath config)] ++ evs0))
              (extend w pre))
    as (evs & Hevs & [(cache & Hc & Hc2)|(e & _ & He)]); [done..| |].
  2:{ left. rewrite He, extend_extend. eexists _, _. split; [reflexivity|].
      apply Forall_app. split; [done|by apply extraction_quiet]. }
  right; right. rewrite Hc2. rewrite generate_afterWrites.
  unfold saveManifest, writeFileSync, console_log, emit.
  rewrite extend_extend in Hb.
  eexists _, new, cache, _, _. split_and!; [exact Hb|exact Hc|reflexivity| |].
  - cbn [w_files extend]. by rewrite afterWrites_files.
  - intros p Hp. cbn [w_files extend]. rewrite afterWrites_files.
    rewrite lookup_insert. case_decide; [by eauto|].
    by apply storeAll_keeps.
Qed.

End run_frame.

(** ** The outcome of a rebuild *)

Section rebuild_outcome.
Context (rt : Runtime) (config : ResolvedConfig).

(** The rebuild, started in a world with the files and directories of [wp],
    where the extraction returns [cache]. *)
Lemma rebuildAll_Ok new w wp cache wc :
  w_files w = w_files wp → w_dirs w = w_dirs wp →
  parseAllEndpoints rt config wp = Ok cache wc →
  ∃ w',
    rebuildAll rt config new w = Ok tt w' ∧
    w_files w'
    = <[manifestPath config := JSON_stringify rt new +:+ nl]>
        (storeAll (w_files wp) (artifacts rt (Js.map_values cache) config)) ∧
    last (w_trace w') = Some (Log (generatedReport rt config cache)).
Proof.
  intros Hfs Hds Hp.
  destruct (parseAllEndpoints_frame rt config wp w Hfs Hds)
    as (evs & _ & [(c & H1 & H2)|(e & H1 & _)]); [|congruence].
  assert (c = cache) as -> by congruence.
  unfold rebuildAll, mbind, M_bind, bind.
  rewrite H2, generate_afterWrites.
  unfold saveManifest, writeFileSync, console_log, emit.
  eexists. split; [reflexivity|]. split.
  - cbn [w_files extend]. by rewrite afterWrites_files, <-Hfs.
  - cbn [w_trace extend]. rewrite last_snoc. do 2 f_equal.
    unfold generatedReport, artifacts.
    destruct (routes config); [|done].
    rewrite length_app. cbn [length].
    set (n := length (routeArtifacts _ _ _)).
    by replace (3 + n - 3) with n by lia.
Qed.

(** The same where the extraction throws. *)
Lemma rebuildAll_Throw new w wp e wc :
  w_files w = w_files wp → w_dirs w = w_dirs wp →
  parseAllEndpoints rt config wp = Throw e wc →
  ∃ w',
    rebuildAll rt config new w = Throw e w' ∧
    w_files w' = w_files wp ∧ w_dirs w' = w_dirs wp.
Proof.
  intros Hfs Hds Hp.
  destruct (parseAllEndpoints_frame rt config wp w Hfs Hds)
    as (evs & _ & [(c & H1 & _)|(e' & H1 & H2)]); [congruence|].
  assert (e' = e) as -> by congruence.
  unfold rebuildAll, mbind, M_bind, bind. rewrite H2.
  by eexists.
Qed.

(** The run whose comparison reports a mismatch: what it leaves is decided
    by the extraction. *)
Lemma runGenerate_mismatch w new wb :
  projectLoads rt config w →
  scannedFiles rt config w ≠ [] →
  buildManifest rt (scannedFiles rt config w) config w = Ok new wb →
  manifestsMatch (loadedManifest rt config (w_files w)) (manifestValue new) w
  = Ok false w →
  (∀ cache wc,
     parseAllEndpoints rt config w = Ok cache wc →
     ∃ w',
       runGenerate rt config w = Ok tt w' ∧
       w_files w'
       = <[manifestPath config := JSON_stringify rt new +:+ nl]>
           (storeAll (w_files w) (artifacts rt (Js.map_values cache) config)) ∧
       last (w_trace w') = Some (Log (generatedReport rt config cache))) ∧
  (∀ e wc,
     parseAllEndpoints rt config w = Throw e wc →
     ∃ w',
       runGenerate rt config w = Throw e w' ∧
       w_files w' = w_files w ∧ w_dirs w' = w_dirs w).
Proof.
  intros Hl Hfiles Hb Hm.
  rewrite (runGenerate_loads rt config w Hl).
  unfold generateIfChanged, mbind, M_bind, bind.
  rewrite scanEndpointFiles_eq, scannedFiles_extend, decide_False by done.
  rewrite loadManifest_eq.
  apply buildManifest_frame in Hb as (_ & _ & Hb).
  rewrite Hb by done.
  apply manifestsMatch_pure in Hm as [_ Hm].
  change (w_files (extend w ?evs)) with (w_files w).
  rewrite Hm.
  split.
  - intros cache wc Hp. by apply (rebuildAll_Ok new _ w cache wc).
  - intros e wc Hp. by apply (rebuildAll_Throw new _ w e wc).
Qed.

(** The run whose comparison reports a match. *)
Lemma runGenerate_match w new wb :
  projectLoads rt config w →
  scannedFiles rt config w ≠ [] →
  buildManifest rt (scannedFiles rt config w) config w = Ok new wb →
  manifestsMatch (loadedManifest rt config (w_files w)) (manifestValue new) w
  = Ok true w →
  runGenerate rt config w
  = Ok tt (extend w ([ReadFile (tsConfigFilePath rt config);
                      ReadFile (manifestPath config)] ++
                     manifestReads rt config (scannedFiles rt config w) ++
                     [Log "ERTK: Nothing changed."])).
Proof.
  intros Hl Hfiles Hb Hm.
  rewrite (runGenerate_loads rt config w Hl).
  unfold generateIfChanged, mbind, M_bind, bind.
  rewrite scanEndpointFiles_eq, scannedFiles_extend, decide_False by done.
  rewrite loadManifest_eq.
  apply buildManifest_frame in Hb as (_ & _ & Hb).
  rewrite Hb by done.
  apply manifestsMatch_pure in Hm as [_ Hm].
  change (w_files (extend w ?evs)) with (w_files w).
  rewrite Hm. unfold console_log, emit. by rewrite !extend_extend.
Qed.

(** C9: a persisted manifest that cannot be read or does not parse loads as
    the empty map without throwing.  With the project constructed, at least
    one endpoint file and all of them hashed, the comparison with the new
    manifest then reports a mismatch and the run rebuilds: when the
    extraction returns, the run returns, and leaves the artifacts of the
    extracted descriptors and the new manifest stored and the report of the
    generation as its last event; the run throws only what the extraction
    throws. *)
Theorem corrupt_manifest_forces_rebuild w :
  manifestCorrupt rt config w →
  loadManifest rt config w
  = Ok (JObject []) (extend w [ReadFile (manifestPath config)]) ∧
  ∀ new wb,
    projectLoads rt config w →
    scannedFiles rt config w ≠ [] →
    buildManifest rt (scannedFiles rt config w) config w = Ok new wb →
    manifestsMatch (JObject []) (manifestValue new) w = Ok false w ∧
    (∀ cache wc,
       parseAllEndpoints rt config w = Ok cache wc →
       ∃ w',
         runGenerate rt config w = Ok tt w' ∧
         w_files w'
         = <[manifestPath config := JSON_stringify rt new +:+ nl]>
             (storeAll (w_files w)
                       (artifacts rt (Js.map_values cache) config)) ∧
         last (w_trace w') = Some (Log (generatedReport rt config cache))) ∧
    (∀ e wc,
       parseAllEndpoints rt config w = Throw e wc →
       ∃ w',
         runGenerate rt config w = Throw e w' ∧
         w_files w' = w_files w ∧ w_dirs w' = w_dirs w).
Proof.
  intros Hc. split; [by apply loadManifest_corrupt|].
  intros new wb Hl Hfiles Hb.
  assert (loadedManifest rt config (w_files w) = JObject []) as Hlm.
  { unfold manifestCorrupt in Hc. unfold loadedManifest.
    destruct (w_files w !! manifestPath config); [by rewrite Hc|done]. }
  assert (manifestsMatch (JObject []) (manifestValue new) w = Ok false w)
    as Hm.
  { apply manifestsMatch_empty.
    apply buildManifest_frame in Hb as (_ & Hne & _). auto. }
  split; [done|].
  apply (runGenerate_mismatch w new wb); [done..|]. by rewrite Hlm.
Qed.

(** X5: change detection.  With the project constructed, a persisted
    manifest [old] and the manifest [new] built from the files found, the
    run only reads and reports that nothing changed when both hold the same
    hash for every path.  As soon as one path has a hash in one and none or
    another one in the other, the run rebuilds: when the extraction returns,
    it leaves the artifacts of the extracted descriptors and [new] as the
    manifest stored, and the report of the generation as its last event;
    when the extraction throws, the run throws the same and the files are
    as they were. *)
Theorem runGenerate_rebuilds_on_mismatch w old new wb :
  projectLoads rt config w →
  scannedFiles rt config w ≠ [] →
  loadedManifest rt config (w_files w) = manifestValue old →
  NoDup (Js.map_keys old) →
  buildManifest rt (scannedFiles rt config w) config w = Ok new wb →
  ((∀ k, Js.map_get old k = Js.map_get new k) →
   runGenerate rt config w
   = Ok tt (extend w ([ReadFile (tsConfigFilePath rt config);
                       ReadFile (manifestPath config)] ++
                      manifestReads rt config (scannedFiles rt config w) ++
                      [Log "ERTK: Nothing changed."]))) ∧
  ((∃ k, Js.map_get old k ≠ Js.map_get new k) →
   (∀ cache wc,
      parseAllEndpoints rt config w = Ok cache wc →
      ∃ w',
        runGenerate rt config w = Ok tt w' ∧
        w_files w'
        = <[manifestPath config := JSON_stringify rt new +:+ nl]>
            (storeAll (w_files w)
                      (artifacts rt (Js.map_values cache) config)) ∧
        last (w_trace w') = Some (Log (generatedReport rt config cache))) ∧
   (∀ e wc,
      parseAllEndpoints rt config w = Throw e wc →
      ∃ w',
        runGenerate rt config w = Throw e w' ∧
        w_files w' = w_files w ∧ w_dirs w' = w_dirs w)).
Proof.
  intros Hl Hfiles Hold Hnd Hb.
  assert (NoDup (Js.map_keys new)) as Hnew.
  { apply (buildManifest_loop_NoDup rt config _ _ _ _ _ Hb). constructor. }
  pose proof (manifestsMatch_decides old new w Hnd Hnew) as Hm.
  rewrite <-Hold in Hm.
  split.
  - intros Hall. apply (runGenerate_match w new wb); [done..|].
    rewrite Hm, bool_decide_eq_true_2; [done|].
    apply Forall_forall. auto.
  - intros [k Hk]. apply (runGenerate_mismatch w new wb); [done..|].
    rewrite Hm, bool_decide_eq_false_2; [done|].
    rewrite Forall_forall. intros Hall.
    destruct (decide (k ∈ Js.map_keys old ++ Js.map_keys new)) as [|Hn];
      [by apply Hk, Hall|].
    rewrite elem_of_app in Hn. apply Hk.
    assert (Js.map_get old k = None) as -> by (apply map_get_None; naive_solver).
    symmetry. apply map_get_None. naive_solver.
Qed.

End rebuild_outcome.

Lemma corrupt_manifest_forces_rebuild_witness :
  loadManifest Sample.runtime Sample.config corruptProject
  = Ok (JObject [])
       (extend corruptProject [ReadFile (manifestPath Sample.config)]) ∧
  ∃ cache w',
    runGenerate Sample.runtime Sample.config corruptProject = Ok tt w' ∧
    w_files w'
    = <[manifestPath Sample.config
        := JSON_stringify Sample.runtime
             [("tasks/create.ts", "md5:post createTask");
              ("tasks/list.ts", "md5:get listTasks")] +:+ nl]>
        (storeAll (w_files corruptProject)
           (artifacts Sample.runtime (Js.map_values cache) Sample.config)) ∧
    last (w_trace w')
    = Some (Log (generatedReport Sample.runtime Sample.config cache)).
Proof.
  destruct (corrupt_manifest_forces_rebuild Sample.runtime Sample.config
              corruptProject) as [Hload Hrun].
  { vm_compute. reflexivity. }
  split; [exact Hload|].
  destruct (Hrun [("tasks/create.ts", "md5:post createTask");
                  ("tasks/list.ts", "md5:get listTasks")]
                 (extend corruptProject
                    [ReadFile "/p/src/endpoints/tasks/create.ts";
                     ReadFile "/p/src/endpoints/tasks/list.ts"]))
    as (_ & Hok & _).
  - exists "{}". split; vm_compute; reflexivity.
  - vm_compute. discriminate.
  - vm_compute. reflexivity.
  - edestruct Hok as (w' & Hw'); [vm_compute; reflexivity|].
    eexists _, w'. exact Hw'.
Defined.

Lemma runGenerate_rebuilds_on_mismatch_witness :
  ∃ cache w',
    runGenerate Sample.runtime Sample.config editedProject = Ok tt w' ∧
    w_files w'
    = <[manifestPath Sample.config
        := JSON_stringify Sample.runtime
             [("tasks/create.ts", "md5:post createTask");
              ("tasks/list.ts", "md5:get listAllTasks")] +:+ nl]>
        (storeAll (w_files editedProject)
           (artifacts Sample.runtime (Js.map_values cache) Sample.config)) ∧
    last (w_trace w')
    = Some (Log (generatedReport Sample.runtime Sample.config cache)).
Proof.
  destruct (runGenerate_rebuilds_on_mismatch Sample.runtime Sample.config
              editedProject
              [("tasks/create.ts", "md5:post createTask");
               ("tasks/list.ts", "md5:get listTasks")]
              [("tasks/create.ts", "md5:post createTask");
               ("tasks/list.ts", "md5:get listAllTasks")]
              (extend editedProject
                 [ReadFile "/p/src/endpoints/tasks/create.ts";
                  ReadFile "/p/src/endpoints/tasks/list.ts"]))
    as [_ Hmis].
  - exists "{}". split; vm_compute; reflexivity.
  - vm_compute. discriminate.
  - vm_compute. reflexivity.
  - vm_compute. repeat constructor; rewrite ?elem_of_cons, ?elem_of_nil;
      intros H; repeat destruct H as [H|H]; discriminate || done.
  - vm_compute. reflexivity.
  - destruct Hmis as [Hok _].
    { exists "tasks/list.ts". vm_compute. discriminate. }
    edestruct Hok as (w' & Hw'); [vm_compute; reflexivity|].
    eexists _, w'. exact Hw'.
Defined.

(** ** Tag types and type imports of the API file *)

Lemma NoDup_set_add s x : NoDup s → NoDup (Js.set_add s x).
Proof.
  intros Hs. unfold Js.set_add, Js.set_has. case_bool_decide as Hx; [done|].
  apply NoDup_app. split_and!; [done| |apply NoDup_singleton].
  by intros y Hy ->%list_elem_of_singleton.
Qed.

Lemma NoDup_extract_loop (f : string → bool) toks tags :
  NoDup tags →
  NoDup (foldl (λ tags m, if f m then Js.set_add tags m else tags) tags toks).
Proof.
  revert tags. induction toks as [|m toks IH]; intros tags Hnd; simpl; [done|].
  apply IH. destruct (f m); [by apply NoDup_set_add|done].
Qed.

Lemma NoDup_extractTagTypes source tags :
  NoDup tags → NoDup (extractTagTypes source tags).
Proof.
  intros Hnd. unfold extractTagTypes.
  destruct (truthy source); [by apply NoDup_extract_loop|done].
Qed.

Lemma elem_of_extractTagTypes source tags t :
  t ∈ extractTagTypes source tags ↔
  t ∈ tags ∨ ∃ s, truthy source = Some s ∧ t ∈ quotedTokens None s ∧
                  firstIsUpperCased t = true.
Proof.
  unfold extractTagTypes. destruct (truthy source) as [s|]; [|naive_solver].
  rewrite elem_of_extract_loop. naive_solver.
Qed.

Lemma collectTagTypes_loop endpoints tags :
  (NoDup tags →
   NoDup (foldl (λ tagTypes ep,
                   extractTagTypes (invalidatesTagsSource ep)
                     (extractTagTypes (providesTagsSource ep) tagTypes))
                tags endpoints)) ∧
  ∀ t,
    t ∈ foldl (λ tagTypes ep,
                 extractTagTypes (invalidatesTagsSource ep)
                   (extractTagTypes (providesTagsSource ep) tagTypes))
              tags endpoints ↔
    t ∈ tags ∨
    ∃ ep s, ep ∈ endpoints ∧ s ∈ tagSources ep ∧
            t ∈ quotedTokens None s ∧ firstIsUpperCased t = true.
Proof.
  revert tags. induction endpoints as [|ep eps IH]; intros tags; simpl.
  - split; [done|]. intros t. split; [by left|].
    by intros [?|(? & ? & ?%elem_of_nil & _)].
  - destruct (IH (extractTagTypes (invalidatesTagsSource ep)
                    (extractTagTypes (providesTagsSource ep) tags)))
      as [Hnd Hin].
    split.
    + intros ?. by apply Hnd, NoDup_extractTagTypes, NoDup_extractTagTypes.
    + intros t. rewrite Hin, !elem_of_extractTagTypes. unfold tagSources.
      split.
      * intros [[[?|(s & Hs & ? & ?)]|(s & Hs & ? & ?)]|(ep' & s & ? & ?)].
        -- by left.
        -- right. exists ep, s. rewrite Hs. split_and!; [by left| |done..].
           apply elem_of_app. left. by left.
        -- right. exists ep, s. rewrite Hs. split_and!; [by left| |done..].
           apply elem_of_app. right. by left.
        -- right. exists ep', s. split; [by right|done].
      * intros [?|(ep' & s & [->|?]%elem_of_cons & Hs & ? & ?)].
        -- by left; left; left.
        -- left. apply elem_of_app in Hs as [Hs|Hs].
           ++ left. right. exists s.
              destruct (truthy (providesTagsSource ep)); [|by apply elem_of_nil in Hs].
              by apply list_elem_of_singleton in Hs as ->.
           ++ right. exists s.
              destruct (truthy (invalidatesTagsSource ep)); [|by apply elem_of_nil in Hs].
              by apply list_elem_of_singleton in Hs as ->.
        -- right. by exists ep', s.
Qed.

(** X12: the tag types of the API file.  They hold no tag twice; a tag is
    among them exactly when it is a quoted token, left alone in its first
    character by upper-casing, of the provides or invalidates text of some
    endpoint; and the sorted list that goes into the [tagTypes] line does not
    depend on the order of the endpoints. *)
Theorem collectTagTypes_spec endpoints :
  NoDup (collectTagTypes endpoints) ∧
  (∀ t, t ∈ collectTagTypes endpoints ↔
        ∃ ep s, ep ∈ endpoints ∧ s ∈ tagSources ep ∧
                t ∈ quotedTokens None s ∧ firstIsUpperCased t = true) ∧
  (∀ endpoints',
     endpoints ≡ₚ endpoints' →
     Js.sort (collectTagTypes endpoints)
     = Js.sort (collectTagTypes endpoints')).
Proof.
  unfold collectTagTypes.
  assert (∀ eps t,
            t ∈ foldl (λ tagTypes ep,
                         extractTagTypes (invalidatesTagsSource ep)
                           (extractTagTypes (providesTagsSource ep) tagTypes))
                      [] eps ↔
            ∃ ep s, ep ∈ eps ∧ s ∈ tagSources ep ∧
                    t ∈ quotedTokens None s ∧ firstIsUpperCased t = true)
    as Hin.
  { intros eps t. destruct (collectTagTypes_loop eps []) as [_ ->].
    rewrite elem_of_nil. naive_solver. }
  split_and!.
  - apply collectTagTypes_loop. constructor.
  - apply Hin.
  - intros eps' Hp. apply sort_Permutation.
    apply NoDup_Permutation; [apply collectTagTypes_loop; constructor..|].
    intros t. rewrite !Hin. by setoid_rewrite Hp.
Qed.

Section import_maps.

Lemma importsType_ensure m p p' t' :
  importsType (if Js.map_has m p then m else Js.map_set m p []) p' t'
  ↔ importsType m p' t'.
Proof.
  unfold importsType. destruct (Js.map_has m p) eqn:Hhas; [done|].
  apply map_has_false in Hhas. setoid_rewrite map_get_set.
  case_decide as Hp; [subst p'|done]. rewrite Hhas. split.
  - intros (types & [= <-] & Ht). by apply elem_of_nil in Ht.
  - by intros (types & [=] & _).
Qed.

Lemma importsType_add m p t p' t' :
  importsType (Js.map_set m p (Js.set_add (default [] (Js.map_get m p)) t)) p' t'
  ↔ importsType m p' t' ∨ (p' = p ∧ t' = t).
Proof.
  unfold importsType. setoid_rewrite map_get_set.
  case_decide as Hp; [subst p'|naive_solver]. split.
  - intros (types & [= <-] & [Ht| ->]%elem_of_set_add); [left|by right].
    destruct (Js.map_get m p) as [types|]; [by eauto|by apply elem_of_nil in Ht].
  - intros [(types & Hg & Ht)|[_ ->]]; eexists; (split; [done|]);
      apply elem_of_set_add; [left|by right]. by rewrite Hg.
Qed.

Lemma mapOfSets_ensure m p :
  mapOfSets m → mapOfSets (if Js.map_has m p then m else Js.map_set m p []).
Proof.
  intros [Hk Hs]. destruct (Js.map_has m p); [done|].
  split; [by apply map_set_NoDup|].
  intros p' types [[= -> ->]|?]%elem_of_map_set; [constructor|by eapply Hs].
Qed.

Lemma mapOfSets_add m p t :
  mapOfSets m →
  mapOfSets (Js.map_set m p (Js.set_add (default [] (Js.map_get m p)) t)).
Proof.
  intros [Hk Hs]. split; [by apply map_set_NoDup|].
  intros p' types [[= -> ->]|?]%elem_of_map_set; [|by eapply Hs].
  apply NoDup_set_add.
  destruct (Js.map_get m p) as [types|] eqn:Hg; [|constructor].
  apply map_get_Some_elem_of in Hg. by eapply Hs.
Qed.

Lemma importsType_addToMapSet m p t p' t' :
  importsType (addToMapSet m p t) p' t'
  ↔ importsType m p' t' ∨ (p' = p ∧ t' = t).
Proof. unfold addToMapSet. by rewrite importsType_add, importsType_ensure. Qed.

Lemma mapOfSets_addToMapSet m p t :
  mapOfSets m → mapOfSets (addToMapSet m p t).
Proof. intros ?. unfold addToMapSet. by apply mapOfSets_add, mapOfSets_ensure. Qed.

(** X13: [addToMapSet] on a map of sets gives a map of sets that asks for
    what the old one asked and for the new pair, and nothing else; adding a
    pair a second time changes nothing. *)
Theorem addToMapSet_spec m p t :
  mapOfSets m →
  mapOfSets (addToMapSet m p t) ∧
  (∀ p' t', importsType (addToMapSet m p t) p' t'
            ↔ importsType m p' t' ∨ (p' = p ∧ t' = t)) ∧
  addToMapSet (addToMapSet m p t) p t = addToMapSet m p t.
Proof.
  intros Hm. split_and!; [by apply mapOfSets_addToMapSet|
                          intros; apply importsType_addToMapSet|].
  unfold addToMapSet at 1.
  assert (∃ types, Js.map_get (addToMapSet m p t) p = Some types ∧ t ∈ types)
    as (types & Hg & Ht).
  { apply importsType_addToMapSet. by right. }
  unfold Js.map_has. rewrite Hg, bool_decide_eq_true_2 by eauto.
  cbv zeta. rewrite Hg. simpl.
  unfold Js.set_add, Js.set_has. rewrite bool_decide_eq_true_2 by done.
  clear Ht. revert Hg. generalize (addToMapSet m p t). intros m'.
  induction m' as [|[k v] m' IH]; simpl; [done|].
  case_decide; [by intros [= ->]; subst|]. intros ?. by rewrite IH.
Qed.

Lemma addToMapSet_spec_witness :
  mapOfSets (addToMapSet [("@/types/task", ["Task"])] "@/types/task" "TaskInput") ∧
  (∀ p' t',
     importsType
       (addToMapSet [("@/types/task", ["Task"])] "@/types/task" "TaskInput") p' t'
     ↔ importsType [("@/types/task", ["Task"])] p' t' ∨
       (p' = "@/types/task" ∧ t' = "TaskInput")) ∧
  addToMapSet
    (addToMapSet [("@/types/task", ["Task"])] "@/types/task" "TaskInput")
    "@/types/task" "TaskInput"
  = addToMapSet [("@/types/task", ["Task"])] "@/types/task" "TaskInput".
Proof.
  apply (addToMapSet_spec [("@/types/task", ["Task"])]
           "@/types/task" "TaskInput").
  split.
  - vm_compute. repeat constructor. by intros ?%elem_of_nil.
  - intros p types [[= -> ->]|?%elem_of_nil]%elem_of_cons; [|done].
    repeat constructor. by intros ?%elem_of_nil.
Defined.

End import_maps.

Section type_imports.
Context (rt : Runtime) (responseType argsType absPath : string)
        (config : ResolvedConfig).

Lemma resolveNamedImport_step ms st n :
  let st' := resolveNamedImport rt responseType argsType absPath config ms st n in
  let aliasPath := resolveToAlias rt ms absPath config in
  (mapOfSets st.1.1 → mapOfSets st'.1.1) ∧
  (∀ p t, importsType st'.1.1 p t ↔
          importsType st.1.1 p t ∨
          (p = aliasPath ∧ t = n ∧
           (Js.includes responseType n = true ∨ Js.includes argsType n = true))) ∧
  st'.1.2 = (if Js.includes responseType n then Some aliasPath else st.1.2) ∧
  st'.2 = (if Js.includes argsType n then Some aliasPath else st.2).
Proof.
  destruct st as [[imports r] a]. unfold resolveNamedImport. simpl.
  destruct (Js.includes responseType n), (Js.includes argsType n); simpl;
    (split_and!; [auto using mapOfSets_addToMapSet| |done|done]);
    intros p t; rewrite ?importsType_addToMapSet; naive_solver.
Qed.

Lemma resolveNamedImport_loop ms names st :
  let st' := foldl (resolveNamedImport rt responseType argsType absPath config ms)
                   st names in
  let aliasPath := resolveToAlias rt ms absPath config in
  (mapOfSets st.1.1 → mapOfSets st'.1.1) ∧
  (∀ p t, importsType st'.1.1 p t ↔
          importsType st.1.1 p t ∨
          (p = aliasPath ∧ t ∈ names ∧
           (Js.includes responseType t = true ∨ Js.includes argsType t = true))) ∧
  st'.1.2 = (if existsb (Js.includes responseType) names
             then Some aliasPath else st.1.2) ∧
  st'.2 = (if existsb (Js.includes argsType) names
           then Some aliasPath else st.2).
Proof.
  revert st. induction names as [|n names IH]; intros st; simpl.
  - split_and!; [done| |done|done]. intros p t.
    split; [by left|]. by intros [?|(_ & ?%elem_of_nil & _)].
  - destruct (IH (resolveNamedImport rt responseType argsType absPath config
                    ms st n)) as (Hm & Hin & Hr & Ha).
    destruct (resolveNamedImport_step ms st n) as (Hm1 & Hin1 & Hr1 & Ha1).
    simpl in *. split_and!.
    + auto.
    + intros p t. rewrite Hin, Hin1, elem_of_cons. naive_solver.
    + rewrite Hr, Hr1. clear.
      by destruct (Js.includes responseType n),
           (existsb (Js.includes responseType) names).
    + rewrite Ha, Ha1. clear.
      by destruct (Js.includes argsType n),
           (existsb (Js.includes argsType) names).
Qed.

Lemma resolveTypeImports_loop decls st :
  let st' :=
    foldl (λ st importDecl,
             foldl (resolveNamedImport rt responseType argsType absPath config
                      (moduleSpecifierValue importDecl))
                   st (namedImports importDecl))
          st decls in
  let aliasOf d := resolveToAlias rt (moduleSpecifierValue d) absPath config in
  (mapOfSets st.1.1 → mapOfSets st'.1.1) ∧
  (∀ p t, importsType st'.1.1 p t ↔
          importsType st.1.1 p t ∨
          ∃ d, d ∈ decls ∧ p = aliasOf d ∧ t ∈ namedImports d ∧
               (Js.includes responseType t = true ∨
                Js.includes argsType t = true)) ∧
  st'.1.2 = match last (filter (λ d, Is_true (importsFor responseType d)) decls) with
            | Some d => Some (aliasOf d)
            | None => st.1.2
            end ∧
  st'.2 = match last (filter (λ d, Is_true (importsFor argsType d)) decls) with
          | Some d => Some (aliasOf d)
          | None => st.2
          end.
Proof.
  revert st. induction decls as [|d decls IH]; intros st; cbn [foldl].
  - split_and!; [done| |done|done]. intros p t.
    split; [by left|]. by intros [?|(? & ?%elem_of_nil & _)].
  - destruct (IH (foldl (resolveNamedImport rt responseType argsType absPath
                           config (moduleSpecifierValue d))
                        st (namedImports d))) as (Hm & Hin & Hr & Ha).
    destruct (resolveNamedImport_loop (moduleSpecifierValue d) (namedImports d) st)
      as (Hm1 & Hin1 & Hr1 & Ha1).
    cbv zeta in *. split_and!.
    + auto.
    + intros p t. rewrite Hin, Hin1. setoid_rewrite elem_of_cons. naive_solver.
    + rewrite Hr, Hr1, filter_cons.
      change (existsb (Js.includes responseType) (namedImports d))
        with (importsFor responseType d).
      destruct (importsFor responseType d).
      * rewrite decide_True by done. rewrite last_cons. by destruct (last _).
      * rewrite decide_False; [done|]. simpl. tauto.
    + rewrite Ha, Ha1, filter_cons.
      change (existsb (Js.includes argsType) (namedImports d))
        with (importsFor argsType d).
      destruct (importsFor argsType d).
      * rewrite decide_True by done. rewrite last_cons. clear.
        by destruct (last _).
      * rewrite decide_False; [done|]. simpl. tauto.
Qed.

(** X14: the type imports of an endpoint.  The import map is a map of sets
    that asks for a name from a module exactly when some import declaration
    of that (alias-resolved) module names it and the text of the response
    type or of the args type contains the name as a substring; the import
    path recorded for the response (args) type is that of the last import
    declaration with such a name, and none when there is no such
    declaration. *)
Theorem resolveTypeImports_spec decls :
  let st := resolveTypeImports rt responseType argsType absPath config decls in
  let aliasOf d := resolveToAlias rt (moduleSpecifierValue d) absPath config in
  mapOfSets st.1.1 ∧
  (∀ p t, importsType st.1.1 p t ↔
          ∃ d, d ∈ decls ∧ p = aliasOf d ∧ t ∈ namedImports d ∧
               (Js.includes responseType t = true ∨
                Js.includes argsType t = true)) ∧
  st.1.2 = aliasOf <$> last (filter (λ d, Is_true (importsFor responseType d)) decls) ∧
  st.2 = aliasOf <$> last (filter (λ d, Is_true (importsFor argsType d)) decls).
Proof.
  intros st aliasOf. subst st. unfold resolveTypeImports.
  destruct (resolveTypeImports_loop decls ([], None, None))
    as (Hm & Hin & Hr & Ha).
  simpl in *. split_and!.
  - apply Hm. split; [constructor|]. by intros ?? ?%elem_of_nil.
  - intros p t. rewrite Hin. split; [|by right].
    intros [(types & [=] & _)|?]. done.
  - rewrite Hr. by destruct (last _).
  - rewrite Ha. by destruct (last _).
Qed.

End type_imports.

Lemma collectTypeImports_types p types all :
  let all' :=
    foldl (λ all t, Js.map_set all p
             (Js.set_add (default [] (Js.map_get all p)) t))
          all types in
  (mapOfSets all → mapOfSets all') ∧
  (∀ p' t', importsType all' p' t' ↔
            importsType all p' t' ∨ (p' = p ∧ t' ∈ types)) ∧
  (∀ k, k ∈ Js.map_keys all → k ∈ Js.map_keys all').
Proof.
  revert all. induction types as [|t types IH]; intros all; simpl.
  - split_and!; [done| |done]. intros p' t'. rewrite elem_of_nil. naive_solver.
  - destruct (IH (Js.map_set all p
                    (Js.set_add (default [] (Js.map_get all p)) t)))
      as (Hm & Hin & Hk).
    simpl in *. split_and!.
    + intros ?. by apply Hm, mapOfSets_add.
    + intros p' t'. rewrite Hin, importsType_add, elem_of_cons. naive_solver.
    + intros k Hin'. apply Hk. rewrite map_keys_set.
      destruct (Js.map_has all p); [done|]. apply elem_of_app. by left.
Qed.

Lemma collectTypeImports_entries entries all :
  let all' :=
    foldl (λ all '(importPath, types),
             let all := if Js.map_has all importPath then all
                        else Js.map_set all importPath [] in
             foldl (λ all t, Js.map_set all importPath
                      (Js.set_add (default [] (Js.map_get all importPath)) t))
                   all types)
          all entries in
  (mapOfSets all → mapOfSets all') ∧
  (∀ p t, importsType all' p t ↔
          importsType all p t ∨
          ∃ types, (p, types) ∈ entries ∧ t ∈ types) ∧
  (∀ k, k ∈ Js.map_keys all ∨ k ∈ entries.*1 → k ∈ Js.map_keys all').
Proof.
  revert all. induction entries as [|[q types] entries IH]; intros all; simpl.
  - split_and!; [done| |].
    + intros p t. split; [by left|]. by intros [?|(? & ?%elem_of_nil & _)].
    + by intros k [?|?%elem_of_nil].
  - set (all1 := if Js.map_has all q then all else Js.map_set all q []).
    destruct (collectTypeImports_types q types all1) as (Hm1 & Hin1 & Hk1).
    destruct (IH (foldl (λ all t, Js.map_set all q
                           (Js.set_add (default [] (Js.map_get all q)) t))
                        all1 types)) as (Hm & Hin & Hk).
    simpl in *. split_and!.
    + intros ?. by apply Hm, Hm1, mapOfSets_ensure.
    + intros p t. rewrite Hin, Hin1. subst all1. rewrite importsType_ensure.
      setoid_rewrite elem_of_cons. naive_solver.
    + intros k Hkk. apply Hk.
      assert (q ∈ Js.map_keys all1 ∧ (k ∈ Js.map_keys all → k ∈ Js.map_keys all1))
        as [Hq Hall].
      { subst all1. destruct (Js.map_has all q) eqn:Hhas.
        - split; [|done]. apply elem_of_map_keys.
          by apply bool_decide_eq_true in Hhas.
        - rewrite map_keys_set, Hhas. split; [|intros ?]; apply elem_of_app;
            [right; by left|by left]. }
      destruct Hkk as [?|[->|?]%elem_of_cons]; [left; auto|left; auto|by right].
Qed.

(** X15: the type imports of the API file: a map of sets that asks for a
    type from a module exactly when the import map of some endpoint has an
    entry for that module with the type in it; every module of every
    endpoint has a key, also one with an empty set. *)
Theorem collectTypeImports_spec endpoints :
  mapOfSets (collectTypeImports endpoints) ∧
  (∀ p t, importsType (collectTypeImports endpoints) p t ↔
          ∃ ep types, ep ∈ endpoints ∧ (p, types) ∈ typeImports ep ∧
                      t ∈ types) ∧
  (∀ ep p, ep ∈ endpoints → p ∈ Js.map_keys (typeImports ep) →
           p ∈ Js.map_keys (collectTypeImports endpoints)).
Proof.
  unfold collectTypeImports.
  assert (∀ eps all,
    let all' :=
      foldl (λ all ep,
               foldl (λ all '(importPath, types),
                        let all := if Js.map_has all importPath then all
                                   else Js.map_set all importPath [] in
                        foldl (λ all t, Js.map_set all importPath
                                 (Js.set_add (default [] (Js.map_get all importPath)) t))
                              all types)
                     all (typeImports ep))
            all eps in
    (mapOfSets all → mapOfSets all') ∧
    (∀ p t, importsType all' p t ↔
            importsType all p t ∨
            ∃ ep types, ep ∈ eps ∧ (p, types) ∈ typeImports ep ∧ t ∈ types) ∧
    (∀ k, k ∈ Js.map_keys all ∨
          (∃ ep, ep ∈ eps ∧ k ∈ Js.map_keys (typeImports ep)) →
          k ∈ Js.map_keys all')) as Hloop.
  { induction eps as [|ep eps IH]; intros all; simpl.
    - split_and!; [done| |].
      + intros p t. split; [by left|].
        by intros [?|(? & ? & ?%elem_of_nil & _)].
      + by intros k [?|(? & ?%elem_of_nil & _)].
    - destruct (collectTypeImports_entries (typeImports ep) all)
        as (Hm1 & Hin1 & Hk1).
      destruct (IH (foldl (λ all '(importPath, types),
                        let all := if Js.map_has all importPath then all
                                   else Js.map_set all importPath [] in
                        foldl (λ all t, Js.map_set all importPath
                                 (Js.set_add (default [] (Js.map_get all importPath)) t))
                              all types)
                     all (typeImports ep))) as (Hm & Hin & Hk).
      simpl in *. split_and!.
      + auto.
      + intros p t. rewrite Hin, Hin1. setoid_rewrite elem_of_cons.
        naive_solver.
      + intros k Hkk. apply Hk.
        destruct Hkk as [?|(ep' & [->|?]%elem_of_cons & ?)];
          [left; apply Hk1; by left|left; apply Hk1; by right|right; eauto]. }
  destruct (Hloop endpoints []) as (Hm & Hin & Hk). simpl in *.
  split_and!.
  - apply Hm. split; [constructor|]. by intros ?? ?%elem_of_nil.
  - intros p t. rewrite Hin. split; [|by right].
    intros [(types & [=] & _)|?]. done.
  - intros ep p ? ?. apply Hk. right. eauto.
Qed.

(** ** The groups of the route grouper *)

Section grouping_keys.
Context (rt : Runtime) (routesCfg : RoutesConfig).

Lemma set_has_map_keys {V} (m : list (string * V)) k :
  Js.set_has (Js.map_keys m) k = Js.map_has m k.
Proof.
  unfold Js.set_has, Js.map_has. apply bool_decide_ext, elem_of_map_keys.
Qed.

Lemma map_set_not_nil {V} (m : list (string * V)) k v : Js.map_set m k v ≠ [].
Proof. destruct m as [|[k0 v0] m]; simpl; [done|by case_decide]. Qed.

Lemma groupStep_keys groups ep :
  Js.map_keys (groupStep rt routesCfg groups ep)
  = if hasHandler ep then Js.set_add (Js.map_keys groups) (routePath ep)
    else Js.map_keys groups.
Proof.
  unfold groupStep, Js.set_add. rewrite set_has_map_keys.
  destruct (hasHandler ep); cbn [negb]; [|done].
  destruct (Js.map_has groups (routePath ep)) eqn:Hhas.
  - pose proof Hhas as [g Hg]%bool_decide_eq_true. rewrite Hg.
    by rewrite map_keys_set, Hhas.
  - rewrite map_get_set_eq, !map_keys_set, Hhas.
    unfold Js.map_has at 1. rewrite map_get_set_eq.
    by rewrite bool_decide_eq_true_2 by eauto.
Qed.

Lemma map_set_set {V} (m : list (string * V)) k v1 v2 :
  Js.map_set (Js.map_set m k v1) k v2 = Js.map_set m k v2.
Proof.
  induction m as [|[k0 v0] m IH]; simpl.
  - by rewrite decide_True.
  - case_decide; simpl; [by rewrite decide_True|].
    by rewrite decide_False, IH.
Qed.

Lemma groupStep_groups groups ep :
  groupDirs rt routesCfg groups →
  groupDirs rt routesCfg (groupStep rt routesCfg groups ep).
Proof.
  intros Hgroups. unfold groupStep.
  destruct (hasHandler ep); cbn [negb]; [|done].
  destruct (Js.map_has groups (routePath ep)) eqn:Hhas.
  - pose proof Hhas as [g0 Hg]%bool_decide_eq_true. rewrite Hg.
    intros r g [[= -> ->]|?]%elem_of_map_set; [|by apply Hgroups].
    split; [|apply map_set_not_nil]. simpl.
    by apply map_get_Some_elem_of, Hgroups in Hg as [? _].
  - rewrite map_get_set_eq, map_set_set.
    intros r g [[= -> ->]|?]%elem_of_map_set; [|by apply Hgroups].
    split; [done|]. simpl. done.
Qed.

Lemma groupsFoldl_keys endpoints groups :
  Js.map_keys (foldl (groupStep rt routesCfg) groups endpoints)
  = foldl Js.set_add (Js.map_keys groups)
      (routePath <$> filter (λ ep, Is_true (hasHandler ep)) endpoints).
Proof.
  revert groups. induction endpoints as [|ep eps IH]; intros groups; [done|].
  cbn [foldl]. rewrite IH, groupStep_keys, filter_cons.
  destruct (hasHandler ep).
  - by rewrite decide_True by done.
  - rewrite decide_False; [done|]. simpl. tauto.
Qed.

Lemma groupsFoldl_groups endpoints groups :
  groupDirs rt routesCfg groups →
  groupDirs rt routesCfg (foldl (groupStep rt routesCfg) groups endpoints).
Proof.
  revert groups. induction endpoints as [|ep eps IH]; intros groups ?; [done|].
  cbn [foldl]. by apply IH, groupStep_groups.
Qed.

End grouping_keys.

(** X16: the groups of the route grouper come in the order in which their
    routes first appear among the endpoints with a handler, each route once;
    every group has its directory under the routes directory, at the route
    without its leading /api/, and at least one method.  Without a routes
    configuration there is no group. *)
Theorem groupEndpointsByRoute_keys rt endpoints config :
  match routes config with
  | None => groupEndpointsByRoute rt endpoints config = []
  | Some routesCfg =>
      Js.map_keys (groupEndpointsByRoute rt endpoints config)
      = foldl Js.set_add []
          (routePath <$> filter (λ ep, Is_true (hasHandler ep)) endpoints) ∧
      groupDirs rt routesCfg (groupEndpointsByRoute rt endpoints config)
  end.
Proof.
  unfold groupEndpointsByRoute. destruct (routes config) as [routesCfg|]; [|done].
  split; [apply groupsFoldl_keys|apply groupsFoldl_groups].
  by intros ?? ?%elem_of_nil.
Qed.

(** ** Files that share a route *)

Lemma api_prefix_inj a b : "/api/" +:+ a = "/api/" +:+ b → a = b.
Proof. unfold String.app. simpl. congruence. Qed.

(** X17: which endpoint files share a route.  With path segments free of
    slashes: two CRUD-named files of one directory have the same route; a
    file with another name has the route of the CRUD-named files of the
    directory of its name; and two files with other names have the same
    route only when they are the same file. *)
Theorem deriveRoutePath_collisions dirs f g config :
  Forall (λ s, noSlash s = true) dirs → noSlash f = true → noSlash g = true →
  (f ∈ crudFilenames config → g ∈ crudFilenames config →
   deriveRoutePath (endpointPath dirs f) config
   = deriveRoutePath (endpointPath dirs g) config) ∧
  (f ∉ crudFilenames config → g ∈ crudFilenames config →
   deriveRoutePath (endpointPath dirs f) config
   = deriveRoutePath (endpointPath (dirs ++ [f]) g) config) ∧
  (f ∉ crudFilenames config → g ∉ crudFilenames config →
   ∀ dirs', Forall (λ s, noSlash s = true) dirs' →
            deriveRoutePath (endpointPath dirs f) config
            = deriveRoutePath (endpointPath dirs' g) config →
            dirs = dirs' ∧ f = g).
Proof.
  intros Hdirs Hf Hg. unfold endpointPath. split_and!.
  - intros Hfc Hgc. rewrite !deriveRoutePath_segments by done.
    by rewrite !bool_decide_eq_true_2 by done.
  - intros Hfc Hgc. rewrite !deriveRoutePath_segments; [|by apply Forall_app; split; [|repeat constructor]|done|done|done].
    rewrite bool_decide_eq_false_2, bool_decide_eq_true_2 by done.
    by rewrite app_nil_r.
  - intros Hfc Hgc dirs' Hdirs'. rewrite !deriveRoutePath_segments by done.
    rewrite !bool_decide_eq_false_2 by done.
    intros Heq%api_prefix_inj. apply (f_equal (Js.split "/")) in Heq.
    rewrite !split_join in Heq;
      [|by destruct dirs'|apply Forall_app; split; [done|by repeat constructor]
       |by destruct dirs|apply Forall_app; split; [done|by repeat constructor]].
    by apply app_inj_tail in Heq.
Qed.

Lemma deriveRoutePath_collisions_witness :
  (("list" : string) ∈ crudFilenames Sample.config →
   ("create" : string) ∈ crudFilenames Sample.config →
   deriveRoutePath (endpointPath ["tasks"] "list") Sample.config
   = deriveRoutePath (endpointPath ["tasks"] "create") Sample.config) ∧
  (("list" : string) ∉ crudFilenames Sample.config →
   ("create" : string) ∈ crudFilenames Sample.config →
   deriveRoutePath (endpointPath ["tasks"] "list") Sample.config
   = deriveRoutePath (endpointPath (["tasks"] ++ ["list"]) "create") Sample.config) ∧
  (("list" : string) ∉ crudFilenames Sample.config →
   ("create" : string) ∉ crudFilenames Sample.config →
   ∀ dirs', Forall (λ s, noSlash s = true) dirs' →
            deriveRoutePath (endpointPath ["tasks"] "list") Sample.config
            = deriveRoutePath (endpointPath dirs' "create") Sample.config →
            ["tasks"] = dirs' ∧ ("list" : string) = "create").
Proof.
  apply (deriveRoutePath_collisions ["tasks"] "list" "create" Sample.config).
  - by repeat constructor.
  - reflexivity.
  - reflexivity.
Defined.

(** ** Alias resolution *)

Lemma startsWith_app p s : Js.startsWith (p +:+ s) p = true.
Proof.
  unfold Js.startsWith, String.app.
  induction p as [|c p IH]; simpl; [by destruct s|].
  by destruct (ascii_dec c c).
Qed.

(** X18: [resolveToAlias] returns the specifier as it is or a path under
    the alias, and resolving its result again changes nothing. *)
Theorem resolveToAlias_idempotent rt moduleSpecifier fromFile config :
  (resolveToAlias rt moduleSpecifier fromFile config = moduleSpecifier ∨
   Js.startsWith (resolveToAlias rt moduleSpecifier fromFile config)
                 (pathAlias config +:+ "/") = true) ∧
  resolveToAlias rt (resolveToAlias rt moduleSpecifier fromFile config)
                 fromFile config
  = resolveToAlias rt moduleSpecifier fromFile config.
Proof.
  unfold resolveToAlias at 1 2 4 5.
  destruct (Js.startsWith moduleSpecifier (pathAlias config +:+ "/")) eqn:Hs.
  - split; [by left|]. unfold resolveToAlias. by rewrite Hs.
  - cbv zeta.
    destruct (Js.startsWith (path_resolve rt (path_dirname rt fromFile)
                               moduleSpecifier) (aliasRoot config)) eqn:Hr.
    + rewrite <-string_app_assoc. split; [right; apply startsWith_app|].
      unfold resolveToAlias. by rewrite startsWith_app.
    + split; [by left|]. unfold resolveToAlias. by rewrite Hs, Hr.
Qed.

(** ** The tokenizer of the optimistic updates *)

Lemma splitUpdates_block s : ∀ depth current rest,
  closesBlock depth s = true →
  splitUpdates depth current (s +:+ rest)
  = Js.trim (current +:+ s) :: splitUpdates 0 "" rest.
Proof.
  induction s as [|c s IH]; intros depth current rest; [done|].
  change (String c s +:+ rest) with (String c (s +:+ rest)).
  cbn [closesBlock splitUpdates].
  assert (current +:+ String c s = (current +:+ String c "") +:+ s) as Hc.
  { by rewrite string_app_assoc. }
  destruct (decide (c = "{"%char)) as [->|Ho].
  { intros H. by rewrite IH, Hc. }
  destruct (decide (c = "}"%char)) as [->|Hcl].
  { cbv zeta. destruct (decide (depth - 1 = 0)%Z) as [Hd|Hd].
    - intros ->%bool_decide_eq_true. rewrite Hd. done.
    - intros [_ H]%andb_true_iff. by rewrite IH, Hc. }
  intros [Hd H]%andb_true_iff. rewrite Hd. by rewrite IH, Hc.
Qed.

Lemma splitUpdates_sep sep rest :
  braceFree sep = true →
  splitUpdates 0 "" (sep +:+ rest) = splitUpdates 0 "" rest.
Proof.
  induction sep as [|c sep IH]; [done|].
  change (String c sep +:+ rest) with (String c (sep +:+ rest)).
  cbn [braceFree splitUpdates].
  intros [[Ho Hc]%andb_true_iff H]%andb_true_iff.
  apply negb_true_iff, bool_decide_eq_false in Ho, Hc.
  rewrite !decide_False by done. simpl. by apply IH.
Qed.

Lemma splitUpdates_tail tail :
  braceFree tail = true → splitUpdates 0 "" tail = [].
Proof.
  intros H. rewrite <-(string_app_nil_r tail). by rewrite splitUpdates_sep.
Qed.

(** X19: the tokenizer of [extractUpdatesArray] on a well-formed list.
    When the content is a sequence of brace blocks, each after a brace-free
    text, followed by a brace-free text, the elements are the blocks
    (trimmed), in order; braces inside a block do not split it. *)
Theorem splitUpdates_blocks seps blocks tail :
  length seps = length blocks →
  Forall (λ s, braceFree s = true) seps →
  Forall (λ b, closesBlock 0 b = true) blocks →
  braceFree tail = true →
  splitUpdates 0 "" (interleave seps blocks +:+ tail) = Js.trim <$> blocks.
Proof.
  intros Hlen Hseps. revert blocks Hlen.
  induction Hseps as [|sep seps Hsep Hseps IH]; intros [|b blocks] Hlen Hb Htail;
    try done.
  - simpl. by apply splitUpdates_tail.
  - apply Forall_cons in Hb as [Hb Hbs]. cbn [interleave].
    rewrite !string_app_assoc, splitUpdates_sep, splitUpdates_block by done.
    csimpl. f_equal. apply IH; [by injection Hlen|done..].
Qed.

Lemma splitUpdates_blocks_witness :
  splitUpdates 0 ""
    (interleave [" "; ", "] ["{ target: 'a', args: () => ({}) }"; "{ x: { y } }"]
     +:+ " ")
  = Js.trim <$> ["{ target: 'a', args: () => ({}) }"; "{ x: { y } }"].
Proof.
  apply (splitUpdates_blocks [" "; ", "]
           ["{ target: 'a', args: () => ({}) }"; "{ x: { y } }"] " ").
  - reflexivity.
  - by repeat constructor.
  - by repeat constructor.
  - reflexivity.
Defined.

(** ** The watcher *)

Section watch_facts.
Context (rt : Runtime) (config : ResolvedConfig).

Lemma watchRegenerate_files st w :
  ∃ w',
    watchRegenerate rt config st w = (st, Ok tt w') ∧
    w_files w' = regenerated rt config st (w_files w).
Proof.
  unfold watchRegenerate, regenerated, mbind, M_bind, bind.
  rewrite generate_afterWrites.
  unfold saveManifest, writeFileSync. eexists. split; [done|].
  cbn [w_files]. by rewrite afterWrites_files.
Qed.

Lemma regenerated_keeps st fs p :
  is_Some (fs !! p) → is_Some (regenerated rt config st fs !! p).
Proof.
  intros Hp. unfold regenerated. rewrite lookup_insert.
  case_decide; [by eauto|]. by apply storeAll_keeps.
Qed.

Lemma map_get_delete {V} (m : list (string * V)) k k' :
  NoDup (Js.map_keys m) →
  Js.map_get (mapDelete m k) k'
  = if decide (k = k') then None else Js.map_get m k'.
Proof.
  unfold Js.map_keys. induction m as [|[k0 v0] m IH]; csimpl.
  - by case_decide.
  - intros [Hk0 Hm]%NoDup_cons. destruct (decide (k0 = k)) as [->|Hne].
    + case_decide as Hk; [subst k'|done].
      by apply map_get_None.
    + simpl. rewrite IH by done. repeat case_decide; congruence.
Qed.

Lemma hashFile_eq p w :
  hashFile rt p w
  = match w_files w !! p with
    | Some c => Ok (md5_hex rt c) (extend w [ReadFile p])
    | None => Throw "ENOENT" (extend w [ReadFile p])
    end.
Proof.
  unfold hashFile, readFileSync, mbind, M_bind, bind.
  by destruct (w_files w !! p).
Qed.

(** X20: the timer callback on a file whose hash is the one in the
    manifest: it reads the file and returns; state and file system stay as
    they are and nothing is regenerated. *)
Theorem watchFire_unchanged filename st w content :
  let relPath := Js.replace_backslashes filename in
  let fullPath := path_join rt (endpointsDir config) relPath in
  existsSync rt (w_files w) (w_dirs w) fullPath = true →
  w_files w !! fullPath = Some content →
  Js.map_get (ws_manifest st) relPath = Some (md5_hex rt content) →
  watchFire rt config filename st w = (st, Ok tt (extend w [ReadFile fullPath])).
Proof.
  intros relPath fullPath Hex Hc Hm. unfold watchFire.
  fold relPath. fold fullPath. rewrite Hex, hashFile_eq, Hc.
  by rewrite decide_True.
Qed.

(** X21: the timer callback on a file that is gone.  It does not throw; the
    manifest and the cache lose the entry of the file and keep the others;
    everything is regenerated from the remaining descriptors and the
    manifest is saved.  No file is removed from the file system: the route
    file of the endpoint that is gone stays. *)
Theorem watchFire_removed filename st w :
  let relPath := Js.replace_backslashes filename in
  let fullPath := path_join rt (endpointsDir config) relPath in
  NoDup (Js.map_keys (ws_manifest st)) → NoDup (Js.map_keys (ws_cache st)) →
  existsSync rt (w_files w) (w_dirs w) fullPath = false →
  ∃ st' w',
    watchFire rt config filename st w = (st', Ok tt w') ∧
    (∀ k, Js.map_get (ws_manifest st') k
          = if decide (relPath = k) then None
            else Js.map_get (ws_manifest st) k) ∧
    (∀ k, Js.map_get (ws_cache st') k
          = if decide (relPath = k) then None else Js.map_get (ws_cache st) k) ∧
    w_files w' = regenerated rt config st' (w_files w) ∧
    (∀ p, is_Some (w_files w !! p) → is_Some (w_files w' !! p)).
Proof.
  intros relPath fullPath Hm Hc Hex. unfold watchFire.
  fold relPath. fold fullPath. rewrite Hex.
  destruct (watchRegenerate_files
              {| ws_manifest := mapDelete (ws_manifest st) relPath;
                 ws_cache := mapDelete (ws_cache st) relPath |}
              (extend w [Log ("ERTK: Removed " +:+ relPath)]))
    as (w' & -> & Hw').
  eexists _, w'. split; [done|]. cbn [ws_manifest ws_cache].
  split_and!.
  - intros k. by apply map_get_delete.
  - intros k. by apply map_get_delete.
  - done.
  - intros p Hp. rewrite Hw'. by apply regenerated_keeps.
Qed.

(** X22: the timer callback on a file whose hash is not the one in the
    manifest.  The manifest gets the new hash in every case; the rest goes
    by what the extraction from the file gives.  A descriptor: the cache
    gets it under the file and everything is regenerated.  Null: the cache
    stays as it is, the old descriptor of the file included, and everything
    is regenerated from it.  An exception: the callback throws it, with the
    cache and the file system as they were. *)
Theorem watchFire_changed filename st w content :
  let relPath := Js.replace_backslashes filename in
  let fullPath := path_join rt (endpointsDir config) relPath in
  let manifest := Js.map_set (ws_manifest st) relPath (md5_hex rt content) in
  existsSync rt (w_files w) (w_dirs w) fullPath = true →
  w_files w !! fullPath = Some content →
  Js.map_get (ws_manifest st) relPath ≠ Some (md5_hex rt content) →
  (∀ ep wp,
     parseEndpointFile rt relPath config w = Ok (Some ep) wp →
     descriptorOf config relPath ep ∧
     ∃ w',
       watchFire rt config filename st w
       = ({| ws_manifest := manifest;
             ws_cache := Js.map_set (ws_cache st) relPath ep |}, Ok tt w') ∧
       w_files w'
       = regenerated rt config
           {| ws_manifest := manifest;
              ws_cache := Js.map_set (ws_cache st) relPath ep |}
           (w_files w)) ∧
  (∀ wp,
     parseEndpointFile rt relPath config w = Ok None wp →
     ∃ w',
       watchFire rt config filename st w
       = ({| ws_manifest := manifest; ws_cache := ws_cache st |}, Ok tt w') ∧
       w_files w'
       = regenerated rt config
           {| ws_manifest := manifest; ws_cache := ws_cache st |}
           (w_files w)) ∧
  (∀ e wp,
     parseEndpointFile rt relPath config w = Throw e wp →
     ∃ w',
       watchFire rt config filename st w
       = ({| ws_manifest := manifest; ws_cache := ws_cache st |}, Throw e w') ∧
       w_files w' = w_files w ∧ w_dirs w' = w_dirs w).
Proof.
  intros relPath fullPath manifest Hex Hc Hm. unfold watchFire.
  fold relPath. fold fullPath. rewrite Hex, hashFile_eq, Hc.
  rewrite decide_False by done. fold manifest.
  destruct (parseEndpointFile_frame rt relPath config w
              (extend w [ReadFile fullPath]))
    as (evs & [(r & Hw & Hw1)|(e & Hw & Hw1)]); [done| |];
    rewrite Hw, Hw1.
  - split_and!; [| |by intros ???].
    + intros ep wp [= -> <-]. split.
      * rewrite parseEndpointFile_unfold in Hw.
        change (path_join rt (endpointsDir config) relPath) with fullPath in Hw.
        rewrite Hc in Hw.
        destruct (parseSourceFile_cases rt (parseSource rt content) relPath
                    fullPath config (extend w (loadEvents rt config relPath)))
          as [(ep' & Hp & _ & Hep)|[[reason Hp]|[e Hp]]];
          rewrite Hp in Hw; [|done..].
        by injection Hw as <- _.
      * destruct (watchRegenerate_files
                    {| ws_manifest := manifest;
                       ws_cache := Js.map_set (ws_cache st) relPath ep |}
                    (extend (extend (extend w [ReadFile fullPath]) evs)
                            [Log ("ERTK: Updated " +:+ name ep)]))
          as (w' & -> & Hw').
        by exists w'.
    + intros wp [= -> <-].
      destruct (watchRegenerate_files
                  {| ws_manifest := manifest; ws_cache := ws_cache st |}
                  (extend (extend w [ReadFile fullPath]) evs))
        as (w' & -> & Hw').
      by exists w'.
  - split_and!; [by intros ???|by intros ??|].
    intros e' wp [= -> <-]. by eexists.
Qed.

Lemma watchRun_events events wt w :
  watchRun rt config (FsEvent <$> events) wt w
  = ({| wt_timer := from_option id (wt_timer wt)
                      (last (filter (λ e, Is_true (watched e)) events));
        wt_state := wt_state wt |}, Ok tt w).
Proof.
  revert wt. induction events as [|e events IH]; intros wt.
  - simpl. by destruct wt.
  - cbn [fmap list_fmap watchRun watchStep]. rewrite filter_cons.
    destruct (watched e) eqn:He.
    + rewrite IH, decide_True by done. cbn [wt_timer wt_state].
      rewrite last_cons. by destruct (last _).
    + rewrite IH, decide_False; [done|]. simpl. tauto.
Qed.

Lemma watchRun_app steps1 steps2 wt w wt1 w1 :
  watchRun rt config steps1 wt w = (wt1, Ok tt w1) →
  watchRun rt config (steps1 ++ steps2) wt w
  = watchRun rt config steps2 wt1 w1.
Proof.
  revert wt w. induction steps1 as [|s steps1 IH]; intros wt w; simpl.
  - by intros [= <- <-].
  - destruct (watchStep rt config s wt w) as [wt' [[] w'|e w']]; [|done].
    apply IH.
Qed.

(** X23: debouncing.  After any number of change events without the timer
    firing in between, the timer fires once, for the last watched name of
    the burst (or the name that was pending before it): the callback runs
    for that file only, and the other files reported in the burst are not
    looked at. *)
Theorem watchRun_debounce events wt w :
  watchRun rt config ((FsEvent <$> events) ++ [TimerFires]) wt w
  = watchStep rt config TimerFires
      {| wt_timer := from_option id (wt_timer wt)
                       (last (filter (λ e, Is_true (watched e)) events));
         wt_state := wt_state wt |}
      w.
Proof.
  rewrite (watchRun_app _ _ _ _ _ _ (watchRun_events events wt w)).
  cbn [watchRun].
  by destruct (watchStep rt config TimerFires _ w) as [wt' [[] w'|e w']].
Qed.

End watch_facts.

Lemma watchFire_unchanged_witness :
  watchFire watchRuntime Sample.config "tasks\list.ts" watchStarted.1
            watchStarted.2
  = (watchStarted.1,
     Ok tt (extend watchStarted.2 [ReadFile "/p/src/endpoints/tasks/list.ts"])).
Proof.
  apply (watchFire_unchanged watchRuntime Sample.config "tasks\list.ts"
           watchStarted.1 watchStarted.2 "get listTasks");
    vm_compute; reflexivity.
Defined.

Lemma watchFire_removed_witness :
  ∃ st' w',
    watchFire watchRuntime Sample.config "tasks/list.ts" watchStarted.1
              watchDeleted = (st', Ok tt w') ∧
    (∀ k, Js.map_get (ws_manifest st') k
          = if decide ("tasks/list.ts" = k) then None
            else Js.map_get (ws_manifest watchStarted.1) k) ∧
    (∀ k, Js.map_get (ws_cache st') k
          = if decide ("tasks/list.ts" = k) then None
            else Js.map_get (ws_cache watchStarted.1) k) ∧
    w_files w' = regenerated watchRuntime Sample.config st' (w_files watchDeleted) ∧
    (∀ p, is_Some (w_files watchDeleted !! p) → is_Some (w_files w' !! p)).
Proof.
  apply (watchFire_removed watchRuntime Sample.config "tasks/list.ts"
           watchStarted.1 watchDeleted).
  - vm_compute. repeat constructor; rewrite ?elem_of_cons, ?elem_of_nil;
      intros H; repeat destruct H as [H|H]; discriminate || done.
  - vm_compute. repeat constructor; rewrite ?elem_of_cons, ?elem_of_nil;
      intros H; repeat destruct H as [H|H]; discriminate || done.
  - vm_compute. reflexivity.
Defined.

Lemma watchFire_changed_witness :
  ∃ ep w',
    name ep = "listAllTasks" ∧
    descriptorOf Sample.config "tasks/list.ts" ep ∧
    watchFire watchRuntime Sample.config "tasks/list.ts" watchStarted.1
              watchEdited
    = ({| ws_manifest :=
            Js.map_set (ws_manifest watchStarted.1) "tasks/list.ts"
                       (md5_hex watchRuntime "get listAllTasks");
          ws_cache := Js.map_set (ws_cache watchStarted.1) "tasks/list.ts" ep |},
       Ok tt w') ∧
    w_files w'
    = regenerated watchRuntime Sample.config
        {| ws_manifest :=
             Js.map_set (ws_manifest watchStarted.1) "tasks/list.ts"
                        (md5_hex watchRuntime "get listAllTasks");
           ws_cache := Js.map_set (ws_cache watchStarted.1) "tasks/list.ts" ep |}
        (w_files watchEdited).
Proof.
  destruct (watchFire_changed watchRuntime Sample.config "tasks/list.ts"
              watchStarted.1 watchEdited "get listAllTasks")
    as (Hsome & _ & _).
  - vm_compute. reflexivity.
  - vm_compute. reflexivity.
  - vm_compute. discriminate.
  - edestruct Hsome as (Hd & w' & Hf & Hw'); [vm_compute; reflexivity|].
    eexists _, w'. split_and!; [|exact Hd|exact Hf|exact Hw'].
    reflexivity.
Defined.

Section watch_start.
Context (rt : Runtime) (config : ResolvedConfig).

Lemma parseAllEndpoints_Ok w cache w' :
  parseAllEndpoints rt config w = Ok cache w' →
  NoDup (Js.map_keys cache) ∧ w_files w' = w_files w ∧ w_dirs w' = w_dirs w.
Proof.
  unfold parseAllEndpoints, mbind, M_bind, bind.
  rewrite scanEndpointFiles_eq.
  intros H.
  change (forEachM (scannedFiles rt config w) (parseStep rt config) [] w
          = Ok cache w') in H.
  destruct (parseLoop_cases rt config (scannedFiles rt config w) [] w)
    as (evs & _ & [[e He]|(cache' & Hl & Hnd & _)]); [congruence|].
  rewrite Hl in H. injection H as <- <-. split; [|done]. apply Hnd. constructor.
Qed.

(** X24: the initial build of the watch mode.  When it returns, neither
    the manifest nor the cache it hands to the watcher has a repeated key,
    the manifest was built from the files found after the generation, and
    the file system is the old one with the artifacts of the cached
    descriptors and then the manifest stored. *)
Theorem watchStart_state w st w' :
  watchStart rt config w = Ok st w' →
  NoDup (Js.map_keys (ws_manifest st)) ∧
  NoDup (Js.map_keys (ws_cache st)) ∧
  (∃ wg, buildManifest rt (scannedFiles rt config wg) config wg
         = Ok (ws_manifest st) (extend wg (manifestReads rt config
                                             (scannedFiles rt config wg))) ∧
         w_files wg = storeAll (w_files w)
                        (artifacts rt (Js.map_values (ws_cache st)) config)) ∧
  w_files w' = regenerated rt config st (w_files w).
Proof.
  unfold watchStart, mbind, M_bind, bind.
  destruct (newProject_cases rt config w) as [[_ ->]|[_ [? ->]]]; [|done].
  destruct (parseAllEndpoints rt config _) as [cache wc|] eqn:Hc; [|done].
  apply parseAllEndpoints_Ok in Hc as (Hnd & Hfiles & _).
  cbn [w_files extend] in Hfiles.
  rewrite generate_afterWrites, scanEndpointFiles_eq.
  set (wg := afterWrites rt _ _).
  destruct (buildManifest rt (scannedFiles rt config wg) config wg)
    as [manifest wb|] eqn:Hb; [|done].
  pose proof Hb as (-> & _)%buildManifest_frame.
  assert (w_files wg = storeAll (w_files w)
                         (artifacts rt (Js.map_values cache) config)) as Hwg.
  { subst wg. rewrite afterWrites_files. cbn [w_files]. by rewrite Hfiles. }
  unfold saveManifest, writeFileSync, console_log, emit, mret, M_ret, ret.
  intros [= <- <-]. cbn [ws_manifest ws_cache]. split_and!.
  - apply (buildManifest_loop_NoDup rt config _ _ _ _ _ Hb). constructor.
  - done.
  - by exists wg.
  - unfold regenerated. cbn [w_files extend ws_manifest ws_cache].
    by rewrite Hwg.
Qed.

End watch_start.

Lemma watchStart_state_witness :
  NoDup (Js.map_keys (ws_manifest watchStarted.1)) ∧
  NoDup (Js.map_keys (ws_cache watchStarted.1)) ∧
  (∃ wg, buildManifest watchRuntime (scannedFiles watchRuntime Sample.config wg)
           Sample.config wg
         = Ok (ws_manifest watchStarted.1)
              (extend wg (manifestReads watchRuntime Sample.config
                            (scannedFiles watchRuntime Sample.config wg))) ∧
         w_files wg
         = storeAll (w_files Sample.project)
             (artifacts watchRuntime (Js.map_values (ws_cache watchStarted.1))
                        Sample.config)) ∧
  w_files watchStarted.2
  = regenerated watchRuntime Sample.config watchStarted.1
      (w_files Sample.project).
Proof.
  apply (watchStart_state watchRuntime Sample.config Sample.project
           watchStarted.1 watchStarted.2).
  vm_compute. reflexivity.
Defined.

(** ** Printing and reading numbers *)

Lemma digit_value_pretty_N_char m :
  (m < 10)%N →
  Js.is_digit (pretty_N_char m) = true ∧
  digit_value (pretty_N_char m) = Some (Z.of_N m).
Proof.
  intros Hm.
  assert (m = 0 ∨ m = 1 ∨ m = 2 ∨ m = 3 ∨ m = 4 ∨ m = 5 ∨ m = 6 ∨ m = 7 ∨
          m = 8 ∨ m = 9)%N as Hcases by lia.
  repeat (destruct Hcases as [->|Hcases]; [by vm_compute|]).
  subst m. by vm_compute.
Qed.

Lemma allDigits_app a b : allDigits (a +:+ b) = allDigits a && allDigits b.
Proof.
  induction a as [|c a IH]; [done|]. unfold String.app in *. simpl.
  by rewrite IH, andb_assoc.
Qed.

Lemma pretty_N_go_digits x : ∀ s,
  (0 < x)%N →
  ∃ ds, pretty_N_go x s = ds +:+ s ∧ ds ≠ "" ∧ allDigits ds = true ∧
        ∀ acc rest,
          parse_digits (Some acc) (ds +:+ rest)
          = parse_digits
              (Some (acc * 10 ^ Z.of_nat (String.length ds) + Z.of_N x)%Z) rest.
Proof.
  induction (N.lt_wf_0 x) as [x _ IH]; intros s Hx.
  rewrite pretty_N_go_step by done.
  destruct (digit_value_pretty_N_char (x `mod` 10)) as [Hd Hv];
    [by apply N.mod_lt|].
  pose proof (N.div_mod x 10 ltac:(done)) as Hdm.
  destruct (decide (x `div` 10 = 0)%N) as [Hz|Hnz].
  - rewrite Hz, pretty_N_go_0.
    exists (String (pretty_N_char (x `mod` 10)) "").
    split_and!; [done|done|by simpl; rewrite Hd|].
    intros acc rest. change (String ?c "" +:+ rest) with (String c rest).
    cbn [parse_digits]. rewrite Hv. cbn [default String.length].
    do 2 f_equal. rewrite Hz in Hdm. change (Z.of_nat 1) with 1%Z.
    rewrite Z.pow_1_r. unfold id. lia.
  - destruct (IH (x `div` 10)%N) with
      (s := String (pretty_N_char (x `mod` 10)) s)
      as (ds & Hgo & Hne & Hall & Hparse);
      [apply N.div_lt; [done|reflexivity]|by apply N.neq_0_lt_0|].
    exists (ds +:+ String (pretty_N_char (x `mod` 10)) "").
    split_and!.
    + by rewrite Hgo, string_app_assoc.
    + destruct ds; [done|]. by unfold String.app.
    + rewrite allDigits_app, Hall. simpl. by rewrite Hd.
    + intros acc rest. rewrite string_app_assoc.
      change (String ?c "" +:+ rest) with (String c rest).
      rewrite Hparse. cbn [parse_digits]. rewrite Hv. cbn [default].
      do 2 f_equal. rewrite string_length_app. cbn [String.length].
      rewrite Nat2Z.inj_add, Z.pow_add_r by lia.
      change (Z.of_nat 1) with 1%Z. rewrite Z.pow_1_r.
      assert (Z.of_N x = 10 * Z.of_N (x `div` 10) + Z.of_N (x `mod` 10))%Z
        as -> by lia.
      unfold id. ring.
Qed.

Lemma digit_not_sign c :
  Js.is_digit c = true →
  Js.is_space c = false ∧ c ≠ "-"%char ∧ c ≠ "+"%char.
Proof.
  destruct c as [[] [] [] [] [] [] [] []]; try discriminate; by vm_compute.
Qed.

Lemma parseInt_digits ds :
  ds ≠ "" → allDigits ds = true →
  parseInt ds = toDouble <$> parse_digits (Some 0%Z) ds ∧
  parseInt ("-" +:+ ds)
  = (λ n, toDouble (- n)) <$> parse_digits (Some 0%Z) ds.
Proof.
  destruct ds as [|c ds]; [done|]. intros _ [Hc _]%andb_true_iff.
  pose proof (digit_not_sign c Hc) as (Hsp & Hm & Hp).
  assert (parse_digits None (String c ds) = parse_digits (Some 0%Z) (String c ds))
    as Hnone.
  { cbn [parse_digits]. unfold digit_value. by rewrite Hc. }
  split.
  - unfold parseInt. cbn [Js.trimStart]. rewrite Hsp, <-Hnone.
    destruct c as [[] [] [] [] [] [] [] []]; done.
  - unfold parseInt. change ("-" +:+ String c ds) with (String "-" (String c ds)).
    cbn [Js.trimStart]. change (Js.is_space "-") with false. cbv iota.
    by rewrite Hnone.
Qed.

Lemma parseInt_pretty (n : Z) : parseInt (pretty n) = Some (toDouble n).
Proof.
  destruct n as [|p|p].
  - done.
  - change (pretty (Z.pos p)) with (pretty_N_go (N.pos p) "").
    destruct (pretty_N_go_digits (N.pos p) "") as (ds & -> & Hne & Hall & Hparse);
      [done|].
    rewrite string_app_nil_r.
    destruct (parseInt_digits ds Hne Hall) as [-> _].
    rewrite <-(string_app_nil_r ds) at 1. rewrite Hparse. simpl. f_equal.
  - change (pretty (Z.neg p)) with ("-" +:+ pretty_N_go (N.pos p) "").
    destruct (pretty_N_go_digits (N.pos p) "") as (ds & -> & Hne & Hall & Hparse);
      [done|].
    rewrite string_app_nil_r.
    destruct (parseInt_digits ds Hne Hall) as [_ ->].
    rewrite <-(string_app_nil_r ds) at 1. rewrite Hparse. simpl. f_equal.
Qed.

Lemma toDouble_safe (n : Z) :
  (Z.abs n < 2 ^ 53)%Z → toDouble n = Integer n.
Proof.
  intros Hn. unfold toDouble. by rewrite (proj2 (Z.ltb_lt _ _)) by done.
Qed.

(** X25: a retry count printed and read back.  For a positive count within
    the safe integers, the number text that goes into the [extraOptions]
    line of the API file is read by the [parseInt] of the extractor as the
    same count, which is kept. *)
Theorem retries_round_trip rt (n : Z) :
  (0 < n < 2 ^ 53)%Z →
  parseInt (numberToString rt (Integer n)) = Some (Integer n) ∧
  retainedRetries (parseInt (numberToString rt (Integer n)))
  = Some (Integer n).
Proof.
  intros [Hpos Hsafe]. unfold numberToString.
  rewrite (proj2 (Z.ltb_lt _ _)) by lia.
  rewrite parseInt_pretty, toDouble_safe by lia.
  split; [done|]. simpl. by rewrite bool_decide_eq_true_2.
Qed.

Lemma retries_round_trip_witness :
  parseInt (numberToString Sample.runtime (Integer 3)) = Some (Integer 3) ∧
  retainedRetries (parseInt (numberToString Sample.runtime (Integer 3)))
  = Some (Integer 3).
Proof. apply (retries_round_trip Sample.runtime 3). lia. Defined.

(** The sample runtime prints the doubles beyond the safe integers as Node
    does; the exponent form is not read back as the same number. *)
Example numberToString_examples :
  numberToString Sample.runtime (Integer (2 ^ 53)) = "9007199254740992" ∧
  numberToString Sample.runtime (Integer (2 ^ 69)) = "590295810358705700000" ∧
  numberToString Sample.runtime (Integer (10 ^ 21)) = "1e+21" ∧
  numberToString Sample.runtime (Integer (2 ^ 70)) = "1.1805916207174113e+21" ∧
  numberToString Sample.runtime (Integer ((2 ^ 53 - 1) * 2 ^ 971))
  = "1.7976931348623157e+308" ∧
  parseInt (numberToString Sample.runtime (Integer (10 ^ 21)))
  = Some (Integer 1) ∧
  parseInt (numberToString Sample.runtime Infinity) = None.
Proof. by vm_compute. Qed.

(** ** A persisted manifest that is not an object *)

Lemma allDigits_not_ts s : allDigits s = true → Js.endsWith s ".ts" = false.
Proof.
  induction s as [|c s IH]; [done|]. cbn [allDigits Js.endsWith].
  intros [Hc Hs]%andb_true_iff. case_decide as Heq; [|by apply IH].
  by injection Heq as -> _.
Qed.

Lemma pretty_nat_allDigits (i : nat) : allDigits (pretty i) = true.
Proof.
  unfold pretty, pretty_nat, pretty, pretty_N. case_decide; [done|].
  destruct (pretty_N_go_digits (N.of_nat i) "") as (ds & -> & _ & Hall & _);
    [lia|].
  by rewrite string_app_nil_r.
Qed.

Lemma indexKeyed_keys v :
  indexKeyed v = true →
  ∃ entries, ownEntries v = Some entries ∧
             Forall (λ k, allDigits k = true) (Js.map_keys entries).
Proof.
  destruct v as [|b|n|s|items|members]; try done; intros _; simpl;
    eexists; (split; [done|]); try by constructor.
  - apply Forall_forall. intros k (e & -> & (i & c & -> & _)%elem_of_lookup_imap_1)
                                %list_elem_of_fmap.
    apply pretty_nat_allDigits.
  - apply Forall_forall. intros k (e & -> & (i & c & -> & _)%elem_of_lookup_imap_1)
                                %list_elem_of_fmap.
    apply pretty_nat_allDigits.
Qed.

Lemma manifestsMatchLoop_keys a b keysA keysB :
  length keysA = length keysB →
  manifestsMatchLoop a b keysA keysB = true → keysA = keysB.
Proof.
  revert keysB. induction keysA as [|ka keysA IH]; intros [|kb keysB] Hlen;
    simplify_eq/=; [done|].
  case_bool_decide; simpl; [subst|done].
  destruct (negb _); [done|]. intros ?. f_equal. by apply IH.
Qed.

Lemma manifestsMatch_indexKeyed v new w :
  indexKeyed v = true → new ≠ [] →
  Forall (λ k, Js.endsWith k ".ts" = true) (Js.map_keys new) →
  manifestsMatch v (manifestValue new) w = Ok false w.
Proof.
  intros (ea & Hea & Hdigits)%indexKeyed_keys Hnew Hts.
  unfold manifestsMatch, objectKeys, mbind, M_bind, bind, mret, M_ret, ret.
  rewrite Hea. simpl. rewrite manifestValue_keys.
  case_bool_decide as Hlen; simpl; [|done].
  destruct (manifestsMatchLoop _ _ _ _) eqn:Hloop; [|done].
  apply manifestsMatchLoop_keys in Hloop; [|done].
  apply sort_eq_Permutation in Hloop.
  destruct new as [|[k h] new]; [done|].
  assert (k ∈ Js.map_keys ea) as Hk by (rewrite Hloop; by left).
  rewrite Forall_forall in Hdigits. apply Hdigits, allDigits_not_ts in Hk.
  apply Forall_cons in Hts as [Hts _]. simpl in Hts. congruence.
Qed.

Lemma scannedFiles_ts rt config w f :
  f ∈ scannedFiles rt config w → Js.endsWith f ".ts" = true.
Proof.
  unfold scannedFiles, filterAndSort. destruct (negb _); [by intros ?%elem_of_nil|].
  rewrite elem_of_sort.
  intros (g & -> & [Hg _]%list_elem_of_filter)%list_elem_of_fmap.
  apply endsWith_replace_backslashes. by apply Is_true_true.
Qed.

(** X26: a persisted manifest that parses to a JSON value that is neither an
    object nor null (a boolean, a number, a string, an array) never matches:
    its keys are indices and no endpoint file is named by one.  With the
    project constructed, at least one endpoint file and all of them hashed,
    the run rebuilds: when the extraction returns, it leaves the artifacts
    of the extracted descriptors and the new manifest stored and the report
    of the generation as its last event; when the extraction throws, the run
    throws the same and the files are as they were. *)
Theorem runGenerate_non_object_manifest rt config w new wb :
  indexKeyed (loadedManifest rt config (w_files w)) = true →
  projectLoads rt config w →
  scannedFiles rt config w ≠ [] →
  buildManifest rt (scannedFiles rt config w) config w = Ok new wb →
  manifestsMatch (loadedManifest rt config (w_files w)) (manifestValue new) w
  = Ok false w ∧
  (∀ cache wc,
     parseAllEndpoints rt config w = Ok cache wc →
     ∃ w',
       runGenerate rt config w = Ok tt w' ∧
       w_files w'
       = <[manifestPath config := JSON_stringify rt new +:+ nl]>
           (storeAll (w_files w) (artifacts rt (Js.map_values cache) config)) ∧
       last (w_trace w') = Some (Log (generatedReport rt config cache))) ∧
  (∀ e wc,
     parseAllEndpoints rt config w = Throw e wc →
     ∃ w',
       runGenerate rt config w = Throw e w' ∧
       w_files w' = w_files w ∧ w_dirs w' = w_dirs w).
Proof.
  intros Hv Hl Hfiles Hb.
  assert (manifestsMatch (loadedManifest rt config (w_files w))
            (manifestValue new) w = Ok false w) as Hm.
  { apply manifestsMatch_indexKeyed; [done| |].
    - by apply buildManifest_frame in Hb as (_ & Hne & _); auto.
    - apply Forall_forall. intros k Hk.
      apply (scannedFiles_ts rt config w).
      apply elem_of_map_keys in Hk as [h Hh].
      rewrite (buildManifest_loop_entries rt config _ _ _ _ _ Hb k) in Hh.
      destruct (last (filter (λ f, f = k) (scannedFiles rt config w)))
        as [f|] eqn:Hlast; [|done].
      apply last_Some_elem_of, list_elem_of_filter in Hlast as [-> ?]. done. }
  split; [done|]. by apply (runGenerate_mismatch rt config w new wb).
Qed.

Lemma runGenerate_non_object_manifest_witness :
  loadedManifest arrayAwareRuntime Sample.config (w_files arrayManifestProject)
  = JArray [JBool true; JBool false] ∧
  ∃ cache w',
    runGenerate arrayAwareRuntime Sample.config arrayManifestProject
    = Ok tt w' ∧
    w_files w'
    = <[manifestPath Sample.config
        := JSON_stringify arrayAwareRuntime
             [("tasks/create.ts", "md5:post createTask");
              ("tasks/list.ts", "md5:get listTasks")] +:+ nl]>
        (storeAll (w_files arrayManifestProject)
           (artifacts arrayAwareRuntime (Js.map_values cache) Sample.config)) ∧
    last (w_trace w')
    = Some (Log (generatedReport arrayAwareRuntime Sample.config cache)).
Proof.
  split; [vm_compute; reflexivity|].
  destruct (runGenerate_non_object_manifest arrayAwareRuntime Sample.config
              arrayManifestProject
              [("tasks/create.ts", "md5:post createTask");
               ("tasks/list.ts", "md5:get listTasks")]
              (extend arrayManifestProject
                 [ReadFile "/p/src/endpoints/tasks/create.ts";
                  ReadFile "/p/src/endpoints/tasks/list.ts"]))
    as (_ & Hok & _).
  - vm_compute. reflexivity.
  - exists "{}". split; vm_compute; reflexivity.
  - vm_compute. discriminate.
  - vm_compute. reflexivity.
  - edestruct Hok as (w' & Hw'); [vm_compute; reflexivity|].
    eexists _, w'. exact Hw'.
Defined.

(** ** The head of the API file and the order of the endpoints *)

Section sort_by_facts.
Context {A : Type} (le : A → A → bool).

Lemma insert_by_Permutation x l : Js.insert_by le x l ≡ₚ x :: l.
Proof.
  induction l as [|y l IH]; simpl; [done|].
  destruct (le x y); [done|]. by rewrite IH, Permutation_swap.
Qed.

Lemma sort_by_Permutation l : Js.sort_by le l ≡ₚ l.
Proof.
  unfold Js.sort_by. induction l as [|x l IH]; simpl; [done|].
  by rewrite insert_by_Permutation, IH.
Qed.

Lemma insert_by_Sorted x l :
  (∀ a b, le a b = false → le b a = true) →
  Sorted (λ a b, le a b = true) l →
  Sorted (λ a b, le a b = true) (Js.insert_by le x l).
Proof.
  intros Htotal Hl. induction Hl as [|y l Hl IH Hy]; simpl.
  - by repeat constructor.
  - destruct (le x y) eqn:Hxy.
    + constructor; [by constructor|by constructor].
    + constructor; [done|].
      destruct Hy as [|z l Hyz]; simpl.
      * constructor. by apply Htotal.
      * destruct (le x z); constructor; [by apply Htotal|done].
Qed.

Lemma sort_by_Sorted l :
  (∀ a b, le a b = false → le b a = true) →
  Sorted (λ a b, le a b = true) (Js.sort_by le l).
Proof.
  intros Htotal. unfold Js.sort_by.
  induction l as [|x l IH]; simpl; [constructor|by apply insert_by_Sorted].
Qed.

Lemma sort_by_fmap {B} (le' : B → B → bool) (f : A → B) l :
  (∀ a b, le' (f a) (f b) = le a b) →
  Js.sort_by le' (f <$> l) = f <$> Js.sort_by le l.
Proof.
  intros Hle. unfold Js.sort_by. induction l as [|x l IH]; csimpl; [done|].
  rewrite IH. generalize (foldr (Js.insert_by le) [] l). intros s.
  induction s as [|y s IHs]; csimpl; [done|].
  rewrite Hle. destruct (le x y); csimpl; [done|]. by rewrite IHs.
Qed.

End sort_by_facts.

Lemma string_app_inj_r a b s : a +:+ s = b +:+ s → a = b.
Proof.
  revert b. induction a as [|c a IH]; intros [|d b] Heq; try done.
  - apply (f_equal String.length) in Heq.
    rewrite !string_length_app in Heq. simpl in Heq. lia.
  - apply (f_equal String.length) in Heq.
    rewrite !string_length_app in Heq. simpl in Heq. lia.
  - unfold String.app in Heq. simpl in Heq. injection Heq as -> Heq.
    f_equal. by apply IH.
Qed.

Lemma elem_of_keys_map_set {V} (m : list (string * V)) p v k :
  k ∈ Js.map_keys (Js.map_set m p v) ↔ k ∈ Js.map_keys m ∨ k = p.
Proof.
  rewrite map_keys_set. destruct (Js.map_has m p) eqn:Hhas.
  - split; [by left|]. intros [?| ->]; [done|].
    apply elem_of_map_keys. by apply bool_decide_eq_true in Hhas.
  - by rewrite elem_of_app, list_elem_of_singleton.
Qed.

Lemma collectTypeImports_types_keys p types all k :
  p ∈ Js.map_keys all →
  k ∈ Js.map_keys
        (foldl (λ all t, Js.map_set all p
                  (Js.set_add (default [] (Js.map_get all p)) t))
               all types)
  ↔ k ∈ Js.map_keys all.
Proof.
  revert all. induction types as [|t types IH]; intros all Hp; simpl; [done|].
  rewrite IH by (apply elem_of_keys_map_set; by right).
  rewrite elem_of_keys_map_set. naive_solver.
Qed.

Lemma collectTypeImports_entries_keys entries all k :
  k ∈ Js.map_keys
        (foldl (λ all '(importPath, types),
                  let all := if Js.map_has all importPath then all
                             else Js.map_set all importPath [] in
                  foldl (λ all t, Js.map_set all importPath
                           (Js.set_add (default [] (Js.map_get all importPath)) t))
                        all types)
               all entries)
  ↔ k ∈ Js.map_keys all ∨ k ∈ entries.*1.
Proof.
  revert all. induction entries as [|[q types] entries IH]; intros all; csimpl.
  - rewrite elem_of_nil. naive_solver.
  - rewrite IH. clear IH.
    assert (∀ k, k ∈ Js.map_keys (if Js.map_has all q then all
                                   else Js.map_set all q [])
                 ↔ k ∈ Js.map_keys all ∨ k = q) as Hens.
    { intros k'. destruct (Js.map_has all q) eqn:Hhas.
      - split; [by left|]. intros [?| ->]; [done|].
        apply elem_of_map_keys. by apply bool_decide_eq_true in Hhas.
      - apply elem_of_keys_map_set. }
    rewrite collectTypeImports_types_keys by (apply Hens; by right).
    rewrite Hens, elem_of_cons. naive_solver.
Qed.

Lemma collectTypeImports_loop endpoints all :
  let all' :=
    foldl (λ all ep,
             foldl (λ all '(importPath, types),
                      let all := if Js.map_has all importPath then all
                                 else Js.map_set all importPath [] in
                      foldl (λ all t, Js.map_set all importPath
                               (Js.set_add (default [] (Js.map_get all importPath)) t))
                            all types)
                   all (typeImports ep))
          all endpoints in
  (mapOfSets all → mapOfSets all') ∧
  (∀ p t, importsType all' p t ↔
          importsType all p t ∨
          ∃ ep types, ep ∈ endpoints ∧ (p, types) ∈ typeImports ep ∧
                      t ∈ types) ∧
  (∀ k, k ∈ Js.map_keys all' ↔
        k ∈ Js.map_keys all ∨
        ∃ ep, ep ∈ endpoints ∧ k ∈ Js.map_keys (typeImports ep)).
Proof.
  revert all. induction endpoints as [|ep eps IH]; intros all; simpl.
  - split_and!; [done| |].
    + intros p t. split; [by left|].
      by intros [?|(? & ? & ?%elem_of_nil & _)].
    + intros k. split; [by left|]. by intros [?|(? & ?%elem_of_nil & _)].
  - destruct (collectTypeImports_entries (typeImports ep) all)
      as (Hm1 & Hin1 & _).
    destruct (IH (foldl (λ all '(importPath, types),
                      let all := if Js.map_has all importPath then all
                                 else Js.map_set all importPath [] in
                      foldl (λ all t, Js.map_set all importPath
                               (Js.set_add (default [] (Js.map_get all importPath)) t))
                            all types)
                   all (typeImports ep))) as (Hm & Hin & Hk).
    simpl in *. split_and!.
    + auto.
    + intros p t. rewrite Hin, Hin1. setoid_rewrite elem_of_cons.
      naive_solver.
    + intros k. rewrite Hk, collectTypeImports_entries_keys.
      setoid_rewrite elem_of_cons. unfold Js.map_keys. naive_solver.
Qed.

(** Two maps of sets with the same keys and the same members. *)
Lemma sortEntries_same m1 m2 :
  mapOfSets m1 → mapOfSets m2 →
  (∀ k, k ∈ Js.map_keys m1 ↔ k ∈ Js.map_keys m2) →
  (∀ p t, importsType m1 p t ↔ importsType m2 p t) →
  (λ '(importPath, types),
     "import type { " +:+ Js.join ", " (Js.sort types) +:+ " } from " +:+
     quoted importPath +:+ ";") <$> sortEntries m1
  = (λ '(importPath, types),
     "import type { " +:+ Js.join ", " (Js.sort types) +:+ " } from " +:+
     quoted importPath +:+ ";") <$> sortEntries m2.
Proof.
  intros [Hk1 Hs1] [Hk2 Hs2] Hkeys Hmem.
  set (norm := λ e : string * list string, (e.1, Js.sort e.2)).
  set (le := λ a b : string * list string,
               bool_decide (Js.codeUnitLe (entrySortKey a) (entrySortKey b))).
  set (line := λ e : string * list string,
                 "import type { " +:+ Js.join ", " e.2 +:+ " } from " +:+
                 quoted e.1 +:+ ";").
  assert (∀ m, (λ '(importPath, types),
                  "import type { " +:+ Js.join ", " (Js.sort types) +:+
                  " } from " +:+ quoted importPath +:+ ";") <$> sortEntries m
               = line <$> Js.sort_by le (norm <$> m)) as Hlines.
  { intros m. rewrite (sort_by_fmap le le norm) by done.
    rewrite <-list_fmap_compose. apply list_fmap_ext. by intros _ [p types] _. }
  rewrite !Hlines. f_equal.
  assert (∀ m, (norm <$> m).*1 = Js.map_keys m) as Hfst.
  { intros m. by rewrite <-list_fmap_compose. }
  assert (∀ m, NoDup (Js.map_keys m) → NoDup (norm <$> m)) as Hnd.
  { intros m Hm. apply (NoDup_fmap_1 fst). by rewrite Hfst. }
  assert (∀ ma mb,
            NoDup (Js.map_keys ma) → NoDup (Js.map_keys mb) →
            (∀ p types, (p, types) ∈ ma → NoDup types) →
            (∀ p types, (p, types) ∈ mb → NoDup types) →
            (∀ k, k ∈ Js.map_keys ma → k ∈ Js.map_keys mb) →
            (∀ p t, importsType ma p t ↔ importsType mb p t) →
            ∀ e, e ∈ norm <$> ma → e ∈ norm <$> mb) as Hsub.
  { intros ma mb Hka Hkb Hsa Hsb Hsubk Hm e ([p ta] & -> & Hin)%list_elem_of_fmap.
    assert (p ∈ Js.map_keys mb) as [tb Hb]%elem_of_map_keys.
    { apply Hsubk. by apply (list_elem_of_fmap_2 fst) in Hin. }
    apply list_elem_of_fmap. exists (p, tb).
    split; [|by apply map_get_Some_elem_of].
    unfold norm. simpl. f_equal. apply sort_Permutation.
    apply NoDup_Permutation; [by eapply Hsa|
                              by eapply Hsb, map_get_Some_elem_of|].
    intros t. pose proof (map_get_elem_of _ _ _ Hka Hin) as Ha.
    split.
    - intros Ht. destruct (proj1 (Hm p t)) as (tb' & Hb' & ?); [by exists ta|].
      congruence.
    - intros Ht. destruct (proj2 (Hm p t)) as (ta' & Ha' & ?); [by exists tb|].
      congruence. }
  assert (norm <$> m1 ≡ₚ norm <$> m2) as Hperm.
  { apply NoDup_Permutation; [by apply Hnd..|]. intros e. split.
    - apply Hsub; try done. intros k. apply Hkeys.
    - apply Hsub; try done. intros k. apply Hkeys. }
  assert (Transitive (λ a b : string * list string, le a b = true)) as Htrans.
  { intros a b c Hab Hbc. apply bool_decide_eq_true.
    apply bool_decide_eq_true in Hab, Hbc. by etrans. }
  apply (Sorted_unique_strong (λ a b, le a b = true)).
  - intros x1 x2 Hx1 Hx2 H12 H21.
    apply bool_decide_eq_true in H12, H21.
    assert (x1.1 = x2.1) as Hkey.
    { apply (string_app_inj_r _ _ ",[object Set]"). by apply (anti_symm Js.codeUnitLe). }
    rewrite sort_by_Permutation in Hx1, Hx2. rewrite <-Hperm in Hx2.
    pose proof (Hnd m1 Hk1) as Hn1.
    destruct x1 as [p s1], x2 as [p' s2]. simpl in Hkey. subst p'.
    f_equal.
    assert (NoDup (Js.map_keys (norm <$> m1))) as Hnk.
    { unfold Js.map_keys. by rewrite Hfst. }
    pose proof (map_get_elem_of _ _ _ Hnk Hx1).
    pose proof (map_get_elem_of _ _ _ Hnk Hx2). congruence.
  - apply sort_by_Sorted. intros a b Hab.
    apply bool_decide_eq_false in Hab. apply bool_decide_eq_true.
    by destruct (total Js.codeUnitLe (entrySortKey a) (entrySortKey b)).
  - apply sort_by_Sorted. intros a b Hab.
    apply bool_decide_eq_false in Hab. apply bool_decide_eq_true.
    by destruct (total Js.codeUnitLe (entrySortKey a) (entrySortKey b)).
  - by rewrite !sort_by_Permutation.
Qed.

Lemma existsb_Permutation {A} (f : A → bool) l1 l2 :
  l1 ≡ₚ l2 → existsb f l1 = existsb f l2.
Proof.
  induction 1 as [|x l1 l2 _ IH|x y l|l1 l2 l3 _ IH1 _ IH2]; simpl.
  - done.
  - by rewrite IH.
  - by destruct (f x), (f y).
  - by rewrite IH1.
Qed.

Lemma collectTypeImports_Permutation endpoints endpoints' :
  endpoints ≡ₚ endpoints' →
  (λ '(importPath, types),
     "import type { " +:+ Js.join ", " (Js.sort types) +:+ " } from " +:+
     quoted importPath +:+ ";") <$> sortEntries (collectTypeImports endpoints)
  = (λ '(importPath, types),
     "import type { " +:+ Js.join ", " (Js.sort types) +:+ " } from " +:+
     quoted importPath +:+ ";") <$> sortEntries (collectTypeImports endpoints').
Proof.
  intros Hp. unfold collectTypeImports.
  destruct (collectTypeImports_loop endpoints []) as (Hm1 & Hin1 & Hk1).
  destruct (collectTypeImports_loop endpoints' []) as (Hm2 & Hin2 & Hk2).
  assert (mapOfSets []) as Hnil.
  { split; [constructor|]. by intros ?? ?%elem_of_nil. }
  apply sortEntries_same; [by apply Hm1|by apply Hm2| |].
  - intros k. rewrite Hk1, Hk2. by setoid_rewrite Hp.
  - intros p t. rewrite Hin1, Hin2. by setoid_rewrite Hp.
Qed.

(** X27: the API file and the order of the endpoints.  When the endpoints
    come in another order (as they do in watch mode, where a new file goes
    to the end of the cache), the head of the file stays the same: the
    header, the toolkit import, the type imports, the baseQuery line and
    the tagTypes line, up to the line that opens the endpoints; the file as
    a whole has the same lines in another order. *)
Theorem generateApiLines_order rt endpoints endpoints' config :
  endpoints ≡ₚ endpoints' →
  take (length (collectTypeImports endpoints) + 10)
       (generateApiLines rt endpoints config)
  = take (length (collectTypeImports endpoints) + 10)
         (generateApiLines rt endpoints' config) ∧
  length (collectTypeImports endpoints) = length (collectTypeImports endpoints') ∧
  generateApiLines rt endpoints config ≡ₚ generateApiLines rt endpoints' config.
Proof.
  intros Hp.
  pose proof (collectTypeImports_Permutation _ _ Hp) as Himports.
  assert (Js.sort (collectTagTypes endpoints)
          = Js.sort (collectTagTypes endpoints')) as Htags.
  { apply sort_Permutation.
    apply NoDup_Permutation;
      [apply collectTagTypes_loop; constructor..|].
    intros t. unfold collectTagTypes.
    destruct (collectTagTypes_loop endpoints []) as [_ ->].
    destruct (collectTagTypes_loop endpoints' []) as [_ ->].
    by setoid_rewrite Hp. }
  assert (length (collectTypeImports endpoints)
          = length (collectTypeImports endpoints')) as Hlen.
  { apply (f_equal length) in Himports.
    rewrite !length_fmap in Himports. unfold sortEntries in Himports.
    by rewrite !sort_by_Permutation in Himports. }
  unfold generateApiLines.
  rewrite <-(existsb_Permutation hasRetries _ _ Hp), <-Htags, <-Himports.
  set (imports := _ <$> sortEntries (collectTypeImports endpoints)).
  assert (length imports = length (collectTypeImports endpoints)) as Hli.
  { subst imports. rewrite length_fmap. unfold sortEntries.
    by rewrite sort_by_Permutation. }
  split_and!; [|done|].
  - rewrite <-Hli.
    rewrite !(app_assoc [_; _] imports), !(app_assoc (_ ++ imports) [_; _; _; _; _; _; _; _]).
    rewrite !take_app_length'; [done|..];
      rewrite !length_app; simpl; lia.
  - repeat f_equiv; done.
Qed.

Lemma generateApiLines_order_witness :
  take (length (collectTypeImports sampleEndpoints) + 10)
       (generateApiLines Sample.runtime sampleEndpoints Sample.config)
  = take (length (collectTypeImports sampleEndpoints) + 10)
         (generateApiLines Sample.runtime (reverse sampleEndpoints) Sample.config) ∧
  length (collectTypeImports sampleEndpoints)
  = length (collectTypeImports (reverse sampleEndpoints)) ∧
  generateApiLines Sample.runtime sampleEndpoints Sample.config
  ≡ₚ generateApiLines Sample.runtime (reverse sampleEndpoints) Sample.config.
Proof.
  apply (generateApiLines_order Sample.runtime sampleEndpoints (reverse sampleEndpoints)
           Sample.config).
  symmetry. apply reverse_Permutation.
Defined.
